(** * Cython/Utils.py: caches, package directories, versioned files, captured streams

    A shallow embedding of the parts of [Cython/Utils.py] that carry
    invariants, followed by the properties proved about them.

    - Part I translates the source: the caches, the package directories,
      the versioned files and the captured streams, in the order of the
      source file, then the other utilities of the module. Python
      exceptions are values of [outcome]; module level state
      ([_function_caches], the attributes of an object, the descriptor
      table of the process) is passed explicitly. What the module takes
      from the standard library ([os.path.exists], [glob.glob], the
      codecs, the system calls) is a parameter or a small model of its own.
    - Part II defines what the properties are stated with.
    - Part III states and proves the properties of the specification.
    - Part IV states and proves further properties of the embedded code. *)

From Stdlib Require Import ZArith List String Ascii Strings.Byte Bool Lia.
From stdpp Require Import base option list gmap strings sorting.
From Equations Require Import Equations.

Local Open Scope string_scope.
Local Open Scope list_scope.

(** * Part I: the embedding *)

(** ** Python values shared by the components *)

(** The exceptions the modelled code raises, catches or lets through. *)
Inductive exn : Type :=
| OSError (syscall : string)
| UnicodeDecodeError
| LookupError
| AttributeError (name : string)
| StopIteration
| GeneratorExit
| AssertionError
| Exception (tag : nat).

(** A call either returns a value or raises. *)
Inductive outcome (A : Type) : Type :=
| Return (a : A)
| Raise (e : exn).
Arguments Return {A} a.
Arguments Raise {A} e.

#[global] Instance exn_eq_dec : EqDecision exn.
Proof. solve_decision. Defined.

(** Python strings are modelled by [string]; the helpers below go through
    the list of characters. *)
Definition chars (s : string) : list ascii := list_ascii_of_string s.
Definition str (l : list ascii) : string := string_of_list_ascii l.

Definition startswith (s prefix : string) : bool := String.prefix prefix s.
Definition endswith (s suffix : string) : bool :=
  String.prefix (str (rev (chars suffix))) (str (rev (chars s))).

(** ** [cached_function] and [clear_function_caches] (lines 70-91) *)

Section cached_function.
Context {Args Res World : Type} `{Countable Args}.

(** The state the memoization layer lives in: the module level list
    [_function_caches] (one dict per decorated function, shared with the
    wrapper that owns it), whatever the decorated functions themselves read
    and write ([world]), and the record of every invocation of an
    underlying function, as (cache index, arguments). *)
Record memo_state : Type := MemoState {
  _function_caches : list (gmap Args Res);
  world : World;
  invocations : list (nat * Args)
}.

(** [for cache in _function_caches: cache.clear()] *)
Definition clear_function_caches (st : memo_state) : memo_state :=
  MemoState ((λ _ : gmap Args Res, ∅) <$> _function_caches st)
            (world st) (invocations st).

(** Decoration time: [cache = {}; _function_caches.append(cache)]. The
    wrapper keeps a reference to [cache]; the reference is its index in the
    list. *)
Definition cached_function (st : memo_state) : nat * memo_state :=
  (length (_function_caches st),
   MemoState (_function_caches st ++ [∅]) (world st) (invocations st)).

(** The wrapper: [res = cache.get(args, uncomputed)]; on a miss
    [res = cache[args] = f(args)]. When [f] raises nothing is stored. *)
Definition wrapper (cache : nat) (f : Args → World → outcome Res * World)
    (args : Args) (st : memo_state) : outcome Res * memo_state :=
  match default ∅ (_function_caches st !! cache) !! args with
  | Some res => (Return res, st)
  | None =>
      let '(r, w) := f args (world st) in
      let log := invocations st ++ [(cache, args)] in
      match r with
      | Return res =>
          (Return res,
           MemoState
             (<[cache := <[args := res]> (default ∅ (_function_caches st !! cache))]>
                (_function_caches st))
             w log)
      | Raise e => (Raise e, MemoState (_function_caches st) w log)
      end
  end.

(** A sequence of further calls through wrappers, each with its own cache
    and underlying function; outcomes are dropped. *)
Definition calls (cs : list (nat * (Args → World → outcome Res * World) * Args))
    (st : memo_state) : memo_state :=
  foldl (λ st c, (wrapper c.1.1 c.1.2 c.2 st).2) st cs.

(** How many times the function behind [cache] has been invoked with
    [args]. *)
Definition invocation_count (cache : nat) (args : Args) (st : memo_state) : nat :=
  length (filter (λ c, c = (cache, args)) (invocations st)).

End cached_function.

Arguments memo_state : clear implicits.
Arguments memo_state Args Res World {_ _}.

(** ** [_find_cache_attributes] and [clear_method_caches] (lines 38-41, 94-113) *)

(** [_build_cache_name = "__{0}_cache".format] *)
Definition _build_cache_name (name : string) : string :=
  "__" +:+ name +:+ "_cache".

Definition newline : ascii := "010"%char.

(** [$] also matches just before a newline that ends the string. *)
Definition before_final_newline (s : list ascii) : list ascii :=
  match rev s with
  | c :: r => if decide (c = newline) then rev r else s
  | [] => s
  end.

(** [_CACHE_NAME_PATTERN.match(attr_name)] for [^__(.+)_cache$]: the
    result is [match.group(1)], or [None] when there is no match. Between
    the two anchors the group is what stands between [__] and [_cache]; it
    is not empty and, [.] not matching a newline, holds none. *)
Definition _CACHE_NAME_PATTERN_match (attr_name : string) : option string :=
  let body := before_final_newline (chars attr_name) in
  let g := take (length body - 8) (drop 2 body) in
  if bool_decide (body = chars "__" ++ g ++ chars "_cache" ∧ g ≠ [] ∧ newline ∉ g)
  then Some (str g) else None.

Section method_caches.
Context {V : Type}.

(** An object: the attributes of the instance ([__dict__]) and the
    attributes found on its class and the bases of the class. *)
Record py_object : Type := PyObject {
  instance_dict : gmap string V;
  class_dict : gmap string V
}.

Definition string_le (a b : string) : Prop := String.leb a b = true.

#[local] Instance string_le_dec a b : Decision (string_le a b).
Proof. unfold string_le. apply _. Defined.

(** [dir(obj)]: the attribute names of the instance and of its class,
    without repeats, sorted. *)
Definition dir (obj : py_object) : list string :=
  merge_sort string_le (elements (dom (instance_dict obj) ∪ dom (class_dict obj))).

Definition hasattr (obj : py_object) (name : string) : bool :=
  bool_decide (is_Some (instance_dict obj !! name) ∨ is_Some (class_dict obj !! name)).

(** [delattr(obj, name)] removes an attribute of the instance; a name that
    the instance does not hold raises [AttributeError], also when the class
    provides it. *)
Definition delattr (obj : py_object) (name : string) : outcome py_object :=
  match instance_dict obj !! name with
  | Some _ => Return (PyObject (delete name (instance_dict obj)) (class_dict obj))
  | None => Raise (AttributeError name)
  end.

(** The generator [_find_cache_attributes(obj)]: [dir(obj)] is evaluated
    once, when the loop starts; the pairs (attribute name, method name) are
    produced in its order. *)
Definition _find_cache_attributes (obj : py_object) : list (string * string) :=
  omap (λ attr_name, (λ g, (attr_name, g)) <$> _CACHE_NAME_PATTERN_match attr_name)
       (dir obj).

(** The loop body of [clear_method_caches], run on the object as it is
    when the pair is reached. *)
Fixpoint clear_method_caches_loop (pairs : list (string * string))
    (obj : py_object) : outcome py_object :=
  match pairs with
  | [] => Return obj
  | (cache_name, method_name) :: rest =>
      if hasattr obj method_name then
        match delattr obj cache_name with
        | Return obj' => clear_method_caches_loop rest obj'
        | Raise e => Raise e
        end
      else clear_method_caches_loop rest obj
  end.

Definition clear_method_caches (obj : py_object) : outcome py_object :=
  clear_method_caches_loop (_find_cache_attributes obj) obj.

End method_caches.

Arguments py_object : clear implicits.

(** ** [os.path] on POSIX, and the file system the module looks at *)

Definition slash : ascii := "/"%char.

Fixpoint dropwhile {A : Type} (P : A → bool) (l : list A) : list A :=
  match l with
  | [] => []
  | x :: l' => if P x then dropwhile P l' else l
  end.

Definition is_slash (c : ascii) : bool := bool_decide (c = slash).

(** [posixpath.join(a, b)] *)
Definition os_path_join (a b : string) : string :=
  if startswith b "/" then b
  else if bool_decide (a = "") || endswith a "/" then a +:+ b
  else a +:+ "/" +:+ b.

(** [posixpath.dirname(p)]: [head = p[:p.rfind('/') + 1]], and
    [head.rstrip('/')] unless [head] is empty or consists of slashes only. *)
Definition os_path_dirname (p : string) : string :=
  let head := rev (dropwhile (λ c, negb (is_slash c)) (rev (chars p))) in
  if bool_decide (head ≠ []) && negb (forallb is_slash head)
  then str (rev (dropwhile is_slash (rev head)))
  else str head.

(** A PEP 302 loader as [path_exists] uses it: the [archive] attribute, when
    it has one, and whether [get_data] returns ([true]) or raises [IOError]. *)
Record zip_loader : Type := ZipLoader {
  archive : option string;
  get_data : string → bool
}.

(** What the module reads from its environment: [os.path.exists],
    [glob.glob] (the paths it returns, in its order), the global
    [__loader__] ([None] when the name is not bound) and
    [os.path.normpath]. The snapshot is fixed during a run, so a function
    decorated with [cached_function] returns what the undecorated function
    returns; the decorated functions below are embedded as the functions
    they wrap. *)
Record file_world : Type := FileWorld {
  os_path_exists : string → bool;
  glob_glob : string → list string;
  __loader__ : option zip_loader;
  os_path_normpath : string → string
}.

(** ** Package directories (lines 38, 228-285) *)

Definition PACKAGE_FILES : list string :=
  ["__init__.py"; "__init__.pyc"; "__init__.pyx"; "__init__.pxd"].

(** The truth value of what [contains_init] and [is_package_dir] return:
    [1] or, by falling off the end, [None]. *)
Definition truthy (r : option Z) : bool :=
  match r with
  | Some z => negb (z =? 0)%Z
  | None => false
  end.

Definition path_exists (w : file_world) (path : string) : bool :=
  if os_path_exists w path then true
  else
    match __loader__ w with
    | None => false
    | Some loader =>
        match archive loader with
        | Some archive_path =>
            if bool_decide (archive_path ≠ "") then
              let normpath := os_path_normpath w path in
              if startswith normpath archive_path then
                get_data loader
                  (str (drop (String.length archive_path + 1) (chars normpath)))
              else false
            else false
        | None => false
        end
    end.

Fixpoint contains_init_loop (w : file_world) (filenames : list string)
    (dir_path : string) : option Z :=
  match filenames with
  | [] => None
  | filename :: rest =>
      let path := os_path_join dir_path filename in
      if path_exists w path then Some 1%Z
      else contains_init_loop w rest dir_path
  end.

Definition contains_init (w : file_world) (dir_path : string) : option Z :=
  contains_init_loop w PACKAGE_FILES dir_path.

Definition is_package_dir (w : file_world) (dir_path : string) : option Z :=
  if truthy (contains_init w dir_path) then Some 1%Z else None.

(** The loop of [check_package_dir]. The last component records, in order,
    the arguments of the calls to [contains_init]: the marker lookups. *)
Fixpoint check_package_dir_loop (w : file_world) (package_names : list string)
    (dir_path : string) (namespace : bool) (lookups : list string)
    : string * bool * list string :=
  match package_names with
  | [] => (dir_path, namespace, lookups)
  | dirname :: rest =>
      let dir_path := os_path_join dir_path dirname in
      let has_init := contains_init w dir_path in
      let namespace := if truthy has_init then false else namespace in
      check_package_dir_loop w rest dir_path namespace (lookups ++ [dir_path])
  end.

Definition check_package_dir (w : file_world) (dir_path : string)
    (package_names : list string) : string * bool * list string :=
  check_package_dir_loop w package_names dir_path true [].

(** [find_root_package_dir(file_path)] *)
Equations? find_root_package_dir (w : file_world) (file_path : string) : string
  by wf (String.length file_path) lt :=
find_root_package_dir w file_path with decide (file_path = os_path_dirname file_path) => {
  | left _ => os_path_dirname file_path
  | right Hne with truthy (is_package_dir w (os_path_dirname file_path)) => {
    | true => find_root_package_dir w (os_path_dirname file_path)
    | false => os_path_dirname file_path } }.
Proof.
  (* [dirname] returns a prefix of its argument, so it shortens a path
     unless it returns the path itself *)
  assert (∀ (P : ascii → bool) (l : list ascii), dropwhile P l `suffix_of` l) as Hsuffix.
  { intros P l. induction l as [|x l IH]; simpl; [done|].
    destruct (P x); [by apply suffix_cons_r | done]. }
  assert (∀ (P : ascii → bool) (l : list ascii),
            rev (dropwhile P (rev l)) `prefix_of` l) as Hprefix.
  { intros P l. destruct (Hsuffix P (rev l)) as [k Hk].
    exists (rev k). rewrite <- (rev_involutive l), Hk at 1.
    by rewrite rev_app_distr. }
  assert (∀ s : string, length (chars s) = String.length s) as Hlength.
  { intros s. induction s as [|c s IH]; simpl; [done | by rewrite IH]. }
  assert (chars (os_path_dirname file_path) `prefix_of` chars file_path) as Hdirname.
  { unfold os_path_dirname.
    set (head := rev (dropwhile _ (rev (chars file_path)))).
    assert (head `prefix_of` chars file_path) by apply Hprefix.
    destruct (_ && _); unfold chars, str;
      rewrite list_ascii_of_string_of_list_ascii; [|done].
    etrans; [apply Hprefix | done]. }
  rewrite <- !Hlength.
  destruct (decide (length (chars file_path) ≤
                    length (chars (os_path_dirname file_path)))%nat) as [Hle|]; [|lia].
  exfalso. apply Hne.
  rewrite <- (string_of_list_ascii_of_string file_path) at 1.
  rewrite <- (string_of_list_ascii_of_string (os_path_dirname file_path)).
  f_equal. symmetry. by apply prefix_length_eq.
Qed.

(** ** [find_versioned_file] (lines 288-318) *)

Fixpoint takewhile {A : Type} (P : A → bool) (l : list A) : list A :=
  match l with
  | [] => []
  | x :: l' => if P x then x :: takewhile P l' else []
  end.

Definition is_digit (c : ascii) : bool :=
  let n := nat_of_ascii c in ((48 <=? n) && (n <=? 57))%nat.

(** The class [[^./\\]]. *)
Definition is_ext_char (c : ascii) : bool :=
  negb (bool_decide (c = "."%char ∨ c = "/"%char ∨ c = "\"%char)).

(** [_parse_file_version(path)], that is [findall] for
    [.*[.]cython-([0-9]+)[.][^./\\]+$]: the list of the matches of the
    group. The pattern is anchored at the end of [path], so it is read from
    there: the extension, the dot, the digits, then [.cython-]. *)
Definition _parse_file_version (path : string) : list string :=
  let r := rev (chars path) in
  match takewhile is_ext_char r, dropwhile is_ext_char r with
  | _ :: _, "."%char :: r1 =>
      match takewhile is_digit r1 with
      | [] => []
      | digits =>
          if bool_decide (rev (chars ".cython-") `prefix_of` dropwhile is_digit r1)
          then [str (rev digits)]
          else []
      end
  | _, _ => []
  end.

(** [int(s)] for a string of decimal digits. *)
Definition int (s : string) : Z :=
  fold_left (λ acc c, 10 * acc + (Z.of_nat (nat_of_ascii c) - 48))%Z (chars s) 0%Z.

(** The loop over [matching_files], on the pair [best_match]. *)
Fixpoint find_versioned_file_loop (_current_version : Z)
    (matching_files : list string) (best_match : Z * option string)
    : Z * option string :=
  match matching_files with
  | [] => best_match
  | path :: rest =>
      match _parse_file_version path with
      | v :: _ =>
          let int_version := int v in
          if (best_match.1 <? int_version)%Z && (int_version <=? _current_version)%Z
          then find_versioned_file_loop _current_version rest (int_version, Some path)
          else find_versioned_file_loop _current_version rest best_match
      | [] => find_versioned_file_loop _current_version rest best_match
      end
  end.

(** [find_versioned_file(directory, filename, suffix, _current_version)].
    The [assert] on [suffix] comes first. *)
Definition find_versioned_file (w : file_world) (directory filename suffix : string)
    (_current_version : Z) : outcome (option string) :=
  if bool_decide (suffix = "") || startswith suffix "." then
    let path_prefix := os_path_join directory filename in
    let matching_files := glob_glob w (path_prefix +:+ ".cython-*" +:+ suffix) in
    let path := path_prefix +:+ suffix in
    let path := if os_path_exists w path then Some path else None in
    let best_match := ((-1)%Z, path) in
    Return (find_versioned_file_loop _current_version matching_files best_match).2
  else Raise AssertionError.

(** ** [_TryFinallyGeneratorContextManager] (lines 46-61) *)

Section context_manager.
Context {G S Y : Type}.

(** [next(gen)] on a generator in state [G], in a program state [S]: it
    returns the value yielded, or raises ([StopIteration] when the
    generator returns). *)
Variable next : G → S → outcome Y * G * S.

(** [return next(self._gen)] *)
Definition __enter__ (gen : G) (s : S) : outcome Y * G * S := next gen s.

(** [try: next(self._gen) except (StopIteration, GeneratorExit): pass].
    The exception of the protected region, [exc], is not looked at; the
    method returns [None], so that exception is not suppressed. *)
Definition __exit__ (gen : G) (exc : option exn) (s : S) : outcome unit * G * S :=
  match next gen s with
  | (Return _, gen', s') => (Return (), gen', s')
  | (Raise e, gen', s') =>
      if bool_decide (e = StopIteration ∨ e = GeneratorExit)
      then (Return (), gen', s')
      else (Raise e, gen', s')
  end.

(** [with cm as y: body]. The body is given as a function of the state
    that also says how it ends: [None] for normal completion, [Some e] when
    it raises [e]. *)
Definition with_statement {A : Type} (gen : G)
    (body : G → S → A * option exn * G * S) (s : S)
    : outcome A * G * S :=
  match __enter__ gen s with
  | (Raise e, gen1, s1) => (Raise e, gen1, s1)
  | (Return _, gen1, s1) =>
      let '(a, exc, gen2, s2) := body gen1 s1 in
      match __exit__ gen2 exc s2 with
      | (Raise e, gen3, s3) => (Raise e, gen3, s3)
      | (Return _, gen3, s3) =>
          match exc with
          | Some e => (Raise e, gen3, s3)
          | None => (Return a, gen3, s3)
          end
      end
  end.

End context_manager.

(** ** File descriptors: what [os.dup], [os.dup2], [os.close] and
    [tempfile.TemporaryFile] act on *)

Abbreviation bytes := (list byte).

(** An open file description: the file, the offset, and whether writes
    append ([O_APPEND]). Descriptors that are duplicates share one. *)
Record open_file : Type := OpenFile {
  of_file : nat;
  of_pos : nat;
  of_append : bool
}.

(** The process as the system sees it. [faults] says, for the next calls
    that can fail for reasons of the system's own (no descriptor left, no
    space, an interrupted call), whether they do. *)
Record os_state : Type := OsState {
  fds : gmap nat nat;
  open_files : gmap nat open_file;
  files : gmap nat bytes;
  faults : list bool
}.

Definition set_fds (f : gmap nat nat → gmap nat nat) (s : os_state) : os_state :=
  OsState (f (fds s)) (open_files s) (files s) (faults s).

Definition take_fault (s : os_state) : bool * os_state :=
  (default false (head (faults s)),
   OsState (fds s) (open_files s) (files s) (tail (faults s))).

(** The lowest descriptor that is not open. *)
Definition lowest_free (t : gmap nat nat) : nat :=
  default (size t) (snd <$> list_find (λ n, t !! n = None) (seq 0 (size t))).

Definition os_dup (fd : nat) (s : os_state) : outcome nat * os_state :=
  let '(fail, s) := take_fault s in
  match fds s !! fd with
  | Some d =>
      if fail then (Raise (OSError "dup"), s)
      else let fd2 := lowest_free (fds s) in (Return fd2, set_fds <[fd2 := d]> s)
  | None => (Raise (OSError "dup"), s)
  end.

Definition os_dup2 (fd fd2 : nat) (s : os_state) : outcome nat * os_state :=
  let '(fail, s) := take_fault s in
  match fds s !! fd with
  | Some d =>
      if fail then (Raise (OSError "dup2"), s)
      else (Return fd2, set_fds <[fd2 := d]> s)
  | None => (Raise (OSError "dup2"), s)
  end.

(** [os.close(fd)] releases the descriptor; it fails on a descriptor that
    is not open. *)
Definition os_close (fd : nat) (s : os_state) : outcome unit * os_state :=
  match fds s !! fd with
  | Some _ => (Return (), set_fds (delete fd) s)
  | None => (Raise (OSError "close"), s)
  end.

(** Where a write through the description [o] starts: at the end of the
    file when the description appends, at its offset otherwise. *)
Definition write_pos (o : open_file) (content : bytes) : nat :=
  if of_append o then length content else of_pos o.

(** The file after the write (a gap is filled with zero bytes). *)
Definition write_at (o : open_file) (content data : bytes) : bytes :=
  let pos := write_pos o content in
  take pos content ++ replicate (pos - length content) x00
  ++ data ++ drop (pos + length data) content.

(** [os.write(fd, data)] *)
Definition os_write (fd : nat) (data : bytes) (s : os_state) : outcome nat * os_state :=
  match fds s !! fd with
  | Some d =>
      match open_files s !! d with
      | Some o =>
          let content := default [] (files s !! of_file o) in
          (Return (length data),
           OsState (fds s)
             (<[d := OpenFile (of_file o) (write_pos o content + length data) (of_append o)]>
                (open_files s))
             (<[of_file o := write_at o content data]> (files s))
             (faults s))
      | None => (Raise (OSError "write"), s)
      end
  | None => (Raise (OSError "write"), s)
  end.

(** [f.seek(pos)] on the file object with descriptor [fd]. *)
Definition file_seek (fd pos : nat) (s : os_state) : outcome unit * os_state :=
  match fds s !! fd with
  | Some d =>
      match open_files s !! d with
      | Some o =>
          (Return (),
           OsState (fds s)
             (<[d := OpenFile (of_file o) pos (of_append o)]> (open_files s))
             (files s) (faults s))
      | None => (Raise (OSError "seek"), s)
      end
  | None => (Raise (OSError "seek"), s)
  end.

(** [f.read()]: everything from the offset to the end of the file. *)
Definition file_read (fd : nat) (s : os_state) : outcome bytes * os_state :=
  match fds s !! fd with
  | Some d =>
      match open_files s !! d with
      | Some o =>
          let content := default [] (files s !! of_file o) in
          (Return (drop (of_pos o) content),
           OsState (fds s)
             (<[d := OpenFile (of_file o) (max (of_pos o) (length content)) (of_append o)]>
                (open_files s))
             (files s) (faults s))
      | None => (Raise (OSError "read"), s)
      end
  | None => (Raise (OSError "read"), s)
  end.

(** [tempfile.TemporaryFile(mode="a+b")]: a new, empty, anonymous file,
    opened for appending on the lowest free descriptor. *)
Definition TemporaryFile (s : os_state) : outcome nat * os_state :=
  let '(fail, s) := take_fault s in
  if fail then (Raise (OSError "TemporaryFile"), s)
  else
    let file := fresh (dom (files s)) in
    let d := fresh (dom (open_files s)) in
    let fd := lowest_free (fds s) in
    (Return fd,
     OsState (<[fd := d]> (fds s))
       (<[d := OpenFile file 0 true]> (open_files s))
       (<[file := []]> (files s))
       (faults s)).

(** ** [captured_fd] (lines 480-501) *)

(** What [get_output] returns: the bytes, or the text decoded from them
    (a list of code points). *)
Inductive captured : Type :=
| Bytes (b : bytes)
| Text (t : list N).

Section captured_fd.
Context {encoding_name : Type}.

(** [b.decode(encoding)] *)
Variable bytes_decode : encoding_name → bytes → outcome (list N).

(** The variables of the generator's frame that the closures [read_output]
    and [get_output] keep alive: they outlive the generator. [temp_fileno]
    and [temp_closed] are the file object [temp_file]; [_output] is the one
    element of the list [_output]. *)
Record capture_cells : Type := Cells {
  stream : nat;
  encoding : option encoding_name;
  orig_stream : nat;
  temp_fileno : nat;
  temp_closed : bool;
  _output : bytes
}.

(** The generator object made by [captured_fd(stream, encoding)]: not
    started, suspended at the [yield], or finished. *)
Inductive generator : Type :=
| GenCreated (stream : nat) (encoding : option encoding_name)
| GenSuspended (c : capture_cells)
| GenFinished (c : option capture_cells).

Definition read_output (c : capture_cells) (s : os_state)
    : outcome bytes * capture_cells * os_state :=
  if temp_closed c then (Return (_output c), c, s)
  else
    match file_seek (temp_fileno c) 0 s with
    | (Raise e, s1) => (Raise e, c, s1)
    | (Return _, s1) =>
        match file_read (temp_fileno c) s1 with
        | (Raise e, s2) => (Raise e, c, s2)
        | (Return data, s2) =>
            (Return data,
             Cells (stream c) (encoding c) (orig_stream c) (temp_fileno c)
                   (temp_closed c) data,
             s2)
        end
    end.

(** [result.decode(encoding) if encoding else result] *)
Definition get_output_cells (c : capture_cells) (s : os_state)
    : outcome captured * capture_cells * os_state :=
  let '(r, c', s') := read_output c s in
  match r with
  | Raise e => (Raise e, c', s')
  | Return result =>
      match encoding c with
      | Some enc =>
          match bytes_decode enc result with
          | Return t => (Return (Text t), c', s')
          | Raise e => (Raise e, c', s')
          end
      | None => (Return (Bytes result), c', s')
      end
  end.

(** [temp_file.close()] *)
Definition temp_file_close (c : capture_cells) (s : os_state)
    : outcome unit * capture_cells * os_state :=
  if temp_closed c then (Return (), c, s)
  else
    let '(r, s') := os_close (temp_fileno c) s in
    (r, Cells (stream c) (encoding c) (orig_stream c) (temp_fileno c) true (_output c), s').

(** Leaving [with tempfile.TemporaryFile(...) as temp_file:] with the
    result [r] of its body: the file is closed; an exception raised by that
    replaces [r]. *)
Definition leave_with (r : outcome unit) (c : capture_cells) (s : os_state)
    : outcome unit * capture_cells * os_state :=
  match temp_file_close c s with
  | (Raise e, c', s') => (Raise e, c', s')
  | (Return _, c', s') => (r, c', s')
  end.

(** [finally: os.close(orig_stream)] after a [try] block that ended with
    [r]. *)
Definition finally_close (orig_stream : nat) (r : outcome unit) (s : os_state)
    : outcome unit * os_state :=
  match os_close orig_stream s with
  | (Raise e, s') => (Raise e, s')
  | (Return _, s') => (r, s')
  end.

(** [next(gen)] for the generator of [captured_fd]. The value yielded is
    the closure [get_output], which is [get_output] below applied to the
    generator; [Return ()] stands for it. *)
Definition captured_fd_next (g : generator) (s : os_state)
    : outcome unit * generator * os_state :=
  match g with
  | GenCreated stream encoding =>
      match os_dup stream s with
      | (Raise e, s1) => (Raise e, GenFinished None, s1)
      | (Return orig_stream, s1) =>
          match TemporaryFile s1 with
          | (Raise e, s2) =>
              let '(r, s3) := finally_close orig_stream (Raise e) s2 in
              (r, GenFinished None, s3)
          | (Return fileno, s2) =>
              let c := Cells stream encoding orig_stream fileno false [] in
              match os_dup2 fileno stream s2 with
              | (Raise e, s3) =>
                  let '(r, c', s4) := leave_with (Raise e) c s3 in
                  let '(r, s5) := finally_close orig_stream r s4 in
                  (r, GenFinished None, s5)
              | (Return _, s3) => (Return (), GenSuspended c, s3)
              end
          end
      end
  | GenSuspended c =>
      let '(r, c1, s1) :=
        match os_dup2 (orig_stream c) (stream c) s with
        | (Raise e, s1) => (Raise e, c, s1)
        | (Return _, s1) =>
            match read_output c s1 with
            | (Raise e, c1, s2) => (Raise e, c1, s2)
            | (Return _, c1, s2) => (Return (), c1, s2)
            end
        end in
      let '(r, c2, s2) := leave_with r c1 s1 in
      let '(r, s3) := finally_close (orig_stream c) r s2 in
      (match r with Return _ => Raise StopIteration | Raise e => Raise e end,
       GenFinished (Some c2), s3)
  | GenFinished c => (Raise StopIteration, GenFinished c, s)
  end.

(** [get_output()], the closure handed out by the [yield]. It exists once
    the generator has reached the [yield]; the last case stands for a call
    that no program can make. *)
Definition get_output (g : generator) (s : os_state)
    : outcome captured * generator * os_state :=
  match g with
  | GenSuspended c =>
      let '(r, c', s') := get_output_cells c s in (r, GenSuspended c', s')
  | GenFinished (Some c) =>
      let '(r, c', s') := get_output_cells c s in (r, GenFinished (Some c'), s')
  | _ => (Raise (Exception 0), g, s)
  end.

(** The code of a protected region, as far as it matters here: writes to
    descriptors, calls of [get_output], and anything else it does to the
    process. *)
Inductive action : Type :=
| Write (fd : nat) (data : bytes)
| Retrieve
| Sys (f : os_state → os_state).

(** Running a protected region: the results of its [get_output] calls, and
    how it ends. An action that raises ends it; otherwise it ends as [ends]
    says. *)
Fixpoint run_body (body : list action) (ends : option exn) (log : list captured)
    (g : generator) (s : os_state)
    : list captured * option exn * generator * os_state :=
  match body with
  | [] => (log, ends, g, s)
  | Write fd data :: rest =>
      match os_write fd data s with
      | (Return _, s') => run_body rest ends log g s'
      | (Raise e, s') => (log, Some e, g, s')
      end
  | Retrieve :: rest =>
      match get_output g s with
      | (Return out, g', s') => run_body rest ends (log ++ [out]) g' s'
      | (Raise e, g', s') => (log, Some e, g', s')
      end
  | Sys f :: rest => run_body rest ends log g (f s)
  end.

(** [captured_fd(stream, encoding)]: calling the decorated generator
    function makes the generator (and wraps it in the context manager); no
    line of its body runs yet. *)
Definition captured_fd (stream : nat) (encoding : option encoding_name) : generator :=
  GenCreated stream encoding.

(** [with captured_fd(stream, encoding) as get_output: body] *)
Definition with_captured_fd (stream : nat) (encoding : option encoding_name)
    (body : list action) (ends : option exn) (s : os_state)
    : outcome (list captured) * generator * os_state :=
  with_statement captured_fd_next (captured_fd stream encoding)
    (run_body body ends []) s.

End captured_fd.

(** ** [get_encoding_candidates] and [prepare_captured] (lines 504-524) *)

Section prepare_captured.
Context {encoding_name : Type} `{EqDecision encoding_name}.

Variable bytes_decode : encoding_name → bytes → outcome (list N).

(** [sys.getdefaultencoding()] and the [encoding] attribute of
    [sys.stdout], [sys.stdin], [sys.__stdout__] and [sys.__stdin__]
    ([None] when the stream has none). *)
Record sys_module : Type := SysModule {
  getdefaultencoding : encoding_name;
  stdout_encoding : option encoding_name;
  stdin_encoding : option encoding_name;
  __stdout__encoding : option encoding_name;
  __stdin__encoding : option encoding_name
}.

Definition get_encoding_candidates (sys : sys_module) : list encoding_name :=
  foldl
    (λ candidates stream_encoding,
       match stream_encoding with
       | Some encoding =>
           if bool_decide (encoding ∈ candidates) then candidates
           else candidates ++ [encoding]
       | None => candidates
       end)
    [getdefaultencoding sys]
    [stdout_encoding sys; stdin_encoding sys;
     __stdout__encoding sys; __stdin__encoding sys].

(** The bytes that [bytes.strip()] removes. *)
Definition is_space (b : byte) : bool :=
  bool_decide (Byte.to_N b ∈ [9; 10; 11; 12; 13; 32]%N).

Definition bytes_strip (b : bytes) : bytes :=
  rev (dropwhile is_space (rev (dropwhile is_space b))).

(** [b.decode('latin-1')]: one character for each byte. *)
Definition latin_1_decode (b : bytes) : list N := Byte.to_N <$> b.

(** The loop over the candidates: [UnicodeDecodeError] is caught, nothing
    else is. *)
Fixpoint prepare_captured_loop (candidates : list encoding_name)
    (captured_bytes : bytes) : outcome (option (list N)) :=
  match candidates with
  | [] => Return (Some (latin_1_decode captured_bytes))
  | encoding :: rest =>
      match bytes_decode encoding captured_bytes with
      | Return t => Return (Some t)
      | Raise e =>
          if bool_decide (e = UnicodeDecodeError)
          then prepare_captured_loop rest captured_bytes
          else Raise e
      end
  end.

Definition prepare_captured (sys : sys_module) (captured : bytes)
    : outcome (option (list N)) :=
  let captured_bytes := bytes_strip captured in
  if bool_decide (captured_bytes = []) then Return None
  else prepare_captured_loop (get_encoding_candidates sys) captured_bytes.

End prepare_captured.

(** ** [cached_function] around functions that call decorated functions
    (lines 78-91) *)

Section cached_function_nested.
Context {Args Res World : Type} `{Countable Args}.

(** The wrapper of lines 84-88 for an underlying function that goes
    through wrappers itself, as [find_root_package_dir] does through its
    own and, by way of [is_package_dir], through those of [contains_init]
    and [path_exists]: [f] runs on the whole state, [_function_caches]
    included. The dict is read before [f] is called and written once [f]
    has returned, in the state that [f] has left. *)
Definition nested_wrapper (cache : nat)
    (f : Args → memo_state Args Res World → outcome Res * memo_state Args Res World)
    (args : Args) (st : memo_state Args Res World)
    : outcome Res * memo_state Args Res World :=
  match default ∅ (_function_caches st !! cache) !! args with
  | Some res => (Return res, st)
  | None =>
      let '(r, st1) :=
        f args (MemoState (_function_caches st) (world st)
                          (invocations st ++ [(cache, args)])) in
      match r with
      | Return res =>
          (Return res,
           MemoState
             (<[cache := <[args := res]> (default ∅ (_function_caches st1 !! cache))]>
                (_function_caches st1))
             (world st1) (invocations st1))
      | Raise e => (Raise e, st1)
      end
  end.

(** An underlying function that calls no decorated function: it reads and
    writes [world] only. *)
Definition on_world (f : Args → World → outcome Res * World)
    (args : Args) (st : memo_state Args Res World)
    : outcome Res * memo_state Args Res World :=
  let '(r, w) := f args (world st) in
  (r, MemoState (_function_caches st) w (invocations st)).

End cached_function_nested.

(** ** [OrderedSet] (lines 550-566) *)

Module OrderedSet.
Section OrderedSet.
Context {A : Type} `{Countable A}.

(** The two attributes of an instance: the list keeps the order, the set
    answers the membership test. *)
Record t : Type := Make {
  _list : list A;
  _set : gset A
}.

(** [if e not in self._set: self._list.append(e); self._set.add(e)] *)
Definition add (e : A) (self : t) : t :=
  if bool_decide (e ∉ _set self)
  then Make (_list self ++ [e]) ({[e]} ∪ _set self)
  else self.

(** [for e in elements: self.add(e)] *)
Definition update (elements : list A) (self : t) : t :=
  foldl (λ self e, add e self) self elements.

(** [self._list = []; self._set = set(); self.update(elements)] *)
Definition __init__ (elements : list A) : t :=
  update elements (Make [] ∅).

(** [iter(self._list)], as the list of what the iterator produces. *)
Definition __iter__ (self : t) : list A := _list self.

End OrderedSet.
Arguments t A {_ _}.
End OrderedSet.

(** ** [cached_method] (lines 116-129) *)

Section cached_method.
Context {Args Res Other : Type} `{Countable Args}.

(** What an attribute can hold, as far as the wrapper tells values apart:
    a dict (by reference, the dicts themselves being in the heap) or an
    object of another kind. Python's [None] is [None : option attribute]. *)
Inductive attribute : Type :=
| PyDict (ref : nat)
| PyOther (v : Other).

(** The receiver of the method and the dicts that exist. *)
Record method_state : Type := MethodState {
  self : py_object (option attribute);
  heap : gmap nat (gmap Args Res)
}.

(** [getattr(obj, name, None)]: the attribute of the instance, else the one
    the class provides, else [None]. *)
Definition getattr (obj : py_object (option attribute)) (name : string)
    : option attribute :=
  match instance_dict obj !! name with
  | Some v => v
  | None => default None (class_dict obj !! name)
  end.

(** [setattr(obj, name, value)] *)
Definition setattr (obj : py_object (option attribute)) (name : string)
    (value : option attribute) : py_object (option attribute) :=
  PyObject (<[name := value]> (instance_dict obj)) (class_dict obj).

(** What [args in cache], [cache[args]] and [cache[args] = res] do when
    [cache] is an object of another kind. *)
Variable other_contains : Other → Args → method_state → outcome bool * method_state.
Variable other_getitem : Other → Args → method_state → outcome Res * method_state.
Variable other_setitem : Other → Args → Res → method_state → outcome unit * method_state.

(** The wrapper that [cached_method(f)] returns, [name] being [f.__name__].
    The last component records the invocations of [f]: the arguments it is
    called with. The local variable [cache] keeps its reference while [f]
    runs, so the result is stored in the dict that was looked up, whatever
    [f] does to the attribute. *)
Definition cached_method (name : string)
    (f : Args → method_state → outcome Res * method_state)
    (args : Args) (st : method_state) (invoked : list Args)
    : outcome Res * method_state * list Args :=
  let cache_name := _build_cache_name name in
  let '(cache, st) :=
    match getattr (self st) cache_name with
    | None =>
        let ref := fresh (dom (heap st)) in
        (PyDict ref,
         MethodState (setattr (self st) cache_name (Some (PyDict ref)))
                     (<[ref := ∅]> (heap st)))
    | Some cache => (cache, st)
    end in
  match cache with
  | PyDict ref =>
      match default ∅ (heap st !! ref) !! args with
      | Some res => (Return res, st, invoked)
      | None =>
          let '(r, st') := f args st in
          match r with
          | Return res =>
              (Return res,
               MethodState (self st')
                 (<[ref := <[args := res]> (default ∅ (heap st' !! ref))]> (heap st')),
               invoked ++ [args])
          | Raise e => (Raise e, st', invoked ++ [args])
          end
      end
  | PyOther v =>
      match other_contains v args st with
      | (Raise e, st') => (Raise e, st', invoked)
      | (Return true, st') =>
          let '(r, st'') := other_getitem v args st' in (r, st'', invoked)
      | (Return false, st') =>
          let '(r, st'') := f args st' in
          match r with
          | Return res =>
              match other_setitem v args res st'' with
              | (Return _, st3) => (Return res, st3, invoked ++ [args])
              | (Raise e, st3) => (Raise e, st3, invoked ++ [args])
              end
          | Raise e => (Raise e, st'', invoked ++ [args])
          end
      end
  end.

End cached_method.

Arguments attribute : clear implicits.
Arguments method_state : clear implicits.
Arguments method_state Args Res Other {_ _}.

(** ** Files by path: what [os.path.exists], [os.unlink], [open],
    [codecs.open] and [os.utime] act on *)

Module Disk.
Section disk.
Context {time : Type}.

(** A file: its bytes and its access and modification times. *)
Record inode : Type := Inode {
  i_content : bytes;
  i_atime : time;
  i_mtime : time
}.

(** What a path names: a regular file (several paths can name one file,
    its hard links) or a directory. *)
Inductive dir_entry : Type :=
| RegularFile (ino : nat)
| Directory.

(** The file system. [now] is the time that the system stamps on what is
    written; [io_faults] says, for the next calls that can fail for reasons
    of the system's own (permissions, no space, an I/O error), whether they
    do. *)
Record t : Type := Make {
  entries : gmap string dir_entry;
  inodes : gmap nat inode;
  now : time;
  io_faults : list bool
}.

Definition take_fault (d : t) : bool * t :=
  (default false (head (io_faults d)),
   Make (entries d) (inodes d) (now d) (tail (io_faults d))).

(** [os.path.exists(path)] *)
Definition path_exists (path : string) (d : t) : bool :=
  bool_decide (is_Some (entries d !! path)).

(** [os.unlink(path)] removes the name; the file stays for its other names. *)
Definition unlink (path : string) (d : t) : outcome unit * t :=
  let '(fail, d) := take_fault d in
  match entries d !! path with
  | Some (RegularFile _) =>
      if fail then (Raise (OSError "unlink"), d)
      else (Return (), Make (delete path (entries d)) (inodes d) (now d) (io_faults d))
  | _ => (Raise (OSError "unlink"), d)
  end.

(** Opening [path] for writing, as [codecs.open(path, "w", ...)] does: the
    file that [path] names is emptied; when [path] names nothing a new file
    is made. The file object is given by the file it writes to. *)
Definition open_w (path : string) (d : t) : outcome nat * t :=
  let '(fail, d) := take_fault d in
  if fail then (Raise (OSError "open"), d)
  else
    match entries d !! path with
    | Some (RegularFile ino) =>
        (Return ino,
         Make (entries d)
              (alter (λ i, Inode [] (i_atime i) (now d)) ino (inodes d))
              (now d) (io_faults d))
    | Some Directory => (Raise (OSError "open"), d)
    | None =>
        let ino := fresh (dom (inodes d)) in
        (Return ino,
         Make (<[path := RegularFile ino]> (entries d))
              (<[ino := Inode [] (now d) (now d)]> (inodes d))
              (now d) (io_faults d))
    end.

(** [f.write(data)] on a file object opened for writing: the bytes go to
    the end of the file. *)
Definition write (f : nat) (data : bytes) (d : t) : outcome unit * t :=
  let '(fail, d) := take_fault d in
  if fail then (Raise (OSError "write"), d)
  else
    (Return (),
     Make (entries d)
          (alter (λ i, Inode (i_content i ++ data) (i_atime i) (now d)) f (inodes d))
          (now d) (io_faults d)).

(** [f.close()] *)
Definition close (f : nat) (d : t) : outcome unit * t :=
  let '(fail, d) := take_fault d in
  if fail then (Raise (OSError "close"), d) else (Return (), d).

(** [open(path, "rb")] *)
Definition open_rb (path : string) (d : t) : outcome nat * t :=
  let '(fail, d) := take_fault d in
  match entries d !! path with
  | Some (RegularFile ino) =>
      if fail then (Raise (OSError "open"), d) else (Return ino, d)
  | _ => (Raise (OSError "open"), d)
  end.

(** [f.read(n)] on a file object just opened for reading. *)
Definition read (f : nat) (n : nat) (d : t) : outcome bytes * t :=
  let '(fail, d) := take_fault d in
  if fail then (Raise (OSError "read"), d)
  else (Return (take n (default [] (i_content <$> inodes d !! f))), d).

(** [os.utime(path, (atime, mtime))]; the times of directories are not
    kept. *)
Definition utime (path : string) (atime mtime : time) (d : t) : outcome unit * t :=
  let '(fail, d) := take_fault d in
  match entries d !! path with
  | Some (RegularFile ino) =>
      if fail then (Raise (OSError "utime"), d)
      else
        (Return (),
         Make (entries d)
              (alter (λ i, Inode (i_content i) atime mtime) ino (inodes d))
              (now d) (io_faults d))
  | Some Directory =>
      if fail then (Raise (OSError "utime"), d) else (Return (), d)
  | None => (Raise (OSError "utime"), d)
  end.

End disk.
Arguments inode : clear implicits.
Arguments t : clear implicits.
End Disk.

(** ** [open_new_file], [castrate_file] and [is_cython_generated_file]
    (lines 137-193) *)

(** [text.encode("ISO-8859-1")] for a text of characters up to 255, and a
    bytes literal of such characters. *)
Definition latin_1_encode (text : string) : bytes := list_byte_of_string text.

(** Bytes can be compared. *)
Definition byte_eq_decision : EqDecision byte := Byte.byte_eq_dec.

Section generated_files.
Context {time : Type}.
#[local] Existing Instance byte_eq_decision.

(** [st.st_mtime - 1] *)
Variable minus_one : time → time.

(** [if os.path.exists(path): os.unlink(path)], then
    [codecs.open(path, "w", encoding="ISO-8859-1")]. *)
Definition open_new_file (path : string) (d : Disk.t time) : outcome nat * Disk.t time :=
  match (if Disk.path_exists path d then Disk.unlink path d else (Return (), d)) with
  | (Raise e, d1) => (Raise e, d1)
  | (Return _, d1) => Disk.open_w path d1
  end.

Definition failure_marker : bytes :=
  latin_1_encode
    "#error Do not use this file, it is the result of a failed Cython compilation.".

(** [is_cython_generated_file(path, allow_failed, if_not_found)]. Leaving
    the [with] block closes the file; an [OSError] raised in the [try]
    block, by [open], [read] or that [close], is caught, and what has been
    assigned to [file_content] stays. *)
Definition is_cython_generated_file (path : string) (allow_failed if_not_found : bool)
    (d : Disk.t time) : outcome bool * Disk.t time :=
  let '(r, d) :=
    if Disk.path_exists path d then
      match Disk.open_rb path d with
      | (Raise e, d1) => (Raise e, d1)
      | (Return f, d1) =>
          match Disk.read f (length failure_marker) d1 with
          | (Raise e, d2) =>
              match Disk.close f d2 with
              | (Raise e', d3) => (Raise e', d3)
              | (Return _, d3) => (Raise e, d3)
              end
          | (Return data, d2) =>
              match Disk.close f d2 with
              | (Raise e', d3) =>
                  match e' with
                  | OSError _ => (Return (Some data), d3)
                  | _ => (Raise e', d3)
                  end
              | (Return _, d3) => (Return (Some data), d3)
              end
          end
      end
    else (Return None, d) in
  match r with
  | Raise (OSError _) => (Return if_not_found, d)
  | Raise e => (Raise e, d)
  | Return None => (Return if_not_found, d)
  | Return (Some file_content) =>
      (Return
         (bool_decide (latin_1_encode "/* Generated by Cython " `prefix_of` file_content)
          || (allow_failed && bool_decide (file_content = failure_marker))
          || bool_decide (file_content = [])),
       d)
  end.

(** [castrate_file(path, st)]; [st] is a stat result, of which the access
    and the modification time are used, or [None]. *)
Definition castrate_file (path : string) (st : option (time * time))
    (d : Disk.t time) : outcome unit * Disk.t time :=
  match is_cython_generated_file path true false d with
  | (Raise e, d1) => (Raise e, d1)
  | (Return false, d1) => (Return (), d1)
  | (Return true, d1) =>
      match open_new_file path d1 with
      | (Raise (OSError _), d2) => (Return (), d2)
      | (Raise e, d2) => (Raise e, d2)
      | (Return f, d2) =>
          match Disk.write f
                  (latin_1_encode
                     ("#error Do not use this file, it is the result of a failed Cython compilation."
                      +:+ str [newline])) d2 with
          | (Raise e, d3) => (Raise e, d3)
          | (Return _, d3) =>
              match Disk.close f d3 with
              | (Raise e, d4) => (Raise e, d4)
              | (Return _, d4) =>
                  match st with
                  | Some (st_atime, st_mtime) =>
                      Disk.utime path st_atime (minus_one st_mtime) d4
                  | None => (Return (), d4)
                  end
              end
          end
      end
  end.

End generated_files.

(** ** [file_newer_than], [safe_makedirs] and [copy_file_to_dir_if_newer]
    (lines 43, 196-225) *)

(** [posixpath.basename(p)]: [p[p.rfind('/') + 1:]] *)
Definition os_path_basename (p : string) : string :=
  str (rev (takewhile (λ c, negb (is_slash c)) (rev (chars p)))).

Section copy_file_to_dir_if_newer.
Context {FS time : Type}.

(** What the functions call, on a file system [FS]: [os.path.getmtime],
    which is the module's [modification_time], the comparison [>] of two
    times, [os.makedirs], [os.path.isdir] and [shutil.copy2]. *)
Variable modification_time : string → FS → outcome time.
Variable time_gt : time → time → bool.
Variable os_makedirs : string → FS → outcome unit * FS.
Variable os_path_isdir : string → FS → bool.
Variable shutil_copy2 : string → string → FS → outcome unit * FS.

(** [ftime = modification_time(path); return ftime > time] *)
Definition file_newer_than (path : string) (time_ : time) (fs : FS) : outcome bool :=
  match modification_time path fs with
  | Return ftime => Return (time_gt ftime time_)
  | Raise e => Raise e
  end.

(** [os.makedirs(path)]; an [OSError] is raised again unless [path] is a
    directory. *)
Definition safe_makedirs (path : string) (fs : FS) : outcome unit * FS :=
  match os_makedirs path fs with
  | (Raise (OSError call), fs') =>
      if os_path_isdir path fs' then (Return (), fs') else (Raise (OSError call), fs')
  | r => r
  end.

(** [copy_file_to_dir_if_newer(sourcefile, destdir)]: the [try] statement
    with its [except OSError] and [else] branches, then the copy. *)
Definition copy_file_to_dir_if_newer (sourcefile destdir : string) (fs : FS)
    : outcome unit * FS :=
  let destfile := os_path_join destdir (os_path_basename sourcefile) in
  match modification_time destfile fs with
  | Raise (OSError _) =>
      match safe_makedirs destdir fs with
      | (Raise e, fs1) => (Raise e, fs1)
      | (Return _, fs1) => shutil_copy2 sourcefile destfile fs1
      end
  | Raise e => (Raise e, fs)
  | Return desttime =>
      match file_newer_than sourcefile desttime fs with
      | Raise e => (Raise e, fs)
      | Return false => (Return (), fs)
      | Return true => shutil_copy2 sourcefile destfile fs
      end
  end.

End copy_file_to_dir_if_newer.

(** ** [build_hex_version] (lines 593-614) *)

(** The class [[.abrc]]. *)
Definition is_version_separator (c : ascii) : bool :=
  bool_decide (c ∈ chars ".abrc").

(** [re.split('([.abrc]+)', s)]: the pieces of [s] between the longest runs
    of characters of the class, with the runs themselves, in order; the
    first and the last piece are texts, empty ones when [s] starts or ends
    with a run. [piece] is what has been read of the current piece, a run
    when [in_run] is set. *)
Fixpoint re_split_loop (in_run : bool) (piece : list ascii) (s : list ascii)
    : list string :=
  match s with
  | [] => if in_run then [str piece; ""] else [str piece]
  | c :: s' =>
      if bool_decide (is_version_separator c = in_run)
      then re_split_loop in_run (piece ++ [c]) s'
      else str piece :: re_split_loop (is_version_separator c) [c] s'
  end.

Definition re_split (s : string) : list string := re_split_loop false [] (chars s).

(** What the functions below raise besides the exceptions of [exn]:
    [ValueError], with its argument, and [IndexError]. *)
Inductive exception : Type :=
| ValueError (argument : string)
| IndexError.

(** Hexadecimal digits, upper case; [fuel] bounds their number. *)
Definition hex_digit (n : Z) : ascii :=
  nth (Z.to_nat n) (chars "0123456789ABCDEF") "0"%char.

Fixpoint hex_digits (fuel : nat) (n : Z) (acc : list ascii) : list ascii :=
  match fuel with
  | 0 => acc
  | S fuel' =>
      if (n <? 16)%Z then hex_digit n :: acc
      else hex_digits fuel' (n / 16)%Z (hex_digit (n mod 16)%Z :: acc)
  end.

(** ['%08X' % n]: the digits of the absolute value, after the sign of a
    negative number, filled up with zeros to eight characters. *)
Definition format_08X (n : Z) : string :=
  let body := hex_digits (S (Z.to_nat (Z.log2 (Z.abs n)))) (Z.abs n) [] in
  let sign := if (n <? 0)%Z then ["-"%char] else [] in
  str (sign ++ replicate (8 - length sign - length body) "0"%char ++ body).

Section build_hex_version.

(** [int(digit)]; [None] when it raises [ValueError]. *)
Variable py_int : string → option Z.

(** The first loop, on the pair of [digits] and [release_status]. *)
Fixpoint build_hex_version_loop (pieces : list string) (digits : list Z)
    (release_status : Z) : exception + list Z * Z :=
  match pieces with
  | [] => inr (digits, release_status)
  | digit :: rest =>
      if bool_decide (digit ∈ ["a"; "b"; "rc"]) then
        let release_status :=
          if bool_decide (digit = "a") then 160%Z
          else if bool_decide (digit = "b") then 176%Z
          else 192%Z in
        build_hex_version_loop rest (take 3 (digits ++ [0; 0]%Z)) release_status
      else if bool_decide (digit ≠ ".") then
        match py_int digit with
        | Some n => build_hex_version_loop rest (digits ++ [n]) release_status
        | None => inl (ValueError digit)
        end
      else build_hex_version_loop rest digits release_status
  end.

(** [hexversion], before it is formatted. *)
Definition hexversion (version_string : string) : exception + Z :=
  match build_hex_version_loop (re_split version_string) [] 240%Z with
  | inl e => inl e
  | inr (digits, release_status) =>
      let digits := take 4 (digits ++ replicate 3 0%Z) in
      match digits !! 3 with
      | None => inl IndexError
      | Some d =>
          let digits := <[3 := (d + release_status)%Z]> digits in
          inr (foldl (λ hexversion digit, Z.shiftl hexversion 8 + digit)%Z 0%Z digits)
      end
  end.

Definition build_hex_version (version_string : string) : exception + string :=
  match hexversion version_string with
  | inl e => inl e
  | inr n => inr ("0x" +:+ format_08X n)
  end.

End build_hex_version.

(** ** [detect_opened_file_encoding] (lines 337-360) *)

(** The classes [\w] and [\s] of a bytes pattern, and the class [[-\w.]]. *)
Definition is_word_byte (b : byte) : bool :=
  let n := Byte.to_N b in
  ((48 <=? n) && (n <=? 57) || (65 <=? n) && (n <=? 90) ||
   (97 <=? n) && (n <=? 122) || (n =? 95))%N.

Definition is_space_byte (b : byte) : bool :=
  bool_decide (Byte.to_N b ∈ [9; 10; 11; 12; 13; 32]%N).

Definition is_name_byte (b : byte) : bool :=
  is_word_byte b || bool_decide (Byte.to_N b ∈ [45; 46]%N).

Definition coding : bytes := latin_1_encode "coding".

Section detect_opened_file_encoding.
#[local] Existing Instance byte_eq_decision.

(** The pattern after its first group, [[:=]\s*([-\w.]+)], matched at the
    head of [s]: the second group. No white space is in the class of the
    group, so [\s*] has to take all the white space there is. *)
Definition match_after_group (s : bytes) : option bytes :=
  match s with
  | c :: s' =>
      if bool_decide (Byte.to_N c ∈ [58; 61]%N) then
        match takewhile is_name_byte (dropwhile is_space_byte s') with
        | [] => None
        | name => Some name
        end
      else None
  | [] => None
  end.

(** The pattern matched at the head of [s], [\w*] having taken the first
    [k] bytes: [coding] and the rest of the pattern have to follow;
    otherwise [\w*] gives back one byte and the match is tried again. The
    result is the pair of the groups. *)
Fixpoint match_group (k : nat) (s : bytes) : option (bytes * bytes) :=
  match
    (if bool_decide (coding `prefix_of` drop k s)
     then match_after_group (drop (k + length coding) s) else None)
  with
  | Some name => Some (take (k + length coding) s, name)
  | None =>
      match k with
      | 0 => None
      | S k' => match_group k' s
      end
  end.

(** [_match_file_encoding(line)], the [search] of the pattern
    [(\w*coding)[:=]\s*([-\w.]+)]: the match at the first position that
    has one, [\w*] taking at first all the word bytes there are. *)
Fixpoint _match_file_encoding (line : bytes) : option (bytes * bytes) :=
  match match_group (length (takewhile is_word_byte line)) line with
  | Some groups => Some groups
  | None =>
      match line with
      | [] => None
      | _ :: line' => _match_file_encoding line'
      end
  end.

(** [start.split(b"\n")]; [piece] is what has been read of the current
    piece. *)
Fixpoint bytes_split_loop (piece : bytes) (s : bytes) : list bytes :=
  match s with
  | [] => [piece]
  | c :: s' =>
      if bool_decide (c = x0a) then piece :: bytes_split_loop [] s'
      else bytes_split_loop (piece ++ [c]) s'
  end.

Definition bytes_split (s : bytes) : list bytes := bytes_split_loop [] s.

End detect_opened_file_encoding.

(** The loop that reads the head of the file, 500 bytes at a time, until
    there are three lines or the file ends. The file object is given by the
    bytes that are left to read; the result is [start] and what is left. *)
Equations? read_start (rest start : bytes) : bytes * bytes
  by wf (length rest) lt :=
read_start rest start with decide (take 500 rest = []) => {
  | left _ => (start ++ take 500 rest, drop 500 rest)
  | right Hdata with (3 <=? length (bytes_split (start ++ take 500 rest)))%nat => {
    | true => (start ++ take 500 rest, drop 500 rest)
    | false => read_start (drop 500 rest) (start ++ take 500 rest) } }.
Proof.
  rewrite length_drop. destruct rest as [|c rest]; [done|]. simpl. lia.
Qed.

Section detect_in_lines.
#[local] Existing Instance byte_eq_decision.

(** What the function does with the lines it has. *)
Definition detect_in_lines (lines : list bytes) (default : string) : string :=
  let second_line :=
    match lines with
    | _ :: line1 :: _ =>
        match _match_file_encoding line1 with
        | Some (_, group2) => string_of_list_byte group2
        | None => default
        end
    | _ => default
    end in
  match _match_file_encoding (List.hd [] lines) with
  | Some (group1, group2) =>
      if bool_decide (group1 ≠ latin_1_encode "c_string_encoding")
      then string_of_list_byte group2
      else second_line
  | None => second_line
  end.

End detect_in_lines.

(** [detect_opened_file_encoding(f, default)]: the encoding, and what is
    left to read of [f]. *)
Definition detect_opened_file_encoding (f : bytes) (default : string) : string * bytes :=
  let '(start, rest) := read_start f [] in
  (detect_in_lines (bytes_split start) default, rest).

(** ** [raise_error_if_module_name_forbidden] (lines 587-590) *)

Definition raise_error_if_module_name_forbidden (full_module_name : string)
    : exception + unit :=
  if bool_decide (full_module_name = "cython") || startswith full_module_name "cython."
  then inl (ValueError "cython is a special module, cannot be used as a module name")
  else inr ().

(** ** [decode_filename] (lines 323-332) *)

(** A file name: [bytes] or [str]. *)
Inductive file_name : Type :=
| BytesName (b : bytes)
| StrName (t : list N).

Section decode_filename.
Context {encoding_name : Type}.
Variable bytes_decode : encoding_name → bytes → outcome (list N).

(** [sys.getfilesystemencoding()], which can be [None], and
    [sys.getdefaultencoding()]. *)
Variable getfilesystemencoding : option encoding_name.
Variable getdefaultencoding : encoding_name.

Definition decode_filename (filename : file_name) : outcome file_name :=
  match filename with
  | BytesName b =>
      let filename_encoding :=
        match getfilesystemencoding with
        | Some encoding => encoding
        | None => getdefaultencoding
        end in
      match bytes_decode filename_encoding b with
      | Return t => Return (StrName t)
      | Raise e =>
          if bool_decide (e = UnicodeDecodeError) then Return (BytesName b) else Raise e
      end
  | StrName t => Return (StrName t)
  end.

End decode_filename.

(** ** [replace_suffix] (lines 132-134) *)

(** [s.rfind(c)] for a character [c]: the index of its last occurrence, or
    [-1]. [i] is the index of the head of [l], [last] what has been found
    before. *)
Fixpoint rfind_from (c : ascii) (l : list ascii) (i last : Z) : Z :=
  match l with
  | [] => last
  | x :: l' => rfind_from c l' (i + 1)%Z (if bool_decide (x = c) then i else last)
  end.

Definition rfind (c : ascii) (s : string) : Z := rfind_from c (chars s) 0%Z (-1)%Z.

(** [posixpath.splitext(p)]: the extension starts at the last dot, when
    that dot comes after the last separator and after a character of the
    file name that is no dot. *)
Definition os_path_splitext (p : string) : string * string :=
  let sepIndex := rfind "/"%char p in
  let dotIndex := rfind "."%char p in
  if (sepIndex <? dotIndex)%Z
     && existsb (λ c, negb (bool_decide (c = "."%char)))
          (take (Z.to_nat (dotIndex - (sepIndex + 1)))
                (drop (Z.to_nat (sepIndex + 1)) (chars p)))
  then (str (take (Z.to_nat dotIndex) (chars p)), str (drop (Z.to_nat dotIndex) (chars p)))
  else (p, "").

(** [base, _ = os.path.splitext(path); return base + newsuf] *)
Definition replace_suffix (path newsuf : string) : string :=
  (os_path_splitext path).1 +:+ newsuf.

(** * Part II: the vocabulary of the properties

    What the statements of Part III are written with: readings of the
    program state, the claims of the specification as predicates (named
    [spec_...]), and the data of the concrete runs. *)

(** ** The function level cache *)

Section cached_function_vocabulary.
Context {Args Res World : Type} `{Countable Args}.

(** The entry for [args] in the dict of the wrapper [cache]. *)
Definition cached_value (cache : nat) (args : Args)
    (st : memo_state Args Res World) : option Res :=
  default ∅ (_function_caches st !! cache) !! args.

(** The dict of the wrapper [cache] holds only values of the function [h]. *)
Definition coherent (h : Args → Res) (cache : nat)
    (st : memo_state Args Res World) : Prop :=
  ∀ args res, cached_value cache args st = Some res → res = h args.

End cached_function_vocabulary.

(** A function that reads and changes the world, and a registry in which
    one function has been decorated. *)
Definition ticking (x : nat) (w : nat) : outcome nat * nat := (Return (x + w), S w).

Definition fresh_memo : memo_state nat nat nat :=
  (cached_function (MemoState [] 0 [])).2.

(** ** The method caches of an object *)

Section method_caches_vocabulary.
Context {V : Type}.

(** The claim in the words of the specification: the call returns, the
    attributes removed are exactly the cache-named ones whose method name
    resolves on the object, and nothing else changes. *)
Definition removable (obj : py_object V) (a : string) : Prop :=
  ∃ m, _CACHE_NAME_PATTERN_match a = Some m ∧ hasattr obj m = true.

Definition spec_clear_instance_caches (obj : py_object V)
    (r : outcome (py_object V)) : Prop :=
  ∃ obj', r = Return obj' ∧
    class_dict obj' = class_dict obj ∧
    ∀ a, (removable obj a → instance_dict obj' !! a = None) ∧
         (¬ removable obj a → instance_dict obj' !! a = instance_dict obj !! a).

End method_caches_vocabulary.

(** The pairs that [_find_cache_attributes] makes of a list of names. *)
Definition cache_pairs (l : list string) : list (string * string) :=
  omap (λ attr_name, (λ g, (attr_name, g)) <$> _CACHE_NAME_PATTERN_match attr_name) l.

(** An object of a class with a method [M]: the instance holds the cache
    of [M] and, under the name that [_build_cache_name] derives from the
    name of that cache, a second attribute. *)
Definition nested_cache_names : py_object nat :=
  PyObject (list_to_map [("__M_cache", 1); ("____M_cache_cache", 2)])
           (list_to_map [("M", 0)]).

(** An object whose class itself holds an attribute with the name of a
    cache. *)
Definition class_level_cache : py_object nat :=
  PyObject ∅ (list_to_map [("__find_cache", 1); ("find", 0)]).

(** An object of a class with two cached methods, whose instance holds
    both caches and an attribute that is not a cache. *)
Definition two_caches : py_object nat :=
  PyObject (list_to_map [("__lookup_cache", 1); ("__find_cache", 2); ("name", 3)])
           (list_to_map [("lookup", 0); ("find", 0)]).

(** ** Package directories *)

(** A pattern of [glob] in which [*] is the only wildcard: [*] stands for
    any run of characters other than the separator, every other character
    for itself. *)
Fixpoint wildcard_match (pat s : list ascii) : bool :=
  match pat with
  | [] => bool_decide (s = [])
  | c :: pat' =>
      if bool_decide (c = "*"%char) then
        (fix star (s : list ascii) : bool :=
           wildcard_match pat' s ||
           match s with
           | [] => false
           | d :: s' => negb (is_slash d) && star s'
           end) s
      else
        match s with
        | [] => false
        | d :: s' => bool_decide (c = d) && wildcard_match pat' s'
        end
  end.

(** A file system for concrete runs, given by the paths that exist, in the
    order in which a directory scan produces them: [glob.glob] returns
    those that match the pattern. There is no loader. *)
Definition snapshot_world (files : list string) : file_world :=
  FileWorld (λ p, bool_decide (p ∈ files))
            (λ pat, List.filter (λ p, wildcard_match (chars pat) (chars p)) files)
            None id.

(** A directory holds a package marker: one of [PACKAGE_FILES] exists in
    it, in the sense of [path_exists]. *)
Definition has_marker (w : file_world) (dir_path : string) : Prop :=
  ∃ filename, filename ∈ PACKAGE_FILES ∧
    path_exists w (os_path_join dir_path filename) = true.

(** The directories obtained by joining the segments one after the other. *)
Fixpoint segment_dirs (dir_path : string) (package_names : list string) : list string :=
  match package_names with
  | [] => []
  | dirname :: rest =>
      os_path_join dir_path dirname :: segment_dirs (os_path_join dir_path dirname) rest
  end.

(** The [n]-th ancestor of a path: [dirname] applied [n] times. *)
Fixpoint ancestor (n : nat) (file_path : string) : string :=
  match n with
  | 0 => file_path
  | S k => os_path_dirname (ancestor k file_path)
  end.

(** The claim in the words of the specification: the directory returned is
    an ancestor that holds a marker, as do all ancestors below it from the
    parent directory on, and the walk stops there. *)
Definition spec_outermost_package (w : file_world) (file_path r : string) : Prop :=
  ∃ k, r = ancestor (S k) file_path ∧
    (∀ j, (j ≤ k)%nat → has_marker w (ancestor (S j) file_path)) ∧
    (¬ has_marker w (ancestor (S (S k)) file_path) ∨
     ancestor (S (S k)) file_path = ancestor (S k) file_path).

(** A file system in which [/a/b] is a package and nothing else is. *)
Definition one_package : file_world := snapshot_world ["/a/b/__init__.py"].

(** ** Versioned files *)

(** The pattern of [_parse_file_version], read as it is written: [path]
    ends in [.cython-], digits, a dot, and an extension that holds no dot
    and no separator. *)
Definition versioned_path (path digits : string) : Prop :=
  ∃ pre ext,
    path = pre +:+ ".cython-" +:+ digits +:+ "." +:+ ext ∧
    digits ≠ "" ∧ forallb is_digit (chars digits) = true ∧
    ext ≠ "" ∧ forallb is_ext_char (chars ext) = true.

(** The version that the loop reads off a path, if any. *)
Definition version_of (path : string) : option Z :=
  match _parse_file_version path with
  | v :: _ => Some (int v)
  | [] => None
  end.

(** [path] carries the version [v]: it matches the pattern and [v] is the
    number its digits spell. *)
Definition path_version (path : string) (v : Z) : Prop :=
  ∃ digits, versioned_path path digits ∧ v = int digits.

(** The claim in the words of the specification, for a directory given by
    the paths that exist: the versioned files are those named
    [base_name.cython-<digits>suffix]; the result is the one with the
    greatest version not above the current version, else the unversioned
    file, else none. *)
Definition spec_versioned (files : list string) (directory base_name suffix : string)
    (p : string) (v : Z) : Prop :=
  p ∈ files ∧
  ∃ digits, digits ≠ "" ∧ forallb is_digit (chars digits) = true ∧
    p = os_path_join directory base_name +:+ ".cython-" +:+ digits +:+ suffix ∧
    v = int digits.

Definition spec_resolve (files : list string) (directory base_name suffix : string)
    (cur : Z) (r : outcome (option string)) : Prop :=
  let unversioned := os_path_join directory base_name +:+ suffix in
  (∃ p v, r = Return (Some p) ∧
     spec_versioned files directory base_name suffix p v ∧ (v ≤ cur)%Z ∧
     ∀ p' v', spec_versioned files directory base_name suffix p' v' →
              (v' ≤ cur)%Z → (v' ≤ v)%Z) ∨
  ((∀ p' v', spec_versioned files directory base_name suffix p' v' → ¬ (v' ≤ cur)%Z) ∧
   r = Return (if bool_decide (unversioned ∈ files) then Some unversioned else None)).

(** ** Captured streams *)

Section captured_fd_vocabulary.
Context {encoding_name : Type}.
Implicit Types (c : capture_cells (encoding_name:=encoding_name)).


(** The state while [fd] is captured: [fd] and the descriptor of the
    temporary file share one appending description of a file that holds
    [content]; the duplicate [orig_stream] keeps the description [d0] that
    [fd] had before, and that description and its file are as they were. *)
Definition capturing (fd d0 : nat) (o0 : open_file) (content0 : bytes)
    c (content : bytes) (s : os_state) : Prop :=
  stream c = fd ∧ encoding c = None ∧ temp_closed c = false ∧
  fd ≠ orig_stream c ∧ fd ≠ temp_fileno c ∧ orig_stream c ≠ temp_fileno c ∧
  faults s = [] ∧
  fds s !! orig_stream c = Some d0 ∧ open_files s !! d0 = Some o0 ∧
  files s !! of_file o0 = Some content0 ∧
  ∃ dt ft pos, dt ≠ d0 ∧ ft ≠ of_file o0 ∧
    fds s !! fd = Some dt ∧ fds s !! temp_fileno c = Some dt ∧
    open_files s !! dt = Some (OpenFile ft pos true) ∧
    files s !! ft = Some content.

End captured_fd_vocabulary.

(** A protected region that only writes to [fd] and calls [get_output]. *)
Definition writes_and_retrieves (fd : nat) (body : list action) : Prop :=
  Forall (λ a, a = Retrieve ∨ ∃ data, a = Write fd data) body.

(** The bytes such a region writes, in order. *)
Fixpoint written (body : list action) : bytes :=
  match body with
  | [] => []
  | Write _ data :: rest => data ++ written rest
  | _ :: rest => written rest
  end.

(** What its calls of [get_output] are expected to return, [content]
    having been written before: each time, the bytes written so far. *)
Fixpoint retrieved (body : list action) (content : bytes) : list captured :=
  match body with
  | [] => []
  | Write _ data :: rest => retrieved rest (content ++ data)
  | Retrieve :: rest => Bytes content :: retrieved rest content
  | Sys _ :: rest => retrieved rest content
  end.

(** Two codecs, for concrete runs: ASCII rejects bytes above 127, Latin-1
    accepts everything. *)
Inductive codec : Type := ASCII | LATIN_1.

#[global] Instance codec_eq_dec : EqDecision codec.
Proof. solve_decision. Defined.

Definition codec_decode (enc : codec) (b : bytes) : outcome (list N) :=
  match enc with
  | ASCII =>
      if forallb (λ x, Byte.to_N x <? 128)%N b then Return (Byte.to_N <$> b)
      else Raise UnicodeDecodeError
  | LATIN_1 => Return (Byte.to_N <$> b)
  end.

(** A process with the three standard streams, each on a file of its own;
    [failing_restore] is the same process in which the fourth fallible
    system call from now on fails. *)
Definition three_streams : os_state :=
  OsState (list_to_map [(0, 0); (1, 1); (2, 2)])
          (list_to_map [(0, OpenFile 0 0 false); (1, OpenFile 1 0 true);
                        (2, OpenFile 2 0 true)])
          (list_to_map [(0, []); (1, []); (2, [x41])])
          [].


(** ** Decoding captured output *)

Section prepare_captured_vocabulary.
Context {encoding_name : Type} `{EqDecision encoding_name}.
Variable bytes_decode : encoding_name → bytes → outcome (list N).

(** The step of the loop of [get_encoding_candidates]. *)
Definition add_candidate (candidates : list encoding_name)
    (stream_encoding : option encoding_name) : list encoding_name :=
  match stream_encoding with
  | Some encoding =>
      if bool_decide (encoding ∈ candidates) then candidates
      else candidates ++ [encoding]
  | None => candidates
  end.

(** What the loop returns: the first decoding that succeeds, in the order
    of the candidates, and the Latin-1 decoding when none does. *)
Definition first_decoding (candidates : list encoding_name) (b : bytes)
    (t : list N) : Prop :=
  (∃ before enc after, candidates = before ++ enc :: after ∧
     bytes_decode enc b = Return t ∧
     ∀ enc', enc' ∈ before → bytes_decode enc' b = Raise UnicodeDecodeError) ∨
  ((∀ enc, enc ∈ candidates → bytes_decode enc b = Raise UnicodeDecodeError) ∧
   t = latin_1_decode b).

(** The claim in the words of the specification: the call returns, and
    for a non-empty input it returns a non-empty string. *)
Definition spec_decode_best_effort (captured : bytes)
    (r : outcome (option (list N))) : Prop :=
  ∃ o, r = Return o ∧ (captured ≠ [] → ∃ t, o = Some t ∧ t ≠ []).

End prepare_captured_vocabulary.

(** A process whose default encoding is ASCII and whose standard output
    is Latin-1. *)
Definition ascii_process : sys_module :=
  SysModule ASCII (Some LATIN_1) None (Some ASCII) None.

(** ** Further data for concrete runs *)


(** The process with the three standard streams, in which the second
    fallible call from now on fails. *)
Definition failing_temporary_file : os_state :=
  OsState (fds three_streams) (open_files three_streams) (files three_streams)
          [false; true].

(** A directory in which two files spell the same version. *)
Definition two_spellings : file_world :=
  snapshot_world ["dir/lib.cython-28.pxd"; "dir/lib.cython-029.pxd";
                  "dir/lib.cython-29.pxd"].

(** ** The function level cache under nested calls *)

Section cached_function_nested_vocabulary.
Context {Args Res World : Type} `{Countable Args}.

(** Every entry that is cached in [st] is cached in [st'], with its value. *)
Definition entries_kept (st st' : memo_state Args Res World) : Prop :=
  ∀ cache args res,
    cached_value cache args st = Some res → cached_value cache args st' = Some res.

End cached_function_nested_vocabulary.

(** Two decorated functions, the first of which calls the second, and a
    registry in which both have been decorated. *)
Definition successor (x : nat) (st : memo_state nat nat nat)
    : outcome nat * memo_state nat nat nat := (Return (S x), st).

Definition twice_successor (x : nat) (st : memo_state nat nat nat)
    : outcome nat * memo_state nat nat nat :=
  match nested_wrapper 1 successor x st with
  | (Return y, st') => (Return (2 * y), st')
  | (Raise e, st') => (Raise e, st')
  end.

Definition two_functions : memo_state nat nat nat :=
  (cached_function (cached_function (MemoState [] 0 [])).2).2.

(** ** Ordered sets *)

Section OrderedSet_vocabulary.
Context {A : Type} `{Countable A}.

(** The two attributes of an [OrderedSet] agree: the list has no repeats
    and holds the elements of the set. *)
Definition consistent (s : OrderedSet.t A) : Prop :=
  NoDup (OrderedSet._list s) ∧
  ∀ x, x ∈ OrderedSet._set s ↔ x ∈ OrderedSet._list s.

(** A list without the repeats of its elements: each element stays where
    it occurs first. *)
Fixpoint first_occurrences (l : list A) : list A :=
  match l with
  | [] => []
  | x :: l' => x :: filter (λ y, y ≠ x) (first_occurrences l')
  end.

End OrderedSet_vocabulary.

(** ** Cached methods *)

(** An object with a method [lookup] that has not been called yet, and a
    method that counts in an attribute of no interest here. *)
Definition fresh_object : method_state nat nat unit :=
  MethodState (PyObject ∅ (list_to_map [("lookup", Some (PyOther ()))])) ∅.

Definition squaring (x : nat) (st : method_state nat nat unit)
    : outcome nat * method_state nat nat unit :=
  (Return (x * x), st).

(** Objects of another kind that support none of [in] and indexing. *)
Definition no_contains (v : unit) (args : nat) (st : method_state nat nat unit)
    : outcome bool * method_state nat nat unit := (Raise (Exception 0), st).
Definition no_getitem (v : unit) (args : nat) (st : method_state nat nat unit)
    : outcome nat * method_state nat nat unit := (Raise (Exception 0), st).
Definition no_setitem (v : unit) (args res : nat) (st : method_state nat nat unit)
    : outcome unit * method_state nat nat unit := (Raise (Exception 0), st).

(** The cached method [lookup] of that object. *)
Definition lookup : nat → method_state nat nat unit → list nat →
    outcome nat * method_state nat nat unit * list nat :=
  cached_method no_contains no_getitem no_setitem "lookup" squaring.

(** ** Generated files *)

(** A directory with a file that Cython has generated, under two names,
    stamped at time 100; the clock is at 200. *)
Definition generated_output : Disk.t Z :=
  Disk.Make
    (list_to_map [("out/mod.c", Disk.RegularFile 0); ("out/link.c", Disk.RegularFile 0)])
    (list_to_map [(0, Disk.Inode (latin_1_encode "/* Generated by Cython 3.0 */") 100%Z 100%Z)])
    200%Z [].

(** ** Copying files *)

(** A file system that keeps, for each path, a modification time and the
    bytes: [getmtime] fails on a path that names nothing, [makedirs] has
    nothing to do, and [copy2] copies the bytes with the time. *)
Definition flat_getmtime (path : string) (fs : gmap string (Z * bytes)) : outcome Z :=
  match fs !! path with
  | Some (t, _) => Return t
  | None => Raise (OSError "stat")
  end.

Definition flat_makedirs (path : string) (fs : gmap string (Z * bytes))
    : outcome unit * gmap string (Z * bytes) := (Return (), fs).

Definition flat_isdir (path : string) (fs : gmap string (Z * bytes)) : bool := true.

Definition flat_copy2 (src dst : string) (fs : gmap string (Z * bytes))
    : outcome unit * gmap string (Z * bytes) :=
  match fs !! src with
  | Some file => (Return (), <[dst := file]> fs)
  | None => (Raise (OSError "copy2"), fs)
  end.

Definition one_source : gmap string (Z * bytes) :=
  list_to_map [("src/mod.pxd", (100%Z, [x61]))].

(** ** Version numbers *)

(** [int] on the strings of decimal digits, which is what it is given for
    a well-formed version; on this view every other string is refused. *)
Definition int_of_digits (s : string) : option Z :=
  if bool_decide (s ≠ "") && forallb is_digit (chars s) then Some (int s) else None.

(** A string of decimal digits, not empty. *)
Definition is_number (d : string) : Prop :=
  d ≠ "" ∧ forallb is_digit (chars d) = true.

(** The release status that a tag stands for. *)
Definition status_of_tag (tag : string) : Z :=
  if bool_decide (tag = "a") then 160 else if bool_decide (tag = "b") then 176 else 192.

(** A version string that starts with a number and goes on with runs of
    separators, each followed by a number; and the pieces it is made of. *)
Fixpoint parts_text (parts : list (string * string)) : string :=
  match parts with
  | [] => ""
  | (run, d) :: parts' => run +:+ d +:+ parts_text parts'
  end.

Definition version_text (first : string) (parts : list (string * string)) : string :=
  first +:+ parts_text parts.

Definition version_pieces (first : string) (parts : list (string * string))
    : list string :=
  first :: concat ((λ p, [p.1; p.2]) <$> parts).

Definition is_separator_run (run : string) : Prop :=
  run ≠ "" ∧ forallb is_version_separator (chars run) = true.

(** ** Captured streams: the whole process *)

Section capture_session_vocabulary.
Context {encoding_name : Type}.
Implicit Types c : capture_cells (encoding_name:=encoding_name).

(** The process during a capture that started in the state [s0], told in
    full: the descriptor table of [s0] with the stream and the descriptor
    of the temporary file on a new description, and the duplicate on the
    description that the stream had; the descriptions and the files of
    [s0] with that new description and its new file, which holds
    [content]. *)
Definition in_session (s0 : os_state) c (content : bytes) (s : os_state) : Prop :=
  encoding c = None ∧ temp_closed c = false ∧ faults s = [] ∧
  ∃ d0 dt ft pos,
    fds s0 !! stream c = Some d0 ∧
    fds s0 !! orig_stream c = None ∧ fds s0 !! temp_fileno c = None ∧
    orig_stream c ≠ temp_fileno c ∧
    open_files s0 !! dt = None ∧ files s0 !! ft = None ∧
    fds s = <[stream c := dt]> (<[temp_fileno c := dt]>
              (<[orig_stream c := d0]> (fds s0))) ∧
    open_files s = <[dt := OpenFile ft pos true]> (open_files s0) ∧
    files s = <[ft := content]> (files s0).

End capture_session_vocabulary.

(** Standard error is captured and one byte has been written to it. *)
Definition outer_cells : capture_cells (encoding_name:=codec) :=
  Cells 2 None 3 4 false [].

Definition outer_capture : os_state :=
  (os_write 2 [x61]
     (__enter__ captured_fd_next (captured_fd 2 (None : option codec)) three_streams).2).2.

(** * Part III: properties *)

(** ** Strings *)

Lemma str_chars (s : string) : str (chars s) = s.
Proof. apply string_of_list_ascii_of_string. Qed.

Lemma chars_str (l : list ascii) : chars (str l) = l.
Proof. apply list_ascii_of_string_of_list_ascii. Qed.

Lemma chars_app (a b : string) : chars (a +:+ b) = chars a ++ chars b.
Proof. induction a as [|c a IH]; simpl; [done | by rewrite IH]. Qed.

Lemma str_app (a b : list ascii) : str (a ++ b) = str a +:+ str b.
Proof. induction a as [|c a IH]; simpl; [done | by rewrite IH]. Qed.

Lemma chars_inj (a b : string) : chars a = chars b → a = b.
Proof. intros E. by rewrite <- (str_chars a), <- (str_chars b), E. Qed.

(** ** The function level cache *)

Section cached_function_props.
Context {Args Res World : Type} `{Countable Args}.
Implicit Types (st : memo_state Args Res World).
Implicit Types (f g : Args → World → outcome Res * World).

Lemma wrapper_hit cache f args st res :
  cached_value cache args st = Some res →
  wrapper cache f args st = (Return res, st).
Proof. unfold cached_value, wrapper. by intros ->. Qed.

(** A call through any wrapper keeps the entries that are there. *)
Lemma wrapper_keeps_entry cache args res j g y st :
  cached_value cache args st = Some res →
  cached_value cache args (wrapper j g y st).2 = Some res.
Proof.
  unfold cached_value, wrapper. intros Hentry.
  destruct (default ∅ (_function_caches st !! j) !! y) as [r|] eqn:Hy; [done|].
  destruct (g y (world st)) as [[r|e] w]; simpl; [|done].
  destruct (decide (j = cache)) as [->|Hne].
  - destruct (_function_caches st !! cache) as [c|] eqn:Hc; simpl in *; [|done].
    rewrite list_lookup_insert_eq by (by eapply lookup_lt_Some). simpl.
    rewrite lookup_insert_ne; [done|]. intros ->. congruence.
  - by rewrite list_lookup_insert_ne.
Qed.

(** A call that finds its entry invokes nothing. *)
Lemma wrapper_invocations cache args j g y st :
  invocation_count cache args (wrapper j g y st).2 =
    invocation_count cache args st +
    (if bool_decide ((j, y) = (cache, args) ∧ cached_value j y st = None) then 1 else 0).
Proof.
  unfold invocation_count, cached_value, wrapper.
  destruct (default ∅ (_function_caches st !! j) !! y) as [r|] eqn:Hy.
  - rewrite bool_decide_eq_false_2 by (by intros [_ ?]). simpl. lia.
  - assert (length (filter (λ c, c = (cache, args)) (invocations st ++ [(j, y)])) =
            length (filter (λ c, c = (cache, args)) (invocations st)) +
            (if bool_decide ((j, y) = (cache, args) ∧ (None : option Res) = None)
             then 1 else 0)) as Hlog.
    { rewrite filter_app, length_app, filter_cons, filter_nil.
      destruct (decide ((j, y) = (cache, args))).
      - by rewrite bool_decide_eq_true_2.
      - by rewrite bool_decide_eq_false_2 by (by intros [? _]). }
    by destruct (g y (world st)) as [[r|e] w].
Qed.

Lemma calls_keeps_entry cache args res cs st :
  cached_value cache args st = Some res →
  cached_value cache args (calls cs st) = Some res.
Proof.
  revert st. induction cs as [|[[j g] y] cs IH]; intros st Hentry; [done|].
  simpl. apply IH. by apply wrapper_keeps_entry.
Qed.

Lemma calls_invocations cache args res cs st :
  cached_value cache args st = Some res →
  invocation_count cache args (calls cs st) = invocation_count cache args st.
Proof.
  revert st. induction cs as [|[[j g] y] cs IH]; intros st Hentry; [done|].
  simpl. rewrite IH by (by apply wrapper_keeps_entry).
  rewrite wrapper_invocations. simpl.
  rewrite bool_decide_eq_false_2; [lia|]. intros [[= -> ->] ?]. congruence.
Qed.

Lemma cached_value_clear cache args st :
  cached_value cache args (clear_function_caches st) = None.
Proof.
  unfold cached_value, clear_function_caches. simpl.
  rewrite list_lookup_fmap. by destruct (_function_caches st !! cache).
Qed.

(** A decorated function that depends on its arguments only returns what
    the function returns, whatever is in its cache, as long as the cache
    holds values of the function; and it keeps the cache so. This is why
    the decorated functions on the file system are embedded as the
    functions they wrap. *)
Lemma wrapper_of_pure (h : Args → Res) cache args st :
  coherent h cache st →
  (wrapper cache (λ a w, (Return (h a), w)) args st).1 = Return (h args) ∧
  coherent h cache (wrapper cache (λ a w, (Return (h a), w)) args st).2.
Proof.
  intros Hco. unfold wrapper.
  destruct (default ∅ (_function_caches st !! cache) !! args) as [res|] eqn:E.
  - split; [|done]. simpl. f_equal. by apply Hco.
  - split; [done|]. simpl. intros a r. unfold cached_value. simpl.
    destruct (_function_caches st !! cache) as [c|] eqn:Hc.
    + rewrite list_lookup_insert_eq by (by eapply lookup_lt_Some). simpl.
      destruct (decide (args = a)) as [->|Hne].
      * rewrite lookup_insert_eq. by intros [= <-].
      * rewrite lookup_insert_ne by done. intros Ha. apply Hco.
        unfold cached_value. by rewrite Hc.
    + rewrite list_insert_ge by (by apply lookup_ge_None). by rewrite Hc.
Qed.

(** C2. Two calls of a memoized function with the same arguments: when
    the arguments have not been computed yet (as after a clear) and the
    first call returns [res], the underlying function has been invoked once
    more by then; the second call, whatever other calls through wrappers
    happen in between, returns the same [res], leaves the state as it is and
    so invokes nothing: over both calls the underlying function is invoked
    exactly once. After [clear_function_caches] a call invokes it again. *)
Theorem cached_function_twice cache f args st c res st1 between :
  _function_caches st !! cache = Some c →
  c !! args = None →
  wrapper cache f args st = (Return res, st1) →
  let st2 := calls between st1 in
  wrapper cache f args st2 = (Return res, st2) ∧
  invocation_count cache args (wrapper cache f args st2).2 =
    S (invocation_count cache args st) ∧
  invocation_count cache args (wrapper cache f args (clear_function_caches st2)).2 =
    S (S (invocation_count cache args st)).
Proof.
  intros Hc Hmiss Hcall st2.
  assert (cached_value cache args st = None) as Hnone
    by (unfold cached_value; by rewrite Hc).
  assert (cached_value cache args st1 = Some res) as Hentry.
  { unfold wrapper in Hcall. fold (cached_value cache args st) in Hcall.
    rewrite Hnone, Hc in Hcall. simpl in Hcall.
    destruct (f args (world st)) as [[r|e] w]; [|done].
    injection Hcall as -> <-. unfold cached_value. simpl.
    rewrite list_lookup_insert_eq by (by eapply lookup_lt_Some).
    simpl. by rewrite lookup_insert_eq. }
  assert (invocation_count cache args st1 = S (invocation_count cache args st)) as Hone.
  { replace st1 with (wrapper cache f args st).2 by (by rewrite Hcall).
    rewrite wrapper_invocations, bool_decide_eq_true_2 by done. lia. }
  assert (cached_value cache args st2 = Some res) as Hentry2
    by (by apply calls_keeps_entry).
  assert (invocation_count cache args st2 = S (invocation_count cache args st)) as Htwo
    by (unfold st2; by rewrite (calls_invocations _ _ res)).
  split; [by apply wrapper_hit|]. split.
  - by rewrite (wrapper_hit _ _ _ _ res).
  - rewrite wrapper_invocations.
    rewrite bool_decide_eq_true_2 by (split; [done | apply cached_value_clear]).
    unfold invocation_count in *. simpl. lia.
Qed.

End cached_function_props.

(** A function that reads and changes the world ([ticking]), memoized in a
    fresh registry: called with [5], then with [7], then with [5] again. *)
Lemma cached_function_twice_witness :
  let st2 := calls [(0, ticking, 7)] (wrapper 0 ticking 5 fresh_memo).2 in
  wrapper 0 ticking 5 st2 = (Return 5, st2) ∧
  invocation_count 0 5 (wrapper 0 ticking 5 st2).2 =
    S (invocation_count 0 5 fresh_memo) ∧
  invocation_count 0 5 (wrapper 0 ticking 5 (clear_function_caches st2)).2 =
    S (S (invocation_count 0 5 fresh_memo)).
Proof.
  apply (cached_function_twice 0 ticking 5 fresh_memo ∅ 5
           (wrapper 0 ticking 5 fresh_memo).2 [(0, ticking, 7)]);
    reflexivity.
Defined.

(** ** The method caches of an object *)

Lemma before_final_newline_cases (l : list ascii) :
  (before_final_newline l = l ∧ ∀ k, l ≠ k ++ [newline]) ∨
  l = before_final_newline l ++ [newline].
Proof.
  unfold before_final_newline. destruct (rev l) as [|c r] eqn:E.
  - left. split; [done|]. intros k ->. rewrite rev_app_distr in E. done.
  - destruct (decide (c = newline)) as [->|Hc].
    + right. by rewrite <- (rev_involutive l), E.
    + left. split; [done|]. intros k ->. rewrite rev_app_distr in E.
      injection E as <- _. done.
Qed.

Lemma before_final_newline_snoc (l : list ascii) :
  before_final_newline (l ++ [newline]) = l.
Proof.
  unfold before_final_newline. rewrite rev_app_distr. simpl.
  apply rev_involutive.
Qed.

(** The pattern of the cache names, read as it is written. *)
Lemma _CACHE_NAME_PATTERN_match_Some attr_name m :
  _CACHE_NAME_PATTERN_match attr_name = Some m ↔
  m ≠ "" ∧ (newline ∉ chars m) ∧
  (chars attr_name = chars "__" ++ chars m ++ chars "_cache" ∨
   chars attr_name = (chars "__" ++ chars m ++ chars "_cache") ++ [newline]).
Proof.
  unfold _CACHE_NAME_PATTERN_match.
  set (body := before_final_newline (chars attr_name)).
  set (g := take (length body - 8) (drop 2 body)).
  split.
  - case_bool_decide as Hm; [|done]. destruct Hm as (Hbody & Hg & Hnl).
    intros [= <-]. rewrite chars_str. split_and!; [|done|].
    + intros E. apply (f_equal chars) in E. by rewrite chars_str in E.
    + rewrite <- Hbody. unfold body.
      destruct (before_final_newline_cases (chars attr_name)) as [[-> _]|E]; [by left|].
      by right.
  - intros (Hm & Hnl & Hname).
    assert (body = chars "__" ++ chars m ++ chars "_cache") as Hbody.
    { unfold body. destruct Hname as [->| ->]; [|apply before_final_newline_snoc].
      destruct (before_final_newline_cases
                  (chars "__" ++ chars m ++ chars "_cache")) as [[-> _]|E]; [done|].
      exfalso. apply (f_equal (@rev ascii)) in E.
      rewrite !rev_app_distr in E. simpl in E. discriminate. }
    assert (g = chars m) as Hg.
    { unfold g. rewrite Hbody. simpl. rewrite length_app. simpl.
      replace (length (chars m) + 6 - 6) with (length (chars m)) by lia.
      by rewrite drop_0, take_app_length. }
    rewrite bool_decide_eq_true_2.
    + by rewrite Hg, str_chars.
    + rewrite Hg. split_and!; [done | | done].
      intros E. apply Hm. apply chars_inj. by rewrite E.
Qed.

(** The names that [cached_method] builds are recognized, with the name
    of the method as the group. *)
Lemma _CACHE_NAME_PATTERN_match_build name :
  name ≠ "" → newline ∉ chars name →
  _CACHE_NAME_PATTERN_match (_build_cache_name name) = Some name.
Proof.
  intros Hne Hnl. apply _CACHE_NAME_PATTERN_match_Some. split_and!; [done..|].
  left. unfold _build_cache_name. by rewrite !chars_app.
Qed.

Section method_caches_props.
Context {V : Type}.
Implicit Types (obj cur : py_object V).

Lemma elem_of_dir obj a :
  a ∈ dir obj ↔ is_Some (instance_dict obj !! a) ∨ is_Some (class_dict obj !! a).
Proof.
  unfold dir. rewrite merge_sort_Permutation, elem_of_elements, elem_of_union.
  by rewrite !elem_of_dom.
Qed.

Lemma NoDup_dir obj : NoDup (dir obj).
Proof. unfold dir. rewrite merge_sort_Permutation. apply NoDup_elements. Qed.

Lemma Sorted_dir obj : Sorted string_le (dir obj).
Proof.
  assert (Total string_le) by (intros a b; apply String.leb_total).
  unfold dir. by apply (Sorted_merge_sort string_le).
Qed.

Lemma hasattr_true obj m :
  hasattr obj m = true ↔ is_Some (instance_dict obj !! m) ∨ is_Some (class_dict obj !! m).
Proof. unfold hasattr. apply bool_decide_eq_true. Qed.

Lemma elem_of_cache_pairs l a m :
  (a, m) ∈ cache_pairs l ↔ a ∈ l ∧ _CACHE_NAME_PATTERN_match a = Some m.
Proof.
  unfold cache_pairs. rewrite list_elem_of_omap. split.
  - intros (x & Hx & Hm). destruct (_CACHE_NAME_PATTERN_match x) eqn:E; [|done].
    simpl in Hm. by injection Hm as -> ->.
  - intros [Ha Hm]. exists a. by rewrite Hm.
Qed.

Lemma NoDup_cache_pairs l : NoDup l → NoDup (cache_pairs l).*1.
Proof.
  induction 1 as [|x l Hx Hl IH]; [constructor|].
  unfold cache_pairs. simpl.
  destruct (_CACHE_NAME_PATTERN_match x) as [g|] eqn:E; simpl; [|done].
  constructor; [|done].
  rewrite list_elem_of_fmap. intros ([a m] & -> & Hin).
  apply elem_of_cache_pairs in Hin as [Hin _]. done.
Qed.

(** The loop, started on any object [cur] with any list of pairs without
    repeated attribute names: it removes the attributes of the pairs whose
    method name resolves on [cur], provided the instance holds them and
    removing one does not stop the method name of another from resolving. *)
Lemma clear_method_caches_loop_exact pairs cur :
  NoDup pairs.*1 →
  (∀ a m, (a, m) ∈ pairs → hasattr cur m = true → is_Some (instance_dict cur !! a)) →
  (∀ a m b, (a, m) ∈ pairs → hasattr cur m = true → (b, a) ∈ pairs →
            is_Some (class_dict cur !! a)) →
  ∃ obj', clear_method_caches_loop pairs cur = Return obj' ∧
    class_dict obj' = class_dict cur ∧
    ∀ x, ((∃ m, (x, m) ∈ pairs ∧ hasattr cur m = true) → instance_dict obj' !! x = None) ∧
         ((¬ ∃ m, (x, m) ∈ pairs ∧ hasattr cur m = true) →
          instance_dict obj' !! x = instance_dict cur !! x).
Proof.
  revert cur. induction pairs as [|[a m] rest IH]; intros cur Hnd Hheld Hcls.
  { exists cur. split_and!; [done..|]. intros x. split; [|done].
    intros (? & Hin & _). by apply elem_of_nil in Hin. }
  apply NoDup_cons in Hnd as [Ha Hnd]. simpl.
  destruct (hasattr cur m) eqn:Hm.
  - destruct (Hheld a m) as [v Hv]; [left | done |].
    unfold delattr. rewrite Hv.
    set (cur' := PyObject (delete a (instance_dict cur)) (class_dict cur)).
    assert (∀ b mb, (b, mb) ∈ rest → hasattr cur' mb = hasattr cur mb) as Hsame.
    { intros b mb Hin. apply eq_true_iff_eq. rewrite !hasattr_true. simpl.
      destruct (decide (mb = a)) as [->|Hne]; [|by rewrite lookup_delete_ne].
      split; [|intros _; right]; [|eapply (Hcls a m b); [left | done | by right]].
      intros [H1|H1]; [|by right]. by rewrite lookup_delete_eq in H1; destruct H1. }
    destruct (IH cur' Hnd) as (obj' & Hrun & Hc & Hall).
    { intros b mb Hin Hb. simpl. rewrite lookup_delete_ne.
      - apply (Hheld b mb); [by right | by rewrite <- (Hsame b mb)].
      - intros ->. apply Ha, list_elem_of_fmap. by exists (b, mb). }
    { intros b mb b' Hin Hb Hin'. simpl.
      apply (Hcls b mb b'); [by right | by rewrite <- (Hsame b mb) | by right]. }
    exists obj'. split_and!; [done..|]. intros x. split.
    + intros (mx & Hin & Hx). apply elem_of_cons in Hin as [[= -> ->]|Hin].
      * destruct (Hall a) as [_ Hkeep]. rewrite Hkeep; [apply lookup_delete_eq|].
        intros (m' & Hin' & _). apply Ha, list_elem_of_fmap. by exists (a, m').
      * apply Hall. exists mx. split; [done|]. by rewrite (Hsame x mx).
    + intros Hno. destruct (Hall x) as [_ Hkeep]. rewrite Hkeep.
      * simpl. apply lookup_delete_ne. intros ->. apply Hno. exists m. split; [left | done].
      * intros (mx & Hin & Hx). apply Hno. exists mx. split; [by right|].
        by rewrite <- (Hsame x mx).
  - destruct (IH cur Hnd) as (obj' & Hrun & Hc & Hall).
    { intros b mb Hin Hb. apply (Hheld b mb); [by right | done]. }
    { intros b mb b' Hin Hb Hin'. apply (Hcls b mb b'); [by right | done | by right]. }
    exists obj'. split_and!; [done..|]. intros x. split.
    + intros (mx & Hin & Hx). apply elem_of_cons in Hin as [[= -> ->]|Hin]; [congruence|].
      apply Hall. by exists mx.
    + intros Hno. apply Hall. intros (mx & Hin & Hx). apply Hno. exists mx. split; [by right | done].
Qed.

(** C5, amended. For an object on which every cache-named attribute
    whose method name resolves is held by the instance, and on which an
    attribute that the call removes is the method name of another
    cache-named attribute only if the class provides it too,
    [clear_method_caches] returns, removes from the instance exactly the
    attributes that match the cache naming convention and whose method name
    resolves on the object, and leaves every other attribute and the class
    as they are. *)
Theorem clear_method_caches_exact obj :
  (∀ a m, _CACHE_NAME_PATTERN_match a = Some m → hasattr obj m = true →
          is_Some (class_dict obj !! a) → is_Some (instance_dict obj !! a)) →
  (∀ a m b, _CACHE_NAME_PATTERN_match a = Some m → hasattr obj m = true →
            hasattr obj b = true → _CACHE_NAME_PATTERN_match b = Some a →
            is_Some (class_dict obj !! a)) →
  spec_clear_instance_caches obj (clear_method_caches obj).
Proof.
  intros Hheld Hcls. unfold clear_method_caches, _find_cache_attributes.
  fold (cache_pairs (dir obj)).
  destruct (clear_method_caches_loop_exact (cache_pairs (dir obj)) obj)
    as (obj' & Hrun & Hc & Hall).
  - apply NoDup_cache_pairs, NoDup_dir.
  - intros a m Hin Hm. apply elem_of_cache_pairs in Hin as [Hin Hmatch].
    apply elem_of_dir in Hin as [?|?]; [done|]. by apply (Hheld a m).
  - intros a m b Hin Hm Hin'. apply elem_of_cache_pairs in Hin as [Hin Hmatch].
    apply elem_of_cache_pairs in Hin' as [Hin' Hmatch'].
    apply (Hcls a m b); [done.. | | done]. apply hasattr_true. by apply elem_of_dir.
  - exists obj'. split_and!; [done..|]. intros a. split.
    + intros (m & Hmatch & Hm).
      destruct (decide (a ∈ dir obj)) as [Hin|Hout].
      * apply Hall. exists m. split; [|done]. by apply elem_of_cache_pairs.
      * destruct (Hall a) as [_ ->].
        -- destruct (instance_dict obj !! a) eqn:E; [|done].
           exfalso. apply Hout, elem_of_dir. left. by rewrite E.
        -- intros (m' & Hin & _). by apply elem_of_cache_pairs in Hin as [? _].
    + intros Hno. apply Hall. intros (m & Hin & Hm). apply Hno.
      apply elem_of_cache_pairs in Hin as [_ ?]. by exists m.
Qed.

End method_caches_props.

(** C5, as stated, fails on [nested_cache_names]: [dir] lists [__M_cache]
    first; it is removed, because [M] resolves; when [____M_cache_cache] is
    reached its method name [__M_cache] no longer resolves, so it stays,
    although that name did resolve on the object passed in. *)
Lemma clear_method_caches_counterexample :
  ¬ spec_clear_instance_caches nested_cache_names
      (clear_method_caches nested_cache_names).
Proof.
  intros (obj' & Hrun & _ & Hall).
  assert (clear_method_caches nested_cache_names =
          Return (PyObject (list_to_map [("____M_cache_cache", 2)])
                           (list_to_map [("M", 0)]))) as Hcode
    by (vm_compute; reflexivity).
  rewrite Hcode in Hrun. injection Hrun as <-.
  destruct (Hall "____M_cache_cache") as [Hgone _].
  assert (removable nested_cache_names "____M_cache_cache") as Hrem
    by (exists "__M_cache"; split; vm_compute; reflexivity).
  specialize (Hgone Hrem). vm_compute in Hgone. discriminate.
Qed.

(** When the class itself holds the cache-named attribute, [delattr]
    raises. *)
Example clear_method_caches_class_attribute :
  clear_method_caches class_level_cache = Raise (AttributeError "__find_cache").
Proof. reflexivity. Qed.

Lemma clear_method_caches_exact_witness :
  spec_clear_instance_caches two_caches (clear_method_caches two_caches).
Proof.
  apply clear_method_caches_exact.
  - intros a m Hmatch _ [v Hv].
    apply elem_of_list_to_map_2 in Hv.
    repeat (apply elem_of_cons in Hv as [Hv|Hv]; [injection Hv as -> _|]);
      [vm_compute in Hmatch; discriminate.. | by apply elem_of_nil in Hv].
  - intros a m b _ _ Hb Hmatch.
    apply hasattr_true in Hb as [[v Hv]|[v Hv]];
      apply elem_of_list_to_map_2 in Hv;
      repeat (apply elem_of_cons in Hv as [Hv|Hv]; [injection Hv as -> _|]);
      try (by apply elem_of_nil in Hv);
      vm_compute in Hmatch; try discriminate;
      injection Hmatch as <-; eexists; vm_compute; reflexivity.
Defined.

(** ** Package directories *)

Section package_dir_props.
Variable w : file_world.

Lemma contains_init_loop_truthy filenames dir_path :
  truthy (contains_init_loop w filenames dir_path) = true ↔
  ∃ filename, filename ∈ filenames ∧
    path_exists w (os_path_join dir_path filename) = true.
Proof.
  induction filenames as [|f rest IH]; simpl.
  - split; [done|]. intros (? & Hin & _). by apply elem_of_nil in Hin.
  - destruct (path_exists w (os_path_join dir_path f)) eqn:E; simpl.
    + split; [|done]. intros _. exists f. split; [left | done].
    + rewrite IH. split.
      * intros (g & Hin & Hg). exists g. split; [by right | done].
      * intros (g & Hin & Hg). apply elem_of_cons in Hin as [->|Hin]; [congruence|].
        by exists g.
Qed.

Lemma contains_init_truthy dir_path :
  truthy (contains_init w dir_path) = true ↔ has_marker w dir_path.
Proof. apply contains_init_loop_truthy. Qed.

Lemma is_package_dir_truthy dir_path :
  truthy (is_package_dir w dir_path) = true ↔ has_marker w dir_path.
Proof.
  unfold is_package_dir. rewrite <- contains_init_truthy.
  by destruct (truthy (contains_init w dir_path)).
Qed.

Lemma last_cons_default {A : Type} (x d : A) (l : list A) :
  List.last (x :: l) d = List.last l x.
Proof.
  revert x d. induction l as [|y l IH]; intros x d; [done|].
  change (List.last (y :: l) d = List.last (y :: l) x). by rewrite !IH.
Qed.

Lemma check_package_dir_loop_spec package_names dir_path namespace lookups :
  check_package_dir_loop w package_names dir_path namespace lookups =
    (List.last (segment_dirs dir_path package_names) dir_path,
     namespace &&
       forallb (λ d, negb (truthy (contains_init w d))) (segment_dirs dir_path package_names),
     lookups ++ segment_dirs dir_path package_names).
Proof.
  revert dir_path namespace lookups.
  induction package_names as [|n rest IH]; intros dir_path namespace lookups.
  - simpl. by rewrite andb_true_r, app_nil_r.
  - cbn [check_package_dir_loop segment_dirs forallb].
    rewrite IH, <- app_assoc.
    set (j := os_path_join dir_path n).
    rewrite (last_cons_default j dir_path).
    by destruct (truthy (contains_init w j)), namespace.
Qed.

(** C8. The namespace flag of [check_package_dir] is true exactly when
    none of the successively joined segment directories holds a package
    marker; these directories are the ones looked up, and the last of them
    is the path returned. In particular, for one segment: the flag is true
    when the joined directory holds no marker (an empty directory), false
    when it holds one. *)
Theorem check_package_dir_namespace dir_path package_names :
  ((check_package_dir w dir_path package_names).1.2 = true ↔
   ∀ d, d ∈ segment_dirs dir_path package_names → ¬ has_marker w d) ∧
  (check_package_dir w dir_path package_names).2 = segment_dirs dir_path package_names ∧
  (check_package_dir w dir_path package_names).1.1 =
    List.last (segment_dirs dir_path package_names) dir_path ∧
  (∀ dirname, ¬ has_marker w (os_path_join dir_path dirname) →
     (check_package_dir w dir_path [dirname]).1 = (os_path_join dir_path dirname, true)) ∧
  (∀ dirname, has_marker w (os_path_join dir_path dirname) →
     (check_package_dir w dir_path [dirname]).1 = (os_path_join dir_path dirname, false)).
Proof.
  unfold check_package_dir. split_and!.
  - rewrite check_package_dir_loop_spec. simpl.
    rewrite forallb_forall. split.
    + intros Hall d Hd Hm. apply list_elem_of_In, Hall in Hd.
      apply contains_init_truthy in Hm. by rewrite Hm in Hd.
    + intros Hall d Hd. apply list_elem_of_In, Hall in Hd.
      rewrite <- contains_init_truthy in Hd.
      by destruct (truthy (contains_init w d)).
  - by rewrite check_package_dir_loop_spec.
  - by rewrite check_package_dir_loop_spec.
  - intros dirname Hno. simpl. rewrite <- contains_init_truthy in Hno.
    by destruct (truthy (contains_init w (os_path_join dir_path dirname))).
  - intros dirname Hm. simpl. apply contains_init_truthy in Hm. by rewrite Hm.
Qed.

(** C9. With no package names, [check_package_dir] makes no marker lookup
    and returns the directory it was given and the flag true, whatever the
    file system holds. *)
Theorem check_package_dir_no_names dir_path :
  check_package_dir w dir_path [] = (dir_path, true, []).
Proof. reflexivity. Qed.

Lemma ancestor_dirname n file_path :
  ancestor n (os_path_dirname file_path) = ancestor (S n) file_path.
Proof. induction n as [|n IH]; simpl; [done | by rewrite IH]. Qed.

(** C3, amended. [find_root_package_dir] walks upward from the parent
    directory while the directory reached holds a package marker, and
    returns the first ancestor that holds none, that is the directory that
    contains the outermost package, or the path at which [dirname] returns
    its argument (the root, or the empty path when the file path is
    relative). Every ancestor below the result holds a marker. *)
Theorem find_root_package_dir_first_unmarked file_path :
  ∃ k, find_root_package_dir w file_path = ancestor (S k) file_path ∧
    (∀ j, (j < k)%nat → ancestor j file_path ≠ ancestor (S j) file_path ∧
                   has_marker w (ancestor (S j) file_path)) ∧
    (ancestor k file_path = ancestor (S k) file_path ∨
     ¬ has_marker w (ancestor (S k) file_path)).
Proof.
  funelim (find_root_package_dir w file_path).
  - exists 0. simpl. split_and!; [done | lia | by left].
  - destruct H as (k & Hres & Hbelow & Hstop).
    exists (S k). rewrite Hres, ancestor_dirname. split_and!; [done | |].
    + intros [|j] Hj.
      * simpl. split; [done|]. by apply is_package_dir_truthy.
      * rewrite <- (ancestor_dirname j), <- (ancestor_dirname (S j)).
        apply Hbelow. lia.
    + by rewrite <- (ancestor_dirname k), <- (ancestor_dirname (S k)).
  - exists 0. simpl. split_and!; [done | lia |]. right.
    rewrite <- is_package_dir_truthy. by rewrite Heq.
Qed.

End package_dir_props.

Example check_package_dir_marked :
  check_package_dir one_package "/a" ["b"] = ("/a/b", false, ["/a/b"]).
Proof. reflexivity. Qed.

Example check_package_dir_empty :
  check_package_dir (snapshot_world []) "/a" ["b"; "c"] = ("/a/b/c", true, ["/a/b"; "/a/b/c"]).
Proof. reflexivity. Qed.

Example find_root_package_dir_nested :
  find_root_package_dir
    (snapshot_world ["/a/b/__init__.py"; "/a/b/c/__init__.pxd"]) "/a/b/c/mod.py" = "/a".
Proof. reflexivity. Qed.

(** What the claim asks for on [one_package]: the package [/a/b] itself. *)
Example spec_outermost_package_example :
  spec_outermost_package one_package "/a/b/mod.py" "/a/b".
Proof.
  exists 0. split_and!; [done | |].
  - intros j Hj. assert (j = 0) as -> by lia.
    apply contains_init_truthy. reflexivity.
  - left. intros Hm%contains_init_truthy. vm_compute in Hm. discriminate.
Qed.

(** C3, as stated, fails on [one_package]: for a module in the package
    [/a/b] the function returns [/a], the directory above the outermost
    package, which holds no marker, and not [/a/b]. *)
Lemma find_root_package_dir_counterexample :
  find_root_package_dir one_package "/a/b/mod.py" = "/a" ∧
  ¬ spec_outermost_package one_package "/a/b/mod.py"
      (find_root_package_dir one_package "/a/b/mod.py").
Proof.
  split; [reflexivity|].
  intros (k & Hr & Hall & _).
  specialize (Hall k (le_n k)). rewrite <- Hr in Hall.
  apply contains_init_truthy in Hall. vm_compute in Hall. discriminate.
Qed.

(** ** Versioned files *)

Lemma takewhile_dropwhile {A : Type} (P : A → bool) (l : list A) :
  takewhile P l ++ dropwhile P l = l.
Proof. induction l as [|x l IH]; simpl; [done|]. destruct (P x); simpl; [by rewrite IH | done]. Qed.

Lemma takewhile_forallb {A : Type} (P : A → bool) (l : list A) :
  forallb P (takewhile P l) = true.
Proof. induction l as [|x l IH]; simpl; [done|]. destruct (P x) eqn:E; simpl; [by rewrite E | done]. Qed.

Lemma takewhile_app_stop {A : Type} (P : A → bool) (l1 : list A) (x : A) (l2 : list A) :
  forallb P l1 = true → P x = false → takewhile P (l1 ++ x :: l2) = l1.
Proof.
  intros H1 Hx. induction l1 as [|y l1 IH]; simpl in *; [by rewrite Hx|].
  apply andb_true_iff in H1 as [-> H1]. by rewrite IH.
Qed.

Lemma dropwhile_app_stop {A : Type} (P : A → bool) (l1 : list A) (x : A) (l2 : list A) :
  forallb P l1 = true → P x = false → dropwhile P (l1 ++ x :: l2) = x :: l2.
Proof.
  intros H1 Hx. induction l1 as [|y l1 IH]; simpl in *; [by rewrite Hx|].
  apply andb_true_iff in H1 as [-> H1]. by rewrite IH.
Qed.

Lemma forallb_rev {A : Type} (P : A → bool) (l : list A) :
  forallb P (rev l) = forallb P l.
Proof.
  induction l as [|x l IH]; simpl; [done|].
  rewrite forallb_app, IH. simpl. rewrite andb_true_r. apply andb_comm.
Qed.

Lemma _parse_file_version_sound path digits vs :
  _parse_file_version path = digits :: vs → vs = [] ∧ versioned_path path digits.
Proof.
  unfold _parse_file_version. set (r := rev (chars path)).
  pose proof (takewhile_dropwhile is_ext_char r) as Hr.
  pose proof (takewhile_forallb is_ext_char r) as Hext.
  destruct (takewhile is_ext_char r) as [|e0 e] eqn:Ee; [done|].
  destruct (dropwhile is_ext_char r) as [|c r1] eqn:Ed; [done|].
  destruct (decide (c = "."%char)) as [->|Hc]; [|by repeat (destruct c as [[] [] [] [] [] [] [] []]; try done)].
  pose proof (takewhile_dropwhile is_digit r1) as Hr1.
  pose proof (takewhile_forallb is_digit r1) as Hdig.
  destruct (takewhile is_digit r1) as [|d0 d] eqn:Et; [done|].
  case_bool_decide as Hpre; [|done].
  intros [= <- <-]. split; [done|].
  destruct Hpre as [rest Hrest].
  exists (str (rev rest)), (str (rev (e0 :: e))). split_and!.
  - apply chars_inj. rewrite !chars_app, !chars_str.
    rewrite <- (rev_involutive (chars path)). fold r.
    rewrite <- Hr, <- Hr1, Hrest. simpl.
    rewrite !rev_app_distr. simpl. rewrite !rev_app_distr. simpl.
    by rewrite <- !app_assoc.
  - intros E. apply (f_equal chars) in E. rewrite chars_str in E. simpl in E.
    by apply app_eq_nil in E as [_ ?].
  - rewrite chars_str. change (rev d ++ [d0]) with (rev (d0 :: d)).
    by rewrite forallb_rev.
  - intros E. apply (f_equal chars) in E. rewrite chars_str in E. simpl in E.
    by apply app_eq_nil in E as [_ ?].
  - by rewrite chars_str, forallb_rev.
Qed.

Lemma _parse_file_version_complete path digits :
  versioned_path path digits → _parse_file_version path = [digits].
Proof.
  intros (pre & ext & -> & Hd & Hdig & He & Hext).
  unfold _parse_file_version.
  rewrite !chars_app, !rev_app_distr. simpl. rewrite <- !app_assoc. simpl.
  rewrite <- forallb_rev in Hext, Hdig.
  rewrite (takewhile_app_stop _ _ _ _ Hext), (dropwhile_app_stop _ _ _ _ Hext) by done.
  destruct (rev (chars ext)) as [|e0 e] eqn:Ee.
  { exfalso. apply He, chars_inj. rewrite <- (rev_involutive (chars ext)). by rewrite Ee. }
  rewrite (takewhile_app_stop _ _ _ _ Hdig), (dropwhile_app_stop _ _ _ _ Hdig) by done.
  destruct (rev (chars digits)) as [|d0 d] eqn:Ed.
  { exfalso. apply Hd, chars_inj. rewrite <- (rev_involutive (chars digits)). by rewrite Ed. }
  rewrite bool_decide_eq_true_2.
  - change (rev d ++ [d0]) with (rev (d0 :: d)).
    by rewrite <- Ed, rev_involutive, str_chars.
  - by exists (rev (chars pre)).
Qed.

Lemma int_fold_nonneg (l : list ascii) (acc : Z) :
  (0 ≤ acc)%Z → forallb is_digit l = true →
  (0 ≤ fold_left (λ acc c, 10 * acc + (Z.of_nat (nat_of_ascii c) - 48))%Z l acc)%Z.
Proof.
  revert acc. induction l as [|c l IH]; intros acc Hacc Hall; simpl in *; [done|].
  apply andb_true_iff in Hall as [Hc Hall]. apply IH; [|done].
  unfold is_digit in Hc. apply andb_true_iff in Hc as [Hlo Hhi].
  apply Nat.leb_le in Hlo. lia.
Qed.

Lemma int_nonneg digits :
  forallb is_digit (chars digits) = true → (0 ≤ int digits)%Z.
Proof. by apply int_fold_nonneg. Qed.

Section find_versioned_file_props.
Variable w : file_world.

Lemma version_of_Some path v : version_of path = Some v ↔ path_version path v.
Proof.
  unfold version_of, path_version. split.
  - destruct (_parse_file_version path) as [|d vs] eqn:E; [done|].
    intros [= <-]. apply _parse_file_version_sound in E as [_ ?]. by exists d.
  - intros (d & Hd & ->). by rewrite (_parse_file_version_complete _ _ Hd).
Qed.

Lemma version_of_nonneg path v : version_of path = Some v → (0 ≤ v)%Z.
Proof.
  intros (d & (pre & ext & _ & _ & Hdig & _) & ->)%version_of_Some.
  by apply int_nonneg.
Qed.

Lemma find_versioned_file_loop_eq cur path rest best :
  find_versioned_file_loop cur (path :: rest) best =
    match version_of path with
    | Some v =>
        if (best.1 <? v)%Z && (v <=? cur)%Z
        then find_versioned_file_loop cur rest (v, Some path)
        else find_versioned_file_loop cur rest best
    | None => find_versioned_file_loop cur rest best
    end.
Proof. unfold version_of. simpl. by destruct (_parse_file_version path). Qed.

(** The loop keeps [best_match] when no file beats it, and otherwise ends
    on a file whose version is the greatest among those not above
    [_current_version]. *)
Lemma find_versioned_file_loop_spec cur files best :
  (find_versioned_file_loop cur files best = best ∧
   ∀ p v, p ∈ files → version_of p = Some v → ¬ (best.1 < v ≤ cur)%Z) ∨
  (∃ p v, find_versioned_file_loop cur files best = (v, Some p) ∧
     p ∈ files ∧ version_of p = Some v ∧ (best.1 < v ≤ cur)%Z ∧
     ∀ p' v', p' ∈ files → version_of p' = Some v' → (v' ≤ cur)%Z → (v' ≤ v)%Z).
Proof.
  revert best. induction files as [|path rest IH]; intros best.
  { left. split; [done|]. intros p v Hp. by apply elem_of_nil in Hp. }
  rewrite find_versioned_file_loop_eq.
  destruct (version_of path) as [v|] eqn:Ev.
  - destruct ((best.1 <? v)%Z && (v <=? cur)%Z) eqn:Hc.
    + apply andb_true_iff in Hc as [Hlt%Z.ltb_lt Hle%Z.leb_le].
      right. destruct (IH (v, Some path)) as [[-> Hnone]|(p & v2 & -> & Hp & Hv2 & Hbeat & Hmax)].
      * exists path, v. split_and!; try done; try lia; try (by left); try (by right).
        intros p' v' [->|Hp']%elem_of_cons Hv' Hle';
          [assert (v' = v) by congruence; lia|].
        specialize (Hnone p' v' Hp' Hv'). simpl in Hnone. lia.
      * simpl in Hbeat. exists p, v2. split_and!; try done; try lia; try (by left); try (by right).
        intros p' v' [->|Hp']%elem_of_cons Hv' Hle'; [|by eapply Hmax].
        assert (v' = v) by congruence. lia.
    + assert (¬ (best.1 < v ≤ cur)%Z) as Hno.
      { intros [Hlt%Z.ltb_lt Hle%Z.leb_le]. by rewrite Hlt, Hle in Hc. }
      destruct (IH best) as [[-> Hnone]|(p & v2 & -> & Hp & Hv2 & Hbeat & Hmax)].
      * left. split; [done|].
        intros p' v' [->|Hp']%elem_of_cons Hv'; [|by eapply Hnone].
        by assert (v' = v) as -> by congruence.
      * right. exists p, v2. split_and!; try done; try lia; try (by left); try (by right).
        intros p' v' [->|Hp']%elem_of_cons Hv' Hle'; [|by eapply Hmax].
        assert (v' = v) by congruence. lia.
  - destruct (IH best) as [[-> Hnone]|(p & v2 & -> & Hp & Hv2 & Hbeat & Hmax)].
    + left. split; [done|].
      intros p' v' [->|Hp']%elem_of_cons Hv'; [congruence | by eapply Hnone].
    + right. exists p, v2. split_and!; try done; try lia; try (by left); try (by right).
      intros p' v' [->|Hp']%elem_of_cons Hv' Hle'; [congruence | by eapply Hmax].
Qed.

(** C1, amended. For every directory, base name, suffix and current
    version: unless the suffix fails the assertion (it is neither empty
    nor starts with a dot), [find_versioned_file] returns. The unversioned
    path [directory/filename + suffix] is the default, when it exists. The
    candidates are the paths that [glob] returns for
    [directory/filename.cython-*suffix]; a candidate carries a version
    when it ends in [.cython-], digits, a dot and an extension without dot
    or separator. The result is a candidate whose version is the greatest
    among the versions not above the current version, when there is one;
    otherwise it is the default, and none when that does not exist. In
    particular, with [lib.pxd], [lib.cython-29.pxd] and [lib.cython-31.pxd]
    in the directory, scanned in any order, the result for the current
    version 30 is [lib.cython-29.pxd]; in an empty directory it is none. *)
Theorem find_versioned_file_best directory filename suffix cur :
  let path_prefix := os_path_join directory filename in
  let candidates := glob_glob w (path_prefix +:+ ".cython-*" +:+ suffix) in
  let unversioned :=
    if os_path_exists w (path_prefix +:+ suffix)
    then Some (path_prefix +:+ suffix) else None in
  (∃ r,
     find_versioned_file w directory filename suffix cur =
       (if bool_decide (suffix = "") || startswith suffix "."
        then Return r else Raise AssertionError) ∧
     ((∃ path v, r = Some path ∧ path ∈ candidates ∧ path_version path v ∧ (v ≤ cur)%Z ∧
         ∀ path' v', path' ∈ candidates → path_version path' v' →
                     (v' ≤ cur)%Z → (v' ≤ v)%Z) ∨
      ((∀ path' v', path' ∈ candidates → path_version path' v' → ¬ (v' ≤ cur)%Z) ∧
       r = unversioned))) ∧
  (∀ files,
     files ≡ₚ ["dir/lib.pxd"; "dir/lib.cython-29.pxd"; "dir/lib.cython-31.pxd"] →
     find_versioned_file (snapshot_world files) "dir" "lib" ".pxd" 30 =
       Return (Some "dir/lib.cython-29.pxd")) ∧
  find_versioned_file (snapshot_world []) "dir" "lib" ".pxd" 30 = Return None.
Proof.
  intros path_prefix candidates unversioned. split_and!.
  - unfold find_versioned_file. fold path_prefix. fold candidates. fold unversioned.
    exists (find_versioned_file_loop cur candidates ((-1)%Z, unversioned)).2.
    split; [by destruct (_ || _)|].
    destruct (find_versioned_file_loop_spec cur candidates ((-1)%Z, unversioned))
      as [[-> Hnone]|(p & v & -> & Hp & Hv & Hbeat & Hmax)].
    + right. split; [|done]. intros path' v' Hp' Hv'%version_of_Some Hle.
      apply (Hnone path' v' Hp' Hv'). simpl.
      apply version_of_nonneg in Hv'. lia.
    + left. simpl in Hbeat. exists p, v.
      split_and!; try done; try lia; [by apply version_of_Some|].
      intros path' v' Hp' Hv'%version_of_Some. by apply (Hmax path').
  - intros files Hperm. symmetry in Hperm.
    apply permutations_Permutation in Hperm. vm_compute in Hperm.
    repeat (apply elem_of_cons in Hperm as [->|Hperm]; [reflexivity|]).
    by apply elem_of_nil in Hperm.
  - reflexivity.
Qed.

End find_versioned_file_props.

Example spec_resolve_example :
  spec_resolve ["dir/lib.pxd"; "dir/lib.cython-29.pxd"; "dir/lib.cython-31.pxd"]
    "dir" "lib" ".pxd" 30 (Return (Some "dir/lib.cython-29.pxd")).
Proof.
  left. exists "dir/lib.cython-29.pxd", 29%Z. split_and!; [done | | done |].
  - split; [set_solver|]. by exists "29".
  - intros p' v' [Hin (d & _ & _ & -> & ->)] Hle.
    assert (chars d = chars "29" ∨ chars d = chars "31") as Hd.
    { repeat (apply elem_of_cons in Hin as [Hin|Hin]);
        [| | |by apply elem_of_nil in Hin];
        apply (f_equal chars) in Hin; rewrite !chars_app in Hin.
      - simpl in Hin. discriminate.
      - left.
        change (chars "dir/lib.cython-29.pxd") with
          (chars (os_path_join "dir" "lib") ++ chars ".cython-" ++ chars "29" ++ chars ".pxd")
          in Hin.
        do 2 apply app_inv_head in Hin. by apply app_inv_tail in Hin.
      - right.
        change (chars "dir/lib.cython-31.pxd") with
          (chars (os_path_join "dir" "lib") ++ chars ".cython-" ++ chars "31" ++ chars ".pxd")
          in Hin.
        do 2 apply app_inv_head in Hin. by apply app_inv_tail in Hin. }
    revert Hle. unfold int. by destruct Hd as [-> | ->].
Qed.

(** C1, as stated, fails for the empty suffix, which the assertion of
    the function admits: the file [lib.cython-29] has the form
    [base_name.cython-<digits>suffix] and its version is not above 30, but
    the pattern of [_parse_file_version] asks for an extension after the
    digits, so the file is passed over and the result is none. *)
Lemma find_versioned_file_counterexample :
  find_versioned_file (snapshot_world ["dir/lib.cython-29"]) "dir" "lib" "" 30 =
    Return None ∧
  ¬ spec_resolve ["dir/lib.cython-29"] "dir" "lib" "" 30
      (find_versioned_file (snapshot_world ["dir/lib.cython-29"]) "dir" "lib" "" 30).
Proof.
  split; [reflexivity|].
  intros [(p & v & Hr & _)|[Hnone _]]; [done|].
  apply (Hnone "dir/lib.cython-29" 29%Z); [|done].
  split; [set_solver|]. by exists "29".
Qed.

(** Further runs. With only the unversioned file in the directory it is
    the result. A file with a second marker before the digits is taken as a
    versioned file. A suffix of two parts is never matched. Of two files
    with the same version, the one scanned first is kept. *)
Example find_versioned_file_unversioned_only :
  find_versioned_file (snapshot_world ["dir/lib.pxd"]) "dir" "lib" ".pxd" 30 =
    Return (Some "dir/lib.pxd").
Proof. reflexivity. Qed.

Example find_versioned_file_second_marker :
  find_versioned_file (snapshot_world ["dir/lib.pxd"; "dir/lib.cython-x.cython-29.pxd"])
    "dir" "lib" ".pxd" 30 = Return (Some "dir/lib.cython-x.cython-29.pxd").
Proof. reflexivity. Qed.

Example find_versioned_file_two_part_suffix :
  find_versioned_file (snapshot_world ["dir/lib.cython-29.tar.gz"])
    "dir" "lib" ".tar.gz" 30 = Return None.
Proof. reflexivity. Qed.

Example find_versioned_file_same_version :
  find_versioned_file (snapshot_world ["dir/lib.cython-29.pxd"; "dir/lib.cython-029.pxd"])
    "dir" "lib" ".pxd" 30 = Return (Some "dir/lib.cython-29.pxd").
Proof. reflexivity. Qed.

(** ** Captured streams *)

Lemma lowest_free_free (t : gmap nat nat) : t !! lowest_free t = None.
Proof.
  unfold lowest_free.
  destruct (list_find (λ n, t !! n = None) (seq 0 (size t))) as [[i n]|] eqn:E; simpl.
  - by apply list_find_Some in E as (_ & ? & _).
  - destruct (t !! size t) as [v|] eqn:Hv; [|done]. exfalso.
    assert (set_seq 0 (S (size t)) ⊆ dom t) as Hsub.
    { intros n Hn%elem_of_set_seq. apply elem_of_dom.
      destruct (decide (n = size t)) as [->|]; [by rewrite Hv|].
      destruct (t !! n) eqn:Hn'; [done|]. exfalso.
      eapply list_find_None in E. eapply Forall_forall in E; [by apply E|].
      apply elem_of_seq. lia. }
    apply subseteq_size in Hsub. rewrite size_set_seq, size_dom in Hsub. lia.
Qed.



Section captured_fd_props.
Context {encoding_name : Type}.
Variable bytes_decode : encoding_name → bytes → outcome (list N).
Implicit Types (c : capture_cells (encoding_name:=encoding_name)).
Implicit Types (g : generator (encoding_name:=encoding_name)).







(** *** A capture session without system failures *)

Lemma write_at_append o content data :
  of_append o = true → write_at o content data = content ++ data.
Proof.
  intros Ha. unfold write_at, write_pos. rewrite Ha.
  rewrite firstn_all, Nat.sub_diag, drop_ge by lia. simpl. by rewrite app_nil_r.
Qed.

Lemma captured_fd_next_capturing fd d0 o0 content0 s :
  faults s = [] → fds s !! fd = Some d0 → open_files s !! d0 = Some o0 →
  files s !! of_file o0 = Some content0 →
  ∃ c s1, captured_fd_next (GenCreated fd None) s = (Return (), GenSuspended c, s1) ∧
    capturing fd d0 o0 content0 c [] s1.
Proof.
  destruct s as [t ofs fs fl]. simpl. intros -> Hfd Hd0 Hf0.
  unfold os_dup, TemporaryFile, os_dup2. simpl. rewrite Hfd. simpl.
  set (orig := lowest_free t).
  set (tfd := lowest_free (<[orig := d0]> t)).
  set (dt := fresh (dom ofs)). set (ft := fresh (dom fs)).
  assert (t !! orig = None) as Horig by apply lowest_free_free.
  assert (<[orig := d0]> t !! tfd = None) as Htfd by apply lowest_free_free.
  assert (ofs !! dt = None) as Hdt by (apply not_elem_of_dom, is_fresh).
  assert (fs !! ft = None) as Hft by (apply not_elem_of_dom, is_fresh).
  assert (fd ≠ orig) by congruence.
  assert (orig ≠ tfd) by (intros E; rewrite <- E, lookup_insert_eq in Htfd; done).
  assert (fd ≠ tfd).
  { intros E. rewrite <- E, lookup_insert_ne, Hfd in Htfd; done. }
  assert (dt ≠ d0) by congruence.
  assert (ft ≠ of_file o0) by congruence.
  rewrite lookup_insert_eq.
  eexists _, _. split; [reflexivity|].
  unfold capturing. simpl. split_and!; try done.
  - by rewrite !lookup_insert_ne, lookup_insert_eq by done.
  - by rewrite lookup_insert_ne.
  - by rewrite lookup_insert_ne.
  - exists dt, ft, 0. split_and!; try done.
    + by rewrite lookup_insert_eq.
    + by rewrite lookup_insert_ne, lookup_insert_eq.
    + by rewrite lookup_insert_eq.
    + by rewrite lookup_insert_eq.
Qed.

Lemma os_write_capturing fd d0 o0 content0 c content s data :
  capturing fd d0 o0 content0 c content s →
  ∃ s', os_write fd data s = (Return (length data), s') ∧
    capturing fd d0 o0 content0 c (content ++ data) s'.
Proof.
  intros (Hs & He & Hc & H1 & H2 & H3 & Hfl & Ho & Hd0 & Hf0 &
          dt & ft & pos & Hdt & Hft & Hfd & Htfd & Hofd & Hfile).
  unfold os_write. rewrite Hfd, Hofd. simpl. rewrite Hfile. simpl.
  eexists. split; [reflexivity|].
  unfold capturing. simpl. split_and!; try done.
  - by rewrite lookup_insert_ne.
  - by rewrite lookup_insert_ne.
  - eexists dt, ft, _. split_and!; try done.
    + by rewrite lookup_insert_eq.
    + by rewrite lookup_insert_eq, write_at_append.
Qed.

(** Reading the output in the middle of the scope returns what the file
    holds and moves only the offset. *)
Lemma get_output_cells_capturing fd d0 o0 content0 c content s :
  capturing fd d0 o0 content0 c content s →
  ∃ c' s', get_output_cells bytes_decode c s = (Return (Bytes content), c', s') ∧
    capturing fd d0 o0 content0 c' content s' ∧
    _output c' = content ∧ orig_stream c' = orig_stream c ∧
    temp_fileno c' = temp_fileno c.
Proof.
  intros (Hs & He & Hc & H1 & H2 & H3 & Hfl & Ho & Hd0 & Hf0 &
          dt & ft & pos & Hdt & Hft & Hfd & Htfd & Hofd & Hfile).
  unfold get_output_cells, read_output, file_seek, file_read.
  rewrite Hc, Htfd, Hofd. simpl. rewrite Htfd, lookup_insert_eq. simpl.
  rewrite Hfile, He. simpl.
  eexists _, _. split; [reflexivity|].
  unfold capturing. simpl. split_and!; try done.
  - by rewrite !lookup_insert_ne.
  - eexists dt, ft, _. split_and!; try done. by rewrite lookup_insert_eq.
Qed.

Lemma get_output_cells_untouched c s r c' s' :
  get_output_cells bytes_decode c s = (r, c', s') →
  fds s' = fds s ∧ files s' = files s.
Proof.
  unfold get_output_cells, read_output, file_seek, file_read.
  destruct (temp_closed c).
  { destruct (encoding c); [destruct (bytes_decode _ _)|]; by intros [= <- <- <-]. }
  destruct (fds s !! temp_fileno c) as [dt|] eqn:Hfd; [|by intros [= <- <- <-]].
  destruct (open_files s !! dt) as [o|] eqn:Ho; [|by intros [= <- <- <-]].
  simpl. rewrite Hfd, lookup_insert_eq. simpl.
  destruct (encoding c); [destruct (bytes_decode _ _)|]; by intros [= <- <- <-].
Qed.

Lemma run_body_capturing fd d0 o0 content0 body ends :
  writes_and_retrieves fd body →
  ∀ c content s log,
    capturing fd d0 o0 content0 c content s →
    ∃ c' s', run_body bytes_decode body ends log (GenSuspended c) s =
               (log ++ retrieved body content, ends, GenSuspended c', s') ∧
      capturing fd d0 o0 content0 c' (content ++ written body) s'.
Proof.
  induction 1 as [|a body Ha Hbody IH]; intros c content s log Hcap; simpl.
  { exists c, s. by rewrite !app_nil_r. }
  destruct Ha as [->|[data ->]].
  - destruct (get_output_cells_capturing _ _ _ _ _ _ _ Hcap)
      as (c1 & s1 & -> & Hcap1 & _).
    destruct (IH _ _ _ (log ++ [Bytes content]) Hcap1) as (c' & s' & -> & Hcap').
    exists c', s'. by rewrite <- app_assoc.
  - destruct (os_write_capturing _ _ _ _ _ _ _ data Hcap) as (s1 & -> & Hcap1).
    destruct (IH _ _ _ log Hcap1) as (c' & s' & -> & Hcap').
    exists c', s'. by rewrite app_assoc.
Qed.

(** Leaving the scope: [fd] is back on the description it had, the
    duplicate and the temporary file are closed, and the content is cached. *)
Lemma captured_fd_next_restores fd d0 o0 content0 c content s :
  capturing fd d0 o0 content0 c content s →
  ∃ c' s', captured_fd_next (GenSuspended c) s =
             (Raise StopIteration, GenFinished (Some c'), s') ∧
    _output c' = content ∧ temp_closed c' = true ∧ encoding c' = None ∧
    orig_stream c' = orig_stream c ∧ temp_fileno c' = temp_fileno c ∧
    fds s' !! fd = Some d0 ∧ fds s' !! orig_stream c = None ∧
    fds s' !! temp_fileno c = None ∧
    open_files s' !! d0 = Some o0 ∧ files s' !! of_file o0 = Some content0.
Proof.
  intros (Hs & He & Hc & H1 & H2 & H3 & Hfl & Ho & Hd0 & Hf0 &
          dt & ft & pos & Hdt & Hft & Hfd & Htfd & Hofd & Hfile).
  simpl. unfold os_dup2, read_output, file_seek, file_read. simpl.
  rewrite Hfl, Ho, Hs, Hc. simpl.
  rewrite lookup_insert_ne, Htfd, Hofd by done. simpl.
  rewrite lookup_insert_ne, Htfd, lookup_insert_eq by done. simpl.
  unfold leave_with, temp_file_close, os_close. simpl.
  rewrite lookup_insert_ne, Htfd by done. simpl.
  unfold finally_close, os_close. simpl.
  rewrite lookup_delete_ne, lookup_insert_ne, Ho by done. simpl.
  eexists _, _. split; [reflexivity|]. simpl. rewrite Hfile. split_and!; try done.
  - by rewrite !lookup_delete_ne, lookup_insert_eq.
  - by rewrite lookup_delete_eq.
  - by rewrite lookup_delete_ne, lookup_delete_eq.
  - by rewrite !lookup_insert_ne.
Qed.

(** After the scope [get_output] returns the cached content and touches
    nothing. *)
Lemma get_output_finished c s :
  temp_closed c = true → encoding c = None →
  get_output bytes_decode (GenFinished (Some c)) s =
    (Return (Bytes (_output c)), GenFinished (Some c), s).
Proof.
  intros Hc He. unfold get_output, get_output_cells, read_output. by rewrite Hc, He.
Qed.

(** C7. A capture of [fd] in which no system call fails for reasons of
    the system's own, and whose protected region writes to [fd] and calls
    [get_output], any number of times in any order, and completes. Each
    call in the scope returns exactly the bytes written to [fd] so far; it
    changes neither the descriptor table nor any file (this holds for every
    call of [get_output]), and later writes are still captured. After the
    scope the temporary file is closed, and [get_output] returns all the
    bytes written, from the cell filled at exit, leaving the state alone.
    [fd] is back on the description it had; the destination received
    nothing during the scope, and a write to [fd] now lands in it, while
    [get_output] keeps its answer. *)
Theorem captured_fd_retrieve fd d0 o0 content0 s body data :
  faults s = [] → fds s !! fd = Some d0 → open_files s !! d0 = Some o0 →
  files s !! of_file o0 = Some content0 →
  writes_and_retrieves fd body →
  ∃ c s',
    with_captured_fd bytes_decode fd None body None s =
      (Return (retrieved body []), GenFinished (Some c), s') ∧
    temp_closed c = true ∧ fds s' !! temp_fileno c = None ∧
    get_output bytes_decode (GenFinished (Some c)) s' =
      (Return (Bytes (written body)), GenFinished (Some c), s') ∧
    fds s' !! fd = Some d0 ∧ open_files s' !! d0 = Some o0 ∧
    files s' !! of_file o0 = Some content0 ∧
    files (os_write fd data s').2 !! of_file o0 = Some (write_at o0 content0 data) ∧
    get_output bytes_decode (GenFinished (Some c)) (os_write fd data s').2 =
      (Return (Bytes (written body)), GenFinished (Some c), (os_write fd data s').2) ∧
    ∀ c0 s0 r c1 s1, get_output_cells bytes_decode c0 s0 = (r, c1, s1) →
                     fds s1 = fds s0 ∧ files s1 = files s0.
Proof.
  intros Hfl Hfd Hd0 Hf0 Hbody.
  destruct (captured_fd_next_capturing _ _ _ _ _ Hfl Hfd Hd0 Hf0) as (c1 & s1 & Henter & Hcap1).
  destruct (run_body_capturing _ _ _ _ _ None Hbody _ _ _ [] Hcap1)
    as (c2 & s2 & Hrun & Hcap2).
  destruct (captured_fd_next_restores _ _ _ _ _ _ _ Hcap2)
    as (c3 & s3 & Hexit & Hout & Hclosed & Henc & Horig & Htemp &
        Hback & Hdup & Htmp & Hofd & Hfile).
  simpl in Hout, Hrun.
  exists c3, s3. split_and!; try done.
  - unfold with_captured_fd, with_statement, __enter__, __exit__, captured_fd.
    rewrite Henter, Hrun, Hexit. by simpl.
  - by rewrite Htemp.
  - rewrite <- Hout. by apply get_output_finished.
  - unfold os_write. rewrite Hback, Hofd, Hfile. simpl. by rewrite lookup_insert_eq.
  - rewrite <- Hout. by apply get_output_finished.
  - apply get_output_cells_untouched.
Qed.

(** C10. The same capture, with a protected region that ends by raising
    [e]: [__exit__] resumes the generator, which runs to its end. [fd] is
    back on the description it had, the duplicate and the temporary file
    are closed, the bytes written are cached, so that [get_output] returns
    them after the scope, and [e] propagates out of the [with] statement. *)
Theorem captured_fd_exceptional_exit fd d0 o0 content0 s body e :
  faults s = [] → fds s !! fd = Some d0 → open_files s !! d0 = Some o0 →
  files s !! of_file o0 = Some content0 →
  writes_and_retrieves fd body →
  ∃ c s',
    with_captured_fd bytes_decode fd None body (Some e) s =
      (Raise e, GenFinished (Some c), s') ∧
    fds s' !! fd = Some d0 ∧ open_files s' !! d0 = Some o0 ∧
    fds s' !! orig_stream c = None ∧
    temp_closed c = true ∧ fds s' !! temp_fileno c = None ∧
    _output c = written body ∧
    get_output bytes_decode (GenFinished (Some c)) s' =
      (Return (Bytes (written body)), GenFinished (Some c), s').
Proof.
  intros Hfl Hfd Hd0 Hf0 Hbody.
  destruct (captured_fd_next_capturing _ _ _ _ _ Hfl Hfd Hd0 Hf0) as (c1 & s1 & Henter & Hcap1).
  destruct (run_body_capturing _ _ _ _ _ (Some e) Hbody _ _ _ [] Hcap1)
    as (c2 & s2 & Hrun & Hcap2).
  destruct (captured_fd_next_restores _ _ _ _ _ _ _ Hcap2)
    as (c3 & s3 & Hexit & Hout & Hclosed & Henc & Horig & Htemp &
        Hback & Hdup & Htmp & Hofd & Hfile).
  simpl in Hout, Hrun.
  exists c3, s3. split_and!; try done.
  - unfold with_captured_fd, with_statement, __enter__, __exit__, captured_fd.
    rewrite Henter, Hrun, Hexit. by simpl.
  - by rewrite Horig.
  - by rewrite Htemp.
  - rewrite <- Hout. by apply get_output_finished.
Qed.

End captured_fd_props.


(** Standard error is captured; the region writes two bytes, looks, writes
    one more and looks again. *)
Lemma captured_fd_retrieve_witness :
  ∃ c s',
    with_captured_fd codec_decode 2 None
        [Write 2 [x61; x62]; Retrieve; Write 2 [x63]; Retrieve] None three_streams =
      (Return [Bytes [x61; x62]; Bytes [x61; x62; x63]], GenFinished (Some c), s') ∧
    get_output codec_decode (GenFinished (Some c)) s' =
      (Return (Bytes [x61; x62; x63]), GenFinished (Some c), s') ∧
    fds s' !! 2 = Some 2 ∧
    files (os_write 2 [x64] s').2 !! 2 = Some [x41; x64].
Proof.
  destruct (captured_fd_retrieve codec_decode 2 2 (OpenFile 2 0 true) [x41] three_streams
              [Write 2 [x61; x62]; Retrieve; Write 2 [x63]; Retrieve] [x64])
    as (c & s' & Hrun & _ & _ & Hget & Hfd & _ & _ & Hwrite & _);
    [reflexivity.. | |].
  - repeat (apply Forall_cons_2; [first [left; reflexivity | right; eexists; reflexivity]|]).
    apply Forall_nil_2.
  - exists c, s'. split_and!; [exact Hrun | exact Hget | exact Hfd | exact Hwrite].
Defined.

(** The same capture, left by an exception. *)
Lemma captured_fd_exceptional_exit_witness :
  ∃ c s',
    with_captured_fd codec_decode 2 None [Write 2 [x61; x62]; Write 2 [x63]]
        (Some (Exception 7)) three_streams =
      (Raise (Exception 7), GenFinished (Some c), s') ∧
    fds s' !! 2 = Some 2 ∧
    get_output codec_decode (GenFinished (Some c)) s' =
      (Return (Bytes [x61; x62; x63]), GenFinished (Some c), s').
Proof.
  destruct (captured_fd_exceptional_exit codec_decode 2 2 (OpenFile 2 0 true) [x41]
              three_streams [Write 2 [x61; x62]; Write 2 [x63]] (Exception 7))
    as (c & s' & Hrun & Hfd & _ & _ & _ & _ & _ & Hget);
    [reflexivity.. | |].
  - repeat (apply Forall_cons_2; [first [left; reflexivity | right; eexists; reflexivity]|]).
    apply Forall_nil_2.
  - exists c, s'. split_and!; [exact Hrun | exact Hfd | exact Hget].
Defined.

(** ** Decoding captured output *)

Lemma dropwhile_nil {A : Type} (P : A → bool) (l : list A) :
  dropwhile P l = [] ↔ forallb P l = true.
Proof.
  induction l as [|x l IH]; simpl; [done|].
  destruct (P x); simpl; [done|]. split; discriminate.
Qed.

(** Dropping repeats and filtering commute. *)
Lemma first_occurrences_filter {A : Type} `{EqDecision A}
    (P : A → Prop) `{∀ x, Decision (P x)} (l : list A) :
  first_occurrences (filter P l) = filter P (first_occurrences l).
Proof.
  induction l as [|x l IH]; [done|].
  rewrite filter_cons. simpl. rewrite filter_cons.
  destruct (decide (P x)) as [Hx|Hx]; simpl.
  - rewrite IH. f_equal. rewrite !list_filter_filter.
    apply list_filter_iff. tauto.
  - rewrite IH, list_filter_filter. apply list_filter_iff.
    intros y. split; [|tauto]. intros Hy. split; [done|]. by intros ->.
Qed.

Section prepare_captured_props.
Context {encoding_name : Type} `{EqDecision encoding_name}.
Variable bytes_decode : encoding_name → bytes → outcome (list N).
Implicit Types (sys : sys_module (encoding_name:=encoding_name)).

(** Nothing is left after [strip] exactly when every byte is white space. *)
Lemma bytes_strip_nil (b : bytes) :
  bytes_strip b = [] ↔ forallb is_space b = true.
Proof.
  unfold bytes_strip. rewrite <- dropwhile_nil.
  destruct (dropwhile is_space b) as [|x l] eqn:E; [done|].
  assert (is_space x = false) as Hx.
  { clear -E. induction b as [|y b IH]; simpl in E; [done|].
    destruct (is_space y) eqn:Hy; [by apply IH | by injection E as -> _]. }
  split; [|done]. intros Hnil.
  apply (f_equal (@rev byte)) in Hnil. rewrite rev_involutive in Hnil. simpl in Hnil.
  apply dropwhile_nil in Hnil. rewrite forallb_app in Hnil. simpl in Hnil.
  rewrite Hx, andb_false_r in Hnil. discriminate.
Qed.

Lemma foldl_add_candidate (streams : list (option encoding_name)) candidates :
  NoDup candidates →
  let result := foldl add_candidate candidates streams in
  candidates `prefix_of` result ∧ NoDup result ∧
  (∀ enc, enc ∈ result ↔ enc ∈ candidates ∨ Some enc ∈ streams) ∧
  result `sublist_of` candidates ++ omap id streams.
Proof.
  revert candidates. induction streams as [|o streams IH]; intros candidates Hnd; simpl.
  { split_and!; [done | done | | by rewrite app_nil_r].
    intros enc. split; [by left|]. intros [?|Hin]; [done|]. by apply elem_of_nil in Hin. }
  assert (NoDup (add_candidate candidates o)) as Hnd'.
  { destruct o as [enc|]; simpl; [|done]. case_bool_decide; [done|].
    apply NoDup_app. split_and!; [done | | apply NoDup_singleton].
    intros x Hx ->%list_elem_of_singleton. done. }
  destruct (IH _ Hnd') as (Hpre & Hnd'' & Hmem & Hsub).
  split_and!; [|done| |].
  - etrans; [|exact Hpre]. destruct o as [enc|]; simpl; [|done].
    case_bool_decide; [done|]. by apply prefix_app_r.
  - intros enc. rewrite Hmem, elem_of_cons. destruct o as [enc'|]; simpl.
    + case_bool_decide as Hin.
      * split; [tauto|].
        intros [?|[Heq|?]]; [tauto | injection Heq as ->; tauto | tauto].
      * rewrite elem_of_app, list_elem_of_singleton.
        split; [intros [[?| ->]|?]; tauto|].
        intros [?|[Heq|?]]; [tauto | injection Heq as ->; tauto | tauto].
    + split; [tauto|]. intros [?|[?|?]]; [tauto | done | tauto].
  - etrans; [exact Hsub|]. destruct o as [enc|]; simpl; [|done].
    case_bool_decide; [|by rewrite <- app_assoc].
    apply sublist_app; [done|]. by apply sublist_cons.
Qed.

(** The loop appends the encodings that are new, each where it occurs
    first. *)
Lemma foldl_add_candidate_order (streams : list (option encoding_name)) candidates :
  foldl add_candidate candidates streams =
    candidates ++ first_occurrences (filter (λ enc, enc ∉ candidates) (omap id streams)).
Proof.
  revert candidates. induction streams as [|[enc|] streams IH]; intros candidates; simpl.
  - by rewrite app_nil_r.
  - rewrite IH, filter_cons. case_bool_decide as Hin.
    + by rewrite decide_False by tauto.
    + rewrite decide_True by done. simpl. rewrite <- app_assoc. simpl. do 2 f_equal.
      rewrite <- first_occurrences_filter, list_filter_filter. f_equal.
      apply list_filter_iff. intros x.
      rewrite elem_of_app, list_elem_of_singleton. tauto.
  - apply IH.
Qed.

Lemma get_encoding_candidates_order sys :
  get_encoding_candidates sys =
    first_occurrences
      (getdefaultencoding sys ::
         omap id [stdout_encoding sys; stdin_encoding sys;
                  __stdout__encoding sys; __stdin__encoding sys]).
Proof.
  change (get_encoding_candidates sys)
    with (foldl add_candidate [getdefaultencoding sys]
            [stdout_encoding sys; stdin_encoding sys;
             __stdout__encoding sys; __stdin__encoding sys]).
  rewrite foldl_add_candidate_order.
  cbn [first_occurrences app]. f_equal.
  rewrite first_occurrences_filter. apply list_filter_iff. intros x.
  by rewrite list_elem_of_singleton.
Qed.

(** The candidates: the default encoding first, then the encodings of the
    streams that have one, in the order [stdout], [stdin], [__stdout__],
    [__stdin__], each once. *)
Lemma get_encoding_candidates_spec sys :
  let streams := [stdout_encoding sys; stdin_encoding sys;
                  __stdout__encoding sys; __stdin__encoding sys] in
  [getdefaultencoding sys] `prefix_of` get_encoding_candidates sys ∧
  NoDup (get_encoding_candidates sys) ∧
  (∀ enc, enc ∈ get_encoding_candidates sys ↔
          enc = getdefaultencoding sys ∨ Some enc ∈ streams) ∧
  get_encoding_candidates sys `sublist_of` getdefaultencoding sys :: omap id streams.
Proof.
  intros streams.
  destruct (foldl_add_candidate streams [getdefaultencoding sys])
    as (Hpre & Hnd & Hmem & Hsub); [apply NoDup_singleton|].
  split_and!; [done | done | | done].
  intros enc.
  change (get_encoding_candidates sys)
    with (foldl add_candidate [getdefaultencoding sys] streams).
  by rewrite Hmem, list_elem_of_singleton.
Qed.

Lemma prepare_captured_loop_spec candidates b :
  (∀ enc e, enc ∈ candidates → bytes_decode enc b = Raise e → e = UnicodeDecodeError) →
  ∃ t, prepare_captured_loop bytes_decode candidates b = Return (Some t) ∧
       first_decoding bytes_decode candidates b t.
Proof.
  induction candidates as [|enc rest IH]; intros Hraise; simpl.
  { eexists. split; [done|]. right. split; [|done].
    intros enc Hin. by apply elem_of_nil in Hin. }
  destruct (bytes_decode enc b) as [t|e] eqn:E.
  - exists t. split; [done|]. left. exists [], enc, rest. split_and!; [done..|].
    intros enc' Hin. by apply elem_of_nil in Hin.
  - assert (e = UnicodeDecodeError) as -> by (eapply Hraise; [left | done]).
    rewrite bool_decide_eq_true_2 by done.
    destruct IH as (t & -> & Hfirst).
    { intros enc' e' Hin. apply Hraise. by right. }
    exists t. split; [done|].
    destruct Hfirst as [(before & enc1 & after & -> & Hok & Hbefore)|[Hall ->]].
    + left. exists (enc :: before), enc1, after. split_and!; [done..|].
      intros enc' [->|Hin]%elem_of_cons; [done | by apply Hbefore].
    + right. split; [|done]. intros enc' [->|Hin]%elem_of_cons; [done | by apply Hall].
Qed.

(** C4, amended. Provided that decoding with a candidate encoding raises
    nothing but [UnicodeDecodeError] and that no candidate decodes a
    non-empty byte string to the empty text: [prepare_captured] never
    raises. It strips white space from both ends of the input. When nothing
    is left, that is when the input is empty or all white space, it returns
    [None]. Otherwise it returns a string, which is not empty: the first
    decoding of the stripped bytes that succeeds, the candidates being
    tried in their order, or, when none succeeds, their Latin-1 decoding,
    one character for each byte. The candidates are the default encoding
    and the encodings of [stdout], [stdin], [__stdout__] and [__stdin__],
    all of them and nothing else, in this order, each once, where it
    occurs first. *)
Theorem prepare_captured_decodes sys captured :
  (∀ enc b e, enc ∈ get_encoding_candidates sys →
              bytes_decode enc b = Raise e → e = UnicodeDecodeError) →
  (∀ enc b t, enc ∈ get_encoding_candidates sys →
              bytes_decode enc b = Return t → b ≠ [] → t ≠ []) →
  (∃ o, prepare_captured bytes_decode sys captured = Return o ∧
     (forallb is_space captured = true → o = None) ∧
     (forallb is_space captured = false →
      ∃ t, o = Some t ∧ t ≠ [] ∧
           first_decoding bytes_decode (get_encoding_candidates sys) (bytes_strip captured) t)) ∧
  [getdefaultencoding sys] `prefix_of` get_encoding_candidates sys ∧
  NoDup (get_encoding_candidates sys) ∧
  get_encoding_candidates sys `sublist_of`
    getdefaultencoding sys ::
      omap id [stdout_encoding sys; stdin_encoding sys;
               __stdout__encoding sys; __stdin__encoding sys] ∧
  (∀ enc, enc ∈ get_encoding_candidates sys ↔
          enc = getdefaultencoding sys ∨
          Some enc ∈ [stdout_encoding sys; stdin_encoding sys;
                      __stdout__encoding sys; __stdin__encoding sys]) ∧
  get_encoding_candidates sys =
    first_occurrences
      (getdefaultencoding sys ::
         omap id [stdout_encoding sys; stdin_encoding sys;
                  __stdout__encoding sys; __stdin__encoding sys]).
Proof.
  intros Hraise Hnonempty.
  destruct (get_encoding_candidates_spec sys) as (Hpre & Hnd & Hmem & Hsub).
  split_and!; [|done..|apply get_encoding_candidates_order].
  unfold prepare_captured. case_bool_decide as Hstrip.
  - exists None. split; [done|]. split; [done|].
    apply bytes_strip_nil in Hstrip. congruence.
  - destruct (prepare_captured_loop_spec (get_encoding_candidates sys) (bytes_strip captured))
      as (t & -> & Hfirst).
    { intros enc e. apply Hraise. }
    exists (Some t). split; [done|]. split.
    + intros Hall%bytes_strip_nil. done.
    + intros _. exists t. split_and!; [done | | done].
      destruct Hfirst as [(before & enc & after & Hc & Hok & _)|[_ ->]].
      * eapply Hnonempty; [|exact Hok|done]. rewrite Hc.
        apply elem_of_app. right. by left.
      * unfold latin_1_decode. by destruct (bytes_strip captured).
Qed.

End prepare_captured_props.

Example prepare_captured_latin_1 :
  prepare_captured codec_decode ascii_process [x20; xe9; x0a] = Return (Some [233%N]).
Proof. reflexivity. Qed.

Example spec_decode_best_effort_example :
  spec_decode_best_effort [x20; xe9; x0a]
    (prepare_captured codec_decode ascii_process [x20; xe9; x0a]).
Proof. eexists. split; [reflexivity|]. intros _. by eexists. Qed.

(** C4, as stated, fails on an input that is not empty but all white
    space: the function returns [None], not a non-empty string. *)
Lemma prepare_captured_counterexample :
  prepare_captured codec_decode ascii_process [x20; x0a] = Return None ∧
  ¬ spec_decode_best_effort [x20; x0a]
      (prepare_captured codec_decode ascii_process [x20; x0a]).
Proof.
  split; [reflexivity|].
  intros (o & Hrun & Hsome). injection Hrun as <-.
  by destruct Hsome as (t & ? & _).
Qed.

Lemma prepare_captured_decodes_witness :
  (∃ o, prepare_captured codec_decode ascii_process [x20; xe9; x0a] = Return o ∧
     (forallb is_space [x20; xe9; x0a] = true → o = None) ∧
     (forallb is_space [x20; xe9; x0a] = false →
      ∃ t, o = Some t ∧ t ≠ [] ∧
           first_decoding codec_decode (get_encoding_candidates ascii_process)
             (bytes_strip [x20; xe9; x0a]) t)) ∧
  [getdefaultencoding ascii_process] `prefix_of` get_encoding_candidates ascii_process ∧
  NoDup (get_encoding_candidates ascii_process) ∧
  get_encoding_candidates ascii_process `sublist_of`
    getdefaultencoding ascii_process ::
      omap id [stdout_encoding ascii_process; stdin_encoding ascii_process;
               __stdout__encoding ascii_process; __stdin__encoding ascii_process] ∧
  (∀ enc, enc ∈ get_encoding_candidates ascii_process ↔
          enc = getdefaultencoding ascii_process ∨
          Some enc ∈ [stdout_encoding ascii_process; stdin_encoding ascii_process;
                      __stdout__encoding ascii_process; __stdin__encoding ascii_process]) ∧
  get_encoding_candidates ascii_process =
    first_occurrences
      (getdefaultencoding ascii_process ::
         omap id [stdout_encoding ascii_process; stdin_encoding ascii_process;
                  __stdout__encoding ascii_process; __stdin__encoding ascii_process]).
Proof.
  apply (prepare_captured_decodes codec_decode ascii_process [x20; xe9; x0a]).
  - intros enc b e _. destruct enc; simpl; [|done].
    destruct (forallb _ b); [done|]. by intros [= <-].
  - intros enc b t _. destruct enc; simpl.
    + destruct (forallb _ b); [|done]. intros [= <-]. by destruct b.
    + intros [= <-]. by destruct b.
Defined.

(** * Part IV: further properties of the embedded code *)

(** ** The function level cache: failures and other entries *)

Section cached_function_more.
Context {Args Res World : Type} `{Countable Args}.
Implicit Types (st : memo_state Args Res World).


(** On a function that keeps to [world] the wrapper for nested calls is
    the wrapper. *)
Lemma nested_wrapper_on_world cache f args st :
  nested_wrapper cache (on_world f) args st = wrapper cache f args st.
Proof.
  unfold nested_wrapper, wrapper, on_world. simpl.
  destruct (default ∅ (_function_caches st !! cache) !! args); [done|].
  by destruct (f args (world st)) as [[res|e] w].
Qed.

(** X2. A call through a wrapper never evicts and never overwrites: every
    entry that is cached when the call starts, in the cache of the wrapper
    or in any other, is cached with the same value when the call has ended,
    provided the underlying function does no less. The guarantee passes
    from a function to its wrapper, so it holds for decorated functions
    that call decorated functions, at any depth, where one call adds
    entries to several caches. *)
Theorem cached_function_keeps_entries cache
    (f : Args → memo_state Args Res World → outcome Res * memo_state Args Res World) :
  (∀ args st, entries_kept st (f args st).2) →
  ∀ args st, entries_kept st (nested_wrapper cache f args st).2.
Proof.
  intros Hf args st j a v Hv. unfold nested_wrapper.
  destruct (default ∅ (_function_caches st !! cache) !! args) as [res|] eqn:Hget; [done|].
  pose proof (Hf args (MemoState (_function_caches st) (world st)
                         (invocations st ++ [(cache, args)])) j a v Hv) as Hkept.
  destruct (f args _) as [[res|e] st1]; simpl in *; [|done].
  unfold cached_value in *. simpl.
  destruct (decide (j = cache)) as [->|Hj]; [|by rewrite list_lookup_insert_ne by done].
  destruct (_function_caches st1 !! cache) as [c|] eqn:Hc; [|done].
  rewrite list_lookup_insert_eq by (by eapply lookup_lt_Some). simpl in *.
  rewrite lookup_insert_ne; [done|]. intros <-. congruence.
Qed.

End cached_function_more.


(** A call of the outer function adds an entry to each of the two caches
    and keeps the one that was there. *)
Lemma cached_function_keeps_entries_witness :
  let st := (nested_wrapper 1 successor 5 two_functions).2 in
  let st' := (nested_wrapper 0 twice_successor 7 st).2 in
  cached_value 1 5 st = Some 6 ∧ cached_value 1 5 st' = Some 6 ∧
  cached_value 1 7 st' = Some 8 ∧ cached_value 0 7 st' = Some 16.
Proof.
  intros st st'. split_and!; [reflexivity | | reflexivity..].
  apply (cached_function_keeps_entries 0 twice_successor); [|reflexivity].
  intros args st0. unfold twice_successor.
  pose proof (cached_function_keeps_entries 1 successor
                (λ _ st1 cache a res Hres, Hres) args st0) as Hinner.
  by destruct (nested_wrapper 1 successor args st0) as [[y|e] st1].
Defined.

(** ** The context manager: what leaving the region can do *)

Section context_manager_more.
Context {G S Y A : Type}.
Variable next : G → S → outcome Y * G * S.

(** X3. Once [__enter__] has returned, the generator is resumed exactly
    once when the region is left, however it is left; the statement
    completes normally only if the region did; and when the region raises,
    the statement raises that exception, unless resuming the generator
    raises one of its own other than [StopIteration] and [GeneratorExit],
    which then takes its place. *)
Theorem with_statement_never_swallows gen (body : G → S → A * option exn * G * S) s
    y gen1 s1 a exc gen2 s2 :
  __enter__ next gen s = (Return y, gen1, s1) →
  body gen1 s1 = (a, exc, gen2, s2) →
  let res := with_statement next gen body s in
  res.1.2 = (next gen2 s2).1.2 ∧ res.2 = (next gen2 s2).2 ∧
  (∀ a', res.1.1 = Return a' → exc = None ∧ a' = a) ∧
  (∀ e, exc = Some e →
     ∃ e', res.1.1 = Raise e' ∧
       (e' = e ∨
        (next gen2 s2).1.1 = Raise e' ∧ e' ≠ StopIteration ∧ e' ≠ GeneratorExit)).
Proof.
  intros Henter Hbody. unfold with_statement. rewrite Henter, Hbody.
  unfold __exit__. destruct (next gen2 s2) as [[[y'|e'] gen3] s3]; simpl.
  - destruct exc as [e0|]; simpl; split_and!; try done.
    + intros e [= ->]. exists e. split; [done | by left].
    + by intros a' [= ->].
  - case_bool_decide as He'; simpl.
    + destruct exc as [e0|]; simpl; split_and!; try done.
      * intros e [= ->]. exists e. split; [done | by left].
      * by intros a' [= ->].
    + split_and!; [done | done | done |].
      intros e ->. exists e'. split; [done|]. right.
      split; [done|]. split; intros ->; apply He'; [by left | by right].
Qed.

End context_manager_more.

(** The capture of standard error, left by an exception of the region. *)
Lemma with_statement_never_swallows_witness :
  ∃ e', (with_statement captured_fd_next (captured_fd 2 (None : option codec))
           (run_body codec_decode [Write 2 [x61]] (Some (Exception 7)) [])
           three_streams).1.1 = Raise e' ∧
        (e' = Exception 7 ∨ e' ≠ StopIteration).
Proof.
  destruct (with_statement_never_swallows captured_fd_next
              (captured_fd 2 (None : option codec))
              (run_body codec_decode [Write 2 [x61]] (Some (Exception 7)) [])
              three_streams
              ()
              (__enter__ captured_fd_next (captured_fd 2 (None : option codec))
                 three_streams).1.2
              (__enter__ captured_fd_next (captured_fd 2 (None : option codec))
                 three_streams).2
              []
              (Some (Exception 7))
              (GenSuspended outer_cells)
              outer_capture)
    as (_ & _ & _ & Hraises); [reflexivity | reflexivity |].
  destruct (Hraises (Exception 7) eq_refl) as (e' & He' & Hwhich).
  exists e'. split; [exact He'|].
  destruct Hwhich as [->|(_ & Hne & _)]; [by left | by right].
Defined.

(** ** Captured streams: an acquisition that fails *)

Section captured_fd_more.
Context {encoding_name : Type}.

(** X4. When entering [captured_fd] fails, because [os.dup],
    [TemporaryFile] or [os.dup2] fails, the descriptor table of the process
    is what it was: the duplicate and the temporary file have been closed
    again, and the stream is where it was. The generator is finished, and
    what is raised is the failure of the system call. *)
Theorem captured_fd_failed_entry stream (enc : option encoding_name) s e g s' :
  __enter__ captured_fd_next (captured_fd stream enc) s = (Raise e, g, s') →
  fds s' = fds s ∧ g = GenFinished None ∧
  e ∈ [OSError "dup"; OSError "TemporaryFile"; OSError "dup2"].
Proof.
  unfold __enter__, captured_fd, captured_fd_next, os_dup, TemporaryFile, os_dup2,
    finally_close, leave_with, temp_file_close, os_close, take_fault, set_fds.
  destruct s as [t ofs fs fl]. simpl.
  destruct (t !! stream) as [d|] eqn:Hstream; simpl;
    [|intros [= <- <- <-]; simpl; split_and!; [done | done | set_solver]].
  destruct (default false (head fl)); simpl;
    [intros [= <- <- <-]; simpl; split_and!; [done | done | set_solver]|].
  pose proof (lowest_free_free t) as Hfree.
  set (orig := lowest_free t) in *.
  destruct (default false (head (tail fl))); simpl.
  { rewrite lookup_insert_eq. simpl. intros [= <- <- <-]. simpl.
    split_and!; [|done|set_solver].
    by rewrite delete_insert_id. }
  pose proof (lowest_free_free (<[orig := d]> t)) as Hfree'.
  set (fileno := lowest_free (<[orig := d]> t)) in *.
  assert (fileno ≠ orig) as Hne.
  { intros Heq. rewrite Heq, lookup_insert_eq in Hfree'. done. }
  rewrite lookup_insert_eq. simpl.
  destruct (default false (head (tail (tail fl)))); simpl; [|done].
  rewrite lookup_insert_eq. simpl.
  rewrite lookup_delete_ne, lookup_insert_ne, lookup_insert_eq by done. simpl.
  intros [= <- <- <-]. simpl. split_and!; [|done|set_solver].
  rewrite delete_insert_id by done.
  by rewrite delete_insert_id.
Qed.

End captured_fd_more.

(** Standard error is to be captured, and the second fallible call,
    [TemporaryFile], fails. *)
Lemma captured_fd_failed_entry_witness :
  fds (__enter__ captured_fd_next (captured_fd 2 (None : option codec))
         failing_temporary_file).2 = fds failing_temporary_file.
Proof.
  destruct (captured_fd_failed_entry 2 (None : option codec) failing_temporary_file
              (OSError "TemporaryFile") (GenFinished None)
              (__enter__ captured_fd_next (captured_fd 2 (None : option codec))
                 failing_temporary_file).2) as (Hfds & _); [reflexivity|].
  exact Hfds.
Defined.

(** ** Package directories: files of one directory *)

Section package_dir_more.
Variable w : file_world.

(** The function as its body reads. *)
Lemma find_root_package_dir_body file_path :
  find_root_package_dir w file_path =
    if decide (file_path = os_path_dirname file_path) then os_path_dirname file_path
    else if truthy (is_package_dir w (os_path_dirname file_path))
         then find_root_package_dir w (os_path_dirname file_path)
         else os_path_dirname file_path.
Proof.
  funelim (find_root_package_dir w file_path).
  - by rewrite decide_True.
  - by rewrite decide_False, Heq.
  - by rewrite decide_False, Heq.
Qed.

(** X5. The root package directory of a file depends on the directory of
    the file only: two paths with the same [dirname], such as two modules
    of one directory, have the same root package directory. *)
Theorem find_root_package_dir_same_directory a b :
  os_path_dirname a = os_path_dirname b →
  find_root_package_dir w a = find_root_package_dir w b.
Proof.
  intros Hdir.
  assert (∀ x y, os_path_dirname x = os_path_dirname y → x = os_path_dirname x →
                 find_root_package_dir w x = find_root_package_dir w y) as Hfix.
  { intros x y Hxy Hx.
    rewrite (find_root_package_dir_body x), (find_root_package_dir_body y).
    rewrite decide_True by done. rewrite <- Hxy.
    destruct (decide (y = os_path_dirname x)); [done|].
    destruct (truthy _); [|done].
    rewrite (find_root_package_dir_body (os_path_dirname x)).
    rewrite <- Hx. by rewrite decide_True. }
  destruct (decide (a = os_path_dirname a)) as [Ha|Ha]; [by apply Hfix|].
  destruct (decide (b = os_path_dirname b)) as [Hb|Hb]; [symmetry; by apply Hfix|].
  rewrite (find_root_package_dir_body a), (find_root_package_dir_body b).
  rewrite !decide_False by done. by rewrite Hdir.
Qed.

End package_dir_more.

Lemma find_root_package_dir_same_directory_witness :
  find_root_package_dir one_package "/a/b/mod.py" =
  find_root_package_dir one_package "/a/b/other.pxd".
Proof. apply (find_root_package_dir_same_directory one_package); reflexivity. Defined.

(** ** Versioned files: which of several candidates is returned *)

Section find_versioned_file_more.
Variable w : file_world.

(** The loop keeps [best_match] or replaces it by a candidate whose version
    is above the versions within reach that come before it in the scan, and
    not below those that come after it. *)
Lemma find_versioned_file_loop_first cur files best :
  (find_versioned_file_loop cur files best = best ∧
   ∀ p v, p ∈ files → version_of p = Some v → ¬ (best.1 < v ≤ cur)%Z) ∨
  (∃ before p after v,
     files = before ++ p :: after ∧
     find_versioned_file_loop cur files best = (v, Some p) ∧
     version_of p = Some v ∧ (best.1 < v ≤ cur)%Z ∧
     (∀ q v', q ∈ before → version_of q = Some v' → (v' ≤ cur)%Z → (v' < v)%Z) ∧
     (∀ q v', q ∈ after → version_of q = Some v' → (v' ≤ cur)%Z → (v' ≤ v)%Z)).
Proof.
  revert best. induction files as [|q rest IH]; intros best.
  { left. split; [done|]. intros p v Hin. by apply elem_of_nil in Hin. }
  rewrite find_versioned_file_loop_eq.
  assert (∀ before p after v,
            find_versioned_file_loop cur rest best = (v, Some p) →
            rest = before ++ p :: after →
            version_of p = Some v → (best.1 < v ≤ cur)%Z →
            (∀ q v', q ∈ before → version_of q = Some v' → (v' ≤ cur)%Z → (v' < v)%Z) →
            (∀ q v', q ∈ after → version_of q = Some v' → (v' ≤ cur)%Z → (v' ≤ v)%Z) →
            (∀ vq, version_of q = Some vq → (vq ≤ cur)%Z → (vq ≤ best.1)%Z) →
            ∃ before' p' after' v',
              q :: rest = before' ++ p' :: after' ∧
              find_versioned_file_loop cur rest best = (v', Some p') ∧
              version_of p' = Some v' ∧ (best.1 < v' ≤ cur)%Z ∧
              (∀ q v'', q ∈ before' → version_of q = Some v'' → (v'' ≤ cur)%Z → (v'' < v')%Z) ∧
              (∀ q v'', q ∈ after' → version_of q = Some v'' → (v'' ≤ cur)%Z → (v'' ≤ v')%Z))
    as Hskip.
  { intros before p after v Hloop -> Hp Hv Hbefore Hafter Hq.
    exists (q :: before), p, after, v.
    split; [done|]. split; [done|]. split; [done|]. split; [done|]. split; [|done].
    intros q' v' [->|Hin]%elem_of_cons Hq' Hv'; [|by eapply Hbefore].
    specialize (Hq v' Hq' Hv'). lia. }
  destruct (version_of q) as [vq|] eqn:Hq.
  - destruct ((best.1 <? vq)%Z && (vq <=? cur)%Z) eqn:Hbetter.
    + apply andb_true_iff in Hbetter as [Hlt%Z.ltb_lt Hle%Z.leb_le].
      destruct (IH (vq, Some q)) as [[-> Hnone]|
        (before & p & after & v & -> & -> & Hp & Hv & Hbefore & Hafter)]; simpl in *.
      * right. exists [], q, rest, vq.
        split; [done|]. split; [done|]. split; [done|]. split; [lia|]. split.
        -- intros q' v' Hin. by apply elem_of_nil in Hin.
        -- intros q' v' Hin Hq' Hv'. specialize (Hnone q' v' Hin Hq'). lia.
      * right. exists (q :: before), p, after, v.
        split; [done|]. split; [done|]. split; [done|]. split; [lia|]. split; [|done].
        intros q' v' [->|Hin]%elem_of_cons Hq' Hv'; [|by eapply Hbefore].
        rewrite Hq in Hq'. injection Hq' as <-. lia.
    + assert (∀ v, Some vq = Some v → (v ≤ cur)%Z → (v ≤ best.1)%Z) as Hvq.
      { intros v [= <-] Hle. apply andb_false_iff in Hbetter.
        destruct Hbetter as [?%Z.ltb_ge|?%Z.leb_gt]; lia. }
      destruct (IH best) as [[-> Hnone]|
        (before & p & after & v & Hrest & Hloop & Hp & Hv & Hbefore & Hafter)].
      * left. split; [done|].
        intros p v [->|Hin]%elem_of_cons Hp; [|by apply (Hnone p v)].
        rewrite Hq in Hp. intros Hv. specialize (Hvq v Hp). lia.
      * right. by eapply Hskip.
  - destruct (IH best) as [[-> Hnone]|
      (before & p & after & v & Hrest & Hloop & Hp & Hv & Hbefore & Hafter)].
    + left. split; [done|].
      intros p v [->|Hin]%elem_of_cons Hp; [congruence | by apply (Hnone p v)].
    + right. by eapply Hskip.
Qed.

(** X6. Among the candidates that [glob] returns, [find_versioned_file]
    picks by version and, between equal versions, by the order of the scan:
    the path returned is the unversioned file (no candidate carrying a
    version within reach), or the first candidate that carries the greatest
    version not above the current one; every candidate before it carries a
    strictly smaller version or one out of reach. *)
Theorem find_versioned_file_first_of_equals directory filename suffix cur path :
  find_versioned_file w directory filename suffix cur = Return (Some path) →
  let path_prefix := os_path_join directory filename in
  let candidates := glob_glob w (path_prefix +:+ ".cython-*" +:+ suffix) in
  (path = path_prefix +:+ suffix ∧ os_path_exists w path = true ∧
   ∀ q v, q ∈ candidates → path_version q v → ¬ (v ≤ cur)%Z) ∨
  (∃ before after v,
     candidates = before ++ path :: after ∧ path_version path v ∧ (v ≤ cur)%Z ∧
     (∀ q v', q ∈ before → path_version q v' → (v' ≤ cur)%Z → (v' < v)%Z) ∧
     (∀ q v', q ∈ after → path_version q v' → (v' ≤ cur)%Z → (v' ≤ v)%Z)).
Proof.
  intros Hrun path_prefix candidates. unfold find_versioned_file in Hrun.
  destruct (bool_decide (suffix = "") || startswith suffix "."); [|done].
  fold path_prefix in Hrun. fold candidates in Hrun.
  injection Hrun as Hrun.
  destruct (find_versioned_file_loop_first cur candidates
              ((-1)%Z, if os_path_exists w (path_prefix +:+ suffix)
                       then Some (path_prefix +:+ suffix) else None))
    as [[Hloop Hnone]|(before & p & after & v & Hc & Hloop & Hp & Hv & Hbefore & Hafter)];
    rewrite Hloop in Hrun; simpl in *.
  - left. destruct (os_path_exists w (path_prefix +:+ suffix)) eqn:Hex; [|done].
    injection Hrun as <-. split_and!; [done..|].
    intros q v Hin Hq%version_of_Some Hle.
    apply (Hnone q v Hin Hq). split; [|done].
    apply version_of_nonneg in Hq. lia.
  - right. injection Hrun as <-. exists before, after, v.
    split; [done|]. split; [by apply version_of_Some|]. split; [lia|]. split.
    + intros q v' Hin Hq%version_of_Some. by eapply Hbefore.
    + intros q v' Hin Hq%version_of_Some. by eapply Hafter.
Qed.

End find_versioned_file_more.

(** Two files spell version 29; the scan finds the one with the leading
    zero first. *)
Lemma find_versioned_file_first_of_equals_witness :
  ∃ before after v,
    glob_glob two_spellings ("dir/lib" +:+ ".cython-*" +:+ ".pxd") =
      before ++ "dir/lib.cython-029.pxd" :: after ∧
    path_version "dir/lib.cython-029.pxd" v ∧
    ∀ q v', q ∈ before → path_version q v' → (v' ≤ 30)%Z → (v' < v)%Z.
Proof.
  destruct (find_versioned_file_first_of_equals two_spellings "dir" "lib" ".pxd" 30
              "dir/lib.cython-029.pxd")
    as [(Hdefault & _)|(before & after & v & Hc & Hv & _ & Hbefore & _)];
    [reflexivity | discriminate |].
  exists before, after, v. split_and!; [exact Hc | exact Hv | exact Hbefore].
Defined.

(** ** Decoding captured output: white space around the text *)

Lemma dropwhile_app_all {A : Type} (P : A → bool) (l1 l2 : list A) :
  forallb P l1 = true → dropwhile P (l1 ++ l2) = dropwhile P l2.
Proof.
  induction l1 as [|x l1 IH]; simpl; [done|].
  intros [-> Hl1]%andb_true_iff. by apply IH.
Qed.

Lemma dropwhile_app_keep {A : Type} (P : A → bool) (l1 l2 : list A) :
  dropwhile P l1 ≠ [] → dropwhile P (l1 ++ l2) = dropwhile P l1 ++ l2.
Proof.
  induction l1 as [|x l1 IH]; simpl; [done|].
  destruct (P x); [apply IH | done].
Qed.

Lemma bytes_strip_outer (ws1 b ws2 : bytes) :
  forallb is_space ws1 = true → forallb is_space ws2 = true →
  bytes_strip (ws1 ++ b ++ ws2) = bytes_strip b.
Proof.
  intros H1 H2. unfold bytes_strip. f_equal.
  rewrite dropwhile_app_all by done.
  destruct (dropwhile is_space b) as [|x l] eqn:Hb.
  - apply dropwhile_nil in Hb.
    assert (dropwhile is_space (b ++ ws2) = []) as ->; [|done].
    apply dropwhile_nil. by rewrite forallb_app, Hb, H2.
  - rewrite dropwhile_app_keep by (by rewrite Hb). rewrite Hb.
    rewrite rev_app_distr. apply dropwhile_app_all. by rewrite forallb_rev.
Qed.

Lemma bytes_strip_decompose (b : bytes) :
  ∃ ws1 ws2, b = ws1 ++ bytes_strip b ++ ws2 ∧
    forallb is_space ws1 = true ∧ forallb is_space ws2 = true.
Proof.
  exists (takewhile is_space b),
         (rev (takewhile is_space (rev (dropwhile is_space b)))).
  split_and!.
  - unfold bytes_strip. rewrite <- rev_app_distr, takewhile_dropwhile, rev_involutive.
    by rewrite takewhile_dropwhile.
  - apply takewhile_forallb.
  - rewrite forallb_rev. apply takewhile_forallb.
Qed.

Section prepare_captured_more.
Context {encoding_name : Type} `{EqDecision encoding_name}.
Variable bytes_decode : encoding_name → bytes → outcome (list N).

(** X7. [prepare_captured] does not see white space around the captured
    bytes: with any bytes of white space added in front and behind, the
    call ends the same way, with the same text or the same exception; and
    it ends on the stripped bytes as it does on the bytes themselves. *)
Theorem prepare_captured_outer_whitespace (sys : sys_module) (ws1 b ws2 : bytes) :
  forallb is_space ws1 = true → forallb is_space ws2 = true →
  prepare_captured bytes_decode sys (ws1 ++ b ++ ws2) =
    prepare_captured bytes_decode sys b ∧
  prepare_captured bytes_decode sys (bytes_strip b) =
    prepare_captured bytes_decode sys b.
Proof.
  intros H1 H2.
  assert (∀ x y z, forallb is_space x = true → forallb is_space z = true →
                   prepare_captured bytes_decode sys (x ++ y ++ z) =
                   prepare_captured bytes_decode sys y) as Houter.
  { intros x y z Hx Hz. unfold prepare_captured. by rewrite bytes_strip_outer. }
  split; [by apply Houter|].
  destruct (bytes_strip_decompose b) as (x & z & Hb & Hx & Hz).
  rewrite Hb at 2. symmetry. by apply Houter.
Qed.

End prepare_captured_more.

Lemma prepare_captured_outer_whitespace_witness :
  prepare_captured codec_decode ascii_process ([x0a; x20] ++ [x61; x20; x62] ++ [x0d; x0a]) =
    prepare_captured codec_decode ascii_process [x61; x20; x62].
Proof.
  apply (prepare_captured_outer_whitespace codec_decode ascii_process
           [x0a; x20] [x61; x20; x62] [x0d; x0a]); reflexivity.
Defined.

(** ** Ordered sets *)

Section OrderedSet_props.
Context {A : Type} `{Countable A}.
Implicit Types (s : OrderedSet.t A) (l : list A).

Lemma OrderedSet_add_present e s :
  e ∈ OrderedSet._set s → OrderedSet.add e s = s.
Proof. intros He. unfold OrderedSet.add. by rewrite bool_decide_eq_false_2 by tauto. Qed.

Lemma OrderedSet_add_consistent e s : consistent s → consistent (OrderedSet.add e s).
Proof.
  intros [Hnd Hmem]. unfold OrderedSet.add. case_bool_decide as He; [|done].
  split; simpl.
  - apply NoDup_app. split_and!; [done | | apply NoDup_singleton].
    intros x Hx ->%list_elem_of_singleton. apply He. by apply Hmem.
  - intros x. rewrite elem_of_union, elem_of_singleton, elem_of_app,
      list_elem_of_singleton, Hmem. tauto.
Qed.

Lemma OrderedSet_update_consistent l s : consistent s → consistent (OrderedSet.update l s).
Proof.
  revert s. induction l as [|e l IH]; intros s Hs; [done|].
  simpl. apply IH. by apply OrderedSet_add_consistent.
Qed.

Lemma OrderedSet_update_set l s x :
  x ∈ OrderedSet._set (OrderedSet.update l s) ↔ x ∈ OrderedSet._set s ∨ x ∈ l.
Proof.
  revert s. induction l as [|e l IH]; intros s; simpl.
  - rewrite elem_of_nil. tauto.
  - rewrite IH, elem_of_cons. unfold OrderedSet.add.
    case_bool_decide as He; simpl.
    + rewrite elem_of_union, elem_of_singleton. tauto.
    + split; [tauto|]. intros [?|[->|?]]; [tauto | | tauto].
      left. destruct (decide (e ∈ OrderedSet._set s)); tauto.
Qed.

(** X8. The list and the set of an [OrderedSet] stay in agreement: a new
    instance has a list without repeats that holds exactly the elements of
    its set, which are the elements it was made of; [add] and [update] keep
    it so. *)
Theorem OrderedSet_consistent l :
  consistent (OrderedSet.__init__ l) ∧
  (∀ x, x ∈ OrderedSet.__iter__ (OrderedSet.__init__ l) ↔ x ∈ l) ∧
  (∀ e s, consistent s → consistent (OrderedSet.add e s)) ∧
  (∀ l' s, consistent s → consistent (OrderedSet.update l' s)).
Proof.
  assert (consistent (OrderedSet.Make (A:=A) [] ∅)) as Hempty.
  { split; [apply NoDup_nil_2|]. intros x. simpl. set_solver. }
  split_and!.
  - by apply OrderedSet_update_consistent.
  - intros x. unfold OrderedSet.__iter__.
    destruct (OrderedSet_update_consistent l _ Hempty) as [_ Hmem].
    unfold OrderedSet.__init__. rewrite <- Hmem, OrderedSet_update_set. simpl.
    rewrite elem_of_empty. tauto.
  - intros e s. apply OrderedSet_add_consistent.
  - intros l' s. apply OrderedSet_update_consistent.
Qed.

Lemma OrderedSet_update_list l s :
  consistent s →
  OrderedSet._list (OrderedSet.update l s) =
    OrderedSet._list s ++ first_occurrences (filter (λ x, x ∉ OrderedSet._list s) l).
Proof.
  revert s. induction l as [|e l IH]; intros s Hs; simpl.
  { by rewrite app_nil_r. }
  rewrite IH by (by apply OrderedSet_add_consistent).
  rewrite filter_cons. unfold OrderedSet.add.
  destruct Hs as [Hnd Hmem].
  case_bool_decide as He; simpl.
  - rewrite decide_True by (by rewrite <- Hmem).
    simpl. rewrite <- app_assoc. simpl. do 2 f_equal.
    rewrite <- first_occurrences_filter, list_filter_filter. f_equal.
    apply list_filter_iff. intros x.
    rewrite elem_of_app, list_elem_of_singleton. tauto.
  - rewrite decide_False; [done|]. rewrite <- Hmem. tauto.
Qed.

(** X9. An [OrderedSet] iterates in the order of first insertion: made of
    a list, it produces the elements of the list without their repeats,
    each where it occurs first; [update] appends, in that order, the
    elements that are new. *)
Theorem OrderedSet_first_occurrences l :
  OrderedSet.__iter__ (OrderedSet.__init__ l) = first_occurrences l ∧
  ∀ l' s, consistent s →
    OrderedSet.__iter__ (OrderedSet.update l' s) =
      OrderedSet.__iter__ s ++
      first_occurrences (filter (λ x, x ∉ OrderedSet.__iter__ s) l').
Proof.
  split; [|intros l' s; apply OrderedSet_update_list].
  unfold OrderedSet.__iter__, OrderedSet.__init__.
  rewrite OrderedSet_update_list; simpl.
  - f_equal. induction l as [|x l IH]; [done|].
    rewrite filter_cons_True by apply not_elem_of_nil. by rewrite IH.
  - split; [apply NoDup_nil_2|]. intros x. simpl.
    rewrite elem_of_empty, elem_of_nil. tauto.
Qed.

(** X10. Adding what is there changes nothing: [add] and [update] leave an
    [OrderedSet] as it is when the elements are members already, so doing
    either twice is doing it once; and no element is ever removed. *)
Theorem OrderedSet_update_idempotent l s :
  OrderedSet.update l (OrderedSet.update l s) = OrderedSet.update l s ∧
  (∀ e, OrderedSet.add e (OrderedSet.add e s) = OrderedSet.add e s) ∧
  (∀ x, x ∈ OrderedSet.__iter__ s → x ∈ OrderedSet.__iter__ (OrderedSet.update l s)).
Proof.
  assert (∀ l' s', (∀ x, x ∈ l' → x ∈ OrderedSet._set s') →
                   OrderedSet.update l' s' = s') as Hnoop.
  { clear. intros l'. induction l' as [|e l' IH]; intros s' Hin; [done|].
    simpl. rewrite OrderedSet_add_present by (apply Hin; by left).
    apply IH. intros x Hx. apply Hin. by right. }
  split_and!.
  - apply Hnoop. intros x Hx. apply OrderedSet_update_set. by right.
  - intros e. apply (Hnoop [e]). intros x ->%list_elem_of_singleton.
    apply (OrderedSet_update_set [e]). right. by left.
  - intros x. unfold OrderedSet.__iter__. revert s.
    induction l as [|e l IH]; intros s Hx; [done|].
    simpl. apply IH. unfold OrderedSet.add. case_bool_decide; [|done].
    simpl. apply elem_of_app. by left.
Qed.

End OrderedSet_props.

(** ** Cached methods *)

(** X11. The naming convention of the method caches round-trips: the
    pattern finds in the name built for a method the name of that method
    (which is not empty and holds no newline, as is the case for every
    identifier); conversely, a name that the pattern accepts is the name
    built for the method it reports, possibly followed by one newline. *)
Theorem cache_name_round_trip name :
  name ≠ "" → newline ∉ chars name →
  _CACHE_NAME_PATTERN_match (_build_cache_name name) = Some name ∧
  ∀ attr_name m, _CACHE_NAME_PATTERN_match attr_name = Some m →
    attr_name = _build_cache_name m ∨
    attr_name = _build_cache_name m +:+ str [newline].
Proof.
  intros Hname Hnl. split; [by apply _CACHE_NAME_PATTERN_match_build|].
  intros attr_name m Hm.
  apply _CACHE_NAME_PATTERN_match_Some in Hm as (_ & _ & Hshape).
  destruct Hshape as [Hshape|Hshape]; [left | right]; apply chars_inj;
    unfold _build_cache_name; rewrite Hshape, !chars_app; [done|].
  by rewrite chars_str, <- !app_assoc.
Qed.

Lemma cache_name_round_trip_witness :
  _CACHE_NAME_PATTERN_match (_build_cache_name "lookup") = Some "lookup".
Proof.
  apply (cache_name_round_trip "lookup"); [discriminate|].
  intros Hin. vm_compute in Hin.
  repeat (apply elem_of_cons in Hin as [Hin|Hin]; [discriminate|]).
  by apply elem_of_nil in Hin.
Defined.

Section cached_method_props.
Context {Args Res Other : Type} `{Countable Args}.
Variable other_contains : Other → Args → method_state Args Res Other →
                          outcome bool * method_state Args Res Other.
Variable other_getitem : Other → Args → method_state Args Res Other →
                         outcome Res * method_state Args Res Other.
Variable other_setitem : Other → Args → Res → method_state Args Res Other →
                         outcome unit * method_state Args Res Other.
Implicit Types (st : method_state Args Res Other)
  (obj : py_object (option (attribute Other))).

Abbreviation wrapper_of name f :=
  (cached_method other_contains other_getitem other_setitem name f).

Lemma getattr_setattr obj name value : getattr (setattr obj name value) name = value.
Proof. unfold getattr, setattr. simpl. by rewrite lookup_insert_eq. Qed.

(** X12. A cached method called a second time with the same arguments
    returns the value of the first call without calling the method again
    and without changing anything, provided the method itself leaves the
    attribute that holds its cache bound as it is, and the attribute, when
    there is one at the first call, holds [None] or a dict. *)
Theorem cached_method_twice name f args st invoked res st1 invoked1 :
  (∀ v, getattr (self st) (_build_cache_name name) ≠ Some (PyOther v)) →
  (∀ a s r s', f a s = (r, s') →
     getattr (self s') (_build_cache_name name) =
     getattr (self s) (_build_cache_name name)) →
  wrapper_of name f args st invoked = (Return res, st1, invoked1) →
  wrapper_of name f args st1 invoked1 = (Return res, st1, invoked1).
Proof.
  intros Hdict Hf Hcall.
  assert (∀ ref s,
            getattr (self s) (_build_cache_name name) = Some (PyDict ref) →
            match default ∅ (heap s !! ref) !! args with
            | Some res => (Return res, s, invoked)
            | None =>
                let '(r, st') := f args s in
                match r with
                | Return res =>
                    (Return res,
                     MethodState (self st')
                       (<[ref := <[args := res]> (default ∅ (heap st' !! ref))]> (heap st')),
                     invoked ++ [args])
                | Raise e => (Raise e, st', invoked ++ [args])
                end
            end = (Return res, st1, invoked1) →
            wrapper_of name f args st1 invoked1 = (Return res, st1, invoked1)) as Hdone.
  { intros ref s Hattr Hrun.
    destruct (default ∅ (heap s !! ref) !! args) as [res'|] eqn:Hentry.
    - injection Hrun as -> -> ->.
      unfold cached_method. rewrite Hattr, Hentry. done.
    - destruct (f args s) as [[res'|e] s'] eqn:Hfs; [|done].
      injection Hrun as -> <- <-.
      unfold cached_method. simpl.
      rewrite (Hf _ _ _ _ Hfs), Hattr. simpl.
      rewrite lookup_insert_eq. simpl. by rewrite lookup_insert_eq. }
  unfold cached_method in Hcall.
  destruct (getattr (self st) (_build_cache_name name)) as [[ref|v]|] eqn:Hattr.
  - by apply (Hdone ref st).
  - by destruct (Hdict v).
  - eapply Hdone; [|exact Hcall]. simpl. apply getattr_setattr.
Qed.

(** What the loop of [clear_method_caches] does to the instance when it
    returns: it only removes attributes, and it has removed every cache
    whose method the class provides. *)
Lemma clear_method_caches_loop_removes {V : Type} (pairs : list (string * string))
    (cur obj' : py_object V) :
  clear_method_caches_loop pairs cur = Return obj' →
  class_dict obj' = class_dict cur ∧
  (∀ x, instance_dict cur !! x = None → instance_dict obj' !! x = None) ∧
  (∀ a m, (a, m) ∈ pairs → is_Some (class_dict cur !! m) →
          instance_dict obj' !! a = None).
Proof.
  revert cur. induction pairs as [|[a m] pairs IH]; intros cur Hrun; simpl in Hrun.
  { injection Hrun as <-. split_and!; [done | done |].
    intros a m Hin. by apply elem_of_nil in Hin. }
  destruct (hasattr cur m) eqn:Hm.
  - unfold delattr in Hrun.
    destruct (instance_dict cur !! a) as [v|] eqn:Ha; [|done].
    destruct (IH _ Hrun) as (Hclass & Hkeep & Hgone). simpl in *.
    split_and!; [done | |].
    + intros x Hx. apply Hkeep. rewrite lookup_delete_None. by right.
    + intros a' m' [[= -> ->]|Hin]%elem_of_cons Hclass'.
      * apply Hkeep. by rewrite lookup_delete_eq.
      * by eapply Hgone.
  - destruct (IH _ Hrun) as (Hclass & Hkeep & Hgone).
    split_and!; [done | done |].
    intros a' m' [[= -> ->]|Hin]%elem_of_cons Hclass'; [|by eapply Hgone].
    assert (hasattr cur m = true) by (apply hasattr_true; by right). congruence.
Qed.

(** X13. [clear_method_caches] undoes [cached_method]: on an object whose
    class provides the method and no attribute with the name of its cache,
    once [clear_method_caches] has returned the instance holds no cache for
    the method, so that the next call of the cached method calls the method
    again, on the object with a new, empty cache, and returns what it
    returns now. *)
Theorem cached_method_cleared name f args st invoked obj2 :
  name ≠ "" → newline ∉ chars name →
  is_Some (class_dict (self st) !! name) →
  class_dict (self st) !! _build_cache_name name = None →
  clear_method_caches (self st) = Return obj2 →
  let ref := fresh (dom (heap st)) in
  let st2 := MethodState (setattr obj2 (_build_cache_name name) (Some (PyDict ref)))
                         (<[ref := ∅]> (heap st)) in
  getattr obj2 (_build_cache_name name) = None ∧
  (wrapper_of name f args (MethodState obj2 (heap st)) invoked).1.1 = (f args st2).1 ∧
  (wrapper_of name f args (MethodState obj2 (heap st)) invoked).2 = invoked ++ [args].
Proof.
  intros Hname Hnl Hmethod Hclass Hclear ref st2.
  apply clear_method_caches_loop_removes in Hclear as (Hclass2 & Hkeep & Hgone).
  assert (instance_dict obj2 !! _build_cache_name name = None) as Hinst.
  { destruct (instance_dict (self st) !! _build_cache_name name) as [v|] eqn:Hv;
      [|by apply Hkeep].
    apply (Hgone _ name); [|done].
    apply elem_of_cache_pairs. split.
    - apply elem_of_dir. left. by eexists.
    - by apply _CACHE_NAME_PATTERN_match_build. }
  assert (getattr obj2 (_build_cache_name name) = None) as Hattr.
  { unfold getattr. by rewrite Hinst, Hclass2, Hclass. }
  split; [done|].
  unfold cached_method. simpl. rewrite Hattr. fold ref. fold st2.
  assert (default ∅ (heap st2 !! ref) !! args = None) as ->.
  { unfold st2. simpl. rewrite lookup_insert_eq. simpl. apply lookup_empty. }
  destruct (f args st2) as [[res|e] st3]; done.
Qed.

End cached_method_props.

(** The method [lookup] is called, then called again. *)
Lemma cached_method_twice_witness :
  lookup 3 (lookup 3 fresh_object []).1.2 (lookup 3 fresh_object []).2 =
    (Return 9, (lookup 3 fresh_object []).1.2, [3]).
Proof.
  apply (cached_method_twice no_contains no_getitem no_setitem
           "lookup" squaring 3 fresh_object []).
  - intros v. vm_compute. discriminate.
  - intros a s r s' [= _ <-]. done.
  - reflexivity.
Defined.

(** The cache of [lookup] is cleared after the first call. *)
Lemma cached_method_cleared_witness :
  ∃ obj2, clear_method_caches (self (lookup 3 fresh_object []).1.2) = Return obj2 ∧
    (lookup 3 (MethodState obj2 (heap (lookup 3 fresh_object []).1.2))
       (lookup 3 fresh_object []).2).2 = [3; 3].
Proof.
  exists (PyObject ∅ (class_dict (self fresh_object))).
  split; [vm_compute; reflexivity|].
  apply (cached_method_cleared no_contains no_getitem no_setitem
           "lookup" squaring 3 (lookup 3 fresh_object []).1.2 (lookup 3 fresh_object []).2).
  - discriminate.
  - intros Hin. vm_compute in Hin.
    repeat (apply elem_of_cons in Hin as [Hin|Hin]; [discriminate|]).
    by apply elem_of_nil in Hin.
  - vm_compute. eauto.
  - vm_compute. reflexivity.
  - vm_compute. reflexivity.
Defined.

(** ** Generated files *)

Section generated_files_props.
Context {time : Type}.
Variable minus_one : time → time.
#[local] Existing Instance byte_eq_decision.
Implicit Types (d : Disk.t time).

(** Without failures of the system, [is_cython_generated_file] reads the
    head of the file that the path names. *)
Lemma is_cython_generated_file_reads path allow_failed if_not_found d :
  Disk.io_faults d = [] →
  is_cython_generated_file path allow_failed if_not_found d =
    (Return
       match Disk.entries d !! path with
       | Some (Disk.RegularFile ino) =>
           let file_content :=
             take (length failure_marker)
                  (default [] (Disk.i_content <$> Disk.inodes d !! ino)) in
           bool_decide (latin_1_encode "/* Generated by Cython " `prefix_of` file_content)
           || (allow_failed && bool_decide (file_content = failure_marker))
           || bool_decide (file_content = [])
       | _ => if_not_found
       end, d).
Proof.
  destruct d as [es ins nw fl]. simpl. intros ->.
  unfold is_cython_generated_file, Disk.path_exists, Disk.open_rb, Disk.read, Disk.close,
    Disk.take_fault. simpl.
  destruct (es !! path) as [[ino|]|] eqn:Hentry; reflexivity.
Qed.

(** X14. [castrate_file] and [is_cython_generated_file] agree on the mark
    of a failed compilation. When no call of the system fails and the path
    names a file that [is_cython_generated_file] accepts, failures allowed,
    [castrate_file] returns and leaves under the path a file that holds the
    mark followed by a newline, with the access time and the modification
    time less one of the stat result when one is given; that file is
    accepted again when failures are allowed, and not accepted when they
    are not. *)
Theorem castrate_file_recognised path st d :
  Disk.io_faults d = [] →
  (is_cython_generated_file path true false d).1 = Return true →
  ∃ d' ino i,
    castrate_file minus_one path st d = (Return (), d') ∧
    Disk.io_faults d' = [] ∧
    Disk.entries d' !! path = Some (Disk.RegularFile ino) ∧
    Disk.inodes d' !! ino = Some i ∧
    Disk.i_content i = failure_marker ++ [x0a] ∧
    (∀ st_atime st_mtime, st = Some (st_atime, st_mtime) →
       Disk.i_atime i = st_atime ∧ Disk.i_mtime i = minus_one st_mtime) ∧
    ∀ if_not_found,
      (is_cython_generated_file path true if_not_found d').1 = Return true ∧
      (is_cython_generated_file path false if_not_found d').1 = Return false.
Proof.
  intros Hfaults Hgenerated.
  unfold castrate_file.
  pose proof (is_cython_generated_file_reads path true false d Hfaults) as Hreads.
  destruct (is_cython_generated_file path true false d) as [r d1].
  simpl in Hgenerated. subst r. injection Hreads as Hreads ->.
  destruct (Disk.entries d !! path) as [[ino0|]|] eqn:Hentry; [|done..].
  clear Hreads.
  destruct d as [es ins nw fl]. simpl in *. subst fl.
  unfold open_new_file, Disk.path_exists, Disk.unlink, Disk.open_w, Disk.write,
    Disk.close, Disk.utime, Disk.take_fault. simpl.
  rewrite bool_decide_eq_true_2 by eauto. rewrite Hentry. simpl.
  rewrite lookup_delete_eq. simpl.
  set (ino := fresh (dom ins)).
  rewrite alter_insert_eq. simpl.
  assert (∀ d' i,
            Disk.io_faults d' = [] →
            Disk.entries d' !! path = Some (Disk.RegularFile ino) →
            Disk.inodes d' !! ino = Some i →
            Disk.i_content i = failure_marker ++ [x0a] →
            ∀ if_not_found,
              (is_cython_generated_file path true if_not_found d').1 = Return true ∧
              (is_cython_generated_file path false if_not_found d').1 = Return false)
    as Hagain.
  { intros d' i Hfl He Hi Hc if_not_found.
    rewrite !is_cython_generated_file_reads by done.
    rewrite He, Hi. simpl. rewrite Hc. by vm_compute. }
  destruct st as [[st_atime st_mtime]|].
  - rewrite lookup_insert_eq, alter_insert_eq. simpl.
    eexists _, ino, _. split; [reflexivity|]. simpl.
    split; [done|]. split; [apply lookup_insert_eq|].
    split; [apply lookup_insert_eq|]. split; [reflexivity|].
    split; [by intros ? ? [= <- <-]|].
    eapply Hagain; [done | apply lookup_insert_eq | apply lookup_insert_eq | done].
  - eexists _, ino, _. split; [reflexivity|]. simpl.
    split; [done|]. split; [apply lookup_insert_eq|].
    split; [apply lookup_insert_eq|]. split; [reflexivity|].
    split; [done|].
    eapply Hagain; [done | apply lookup_insert_eq | apply lookup_insert_eq | done].
Qed.

(** Whatever fails, [is_cython_generated_file] leaves the names and the
    files as they are; it answers [if_not_found] for a path that does not
    name a regular file. *)
Lemma is_cython_generated_file_disk path allow_failed if_not_found d :
  Disk.entries (is_cython_generated_file path allow_failed if_not_found d).2 =
    Disk.entries d ∧
  Disk.inodes (is_cython_generated_file path allow_failed if_not_found d).2 =
    Disk.inodes d ∧
  (∃ b, (is_cython_generated_file path allow_failed if_not_found d).1 = Return b) ∧
  ((∀ ino, Disk.entries d !! path ≠ Some (Disk.RegularFile ino)) →
   (is_cython_generated_file path allow_failed if_not_found d).1 = Return if_not_found).
Proof.
  destruct d as [es ins nw fl].
  unfold is_cython_generated_file, Disk.path_exists, Disk.open_rb, Disk.read, Disk.close,
    Disk.take_fault. simpl.
  destruct (es !! path) as [[ino|]|] eqn:Hentry; simpl;
    [|split_and!; eauto..].
  destruct (default false (head fl)); simpl;
    [split_and!; [done | done | eauto | intros Hno; by destruct (Hno ino)]|].
  destruct (default false (head (tail fl))); simpl;
    destruct (default false (head (tail (tail fl)))); simpl;
    (split_and!; [done | done | eauto | intros Hno; by destruct (Hno ino)]).
Qed.

(** X15. [castrate_file] writes to a new file, whatever fails on the way:
    every other path names what it named, and every file that existed
    holds the bytes and the times it had, so that the other names of the
    file that the path named, its hard links, still give the old content.
    When [is_cython_generated_file] does not accept the path, failures
    allowed (the path names no regular file, the file cannot be read, or it
    holds something else), nothing is changed at all. *)
Theorem castrate_file_frame path st d :
  let d' := (castrate_file minus_one path st d).2 in
  (∀ q, q ≠ path → Disk.entries d' !! q = Disk.entries d !! q) ∧
  (∀ ino i, Disk.inodes d !! ino = Some i → Disk.inodes d' !! ino = Some i) ∧
  ((is_cython_generated_file path true false d).1 ≠ Return true →
   Disk.entries d' = Disk.entries d ∧ Disk.inodes d' = Disk.inodes d).
Proof.
  unfold castrate_file.
  destruct (is_cython_generated_file_disk path true false d)
    as (Hentries & Hinodes & [b Hb] & Hfile).
  destruct (is_cython_generated_file path true false d) as [r d1].
  simpl in Hentries, Hinodes, Hb, Hfile. subst r.
  destruct b; [|simpl; rewrite Hentries, Hinodes; split_and!; done].
  assert (∃ ino0, Disk.entries d !! path = Some (Disk.RegularFile ino0)) as [ino0 Hentry].
  { destruct (Disk.entries d !! path) as [[ino0|]|] eqn:Hentry; [by eexists|..];
      by discriminate Hfile. }
  rewrite <- Hentries, <- Hinodes in *. clear d Hentries Hinodes Hfile.
  destruct d1 as [es ins nw fl]. simpl in *.
  pose proof (is_fresh (dom ins)) as Hfresh. rewrite not_elem_of_dom in Hfresh.
  assert (∀ ino i, ins !! ino = Some i → ino ≠ fresh (dom ins)) as Hold.
  { intros ino i Hi ->. congruence. }
  unfold open_new_file, Disk.path_exists, Disk.unlink, Disk.open_w, Disk.write,
    Disk.close, Disk.utime, Disk.take_fault. simpl.
  rewrite bool_decide_eq_true_2 by eauto. rewrite Hentry. simpl.
  destruct (default false (head fl)); simpl; [split_and!; done|].
  destruct (default false (head (tail fl))); simpl; [|rewrite lookup_delete_eq; simpl].
  { split_and!; [|done..]. intros q Hq. by rewrite lookup_delete_ne. }
  set (ino := fresh (dom ins)) in *.
  assert (∀ q, q ≠ path →
            <[path := Disk.RegularFile ino]> (delete path es) !! q = es !! q) as Hnames.
  { intros q Hq. by rewrite lookup_insert_ne, lookup_delete_ne. }
  destruct (default false (head (tail (tail fl)))); simpl.
  { split_and!; [done | | done].
    intros ino' i Hi. rewrite lookup_insert_ne; [done|]. symmetry. by eapply Hold. }
  rewrite alter_insert_eq. simpl.
  assert (∀ x ino' i, ins !! ino' = Some i → <[ino := x]> ins !! ino' = Some i) as Hfiles.
  { intros x ino' i Hi. rewrite lookup_insert_ne; [done|]. symmetry. by eapply Hold. }
  destruct (default false (head (tail (tail (tail fl))))); simpl;
    [split_and!; [done | by apply Hfiles | done]|].
  destruct st as [[st_atime st_mtime]|]; simpl;
    [|split_and!; [done | by apply Hfiles | done]].
  rewrite lookup_insert_eq.
  destruct (default false (head (tail (tail (tail (tail fl)))))); simpl;
    [split_and!; [done | by apply Hfiles | done]|].
  rewrite alter_insert_eq.
  split_and!; [done | by apply Hfiles | done].
Qed.

End generated_files_props.

(** The compilation of [out/mod.c] has failed; the stat result taken before
    gives the times 150 and 160. *)
Lemma castrate_file_recognised_witness :
  ∃ d' ino i,
    castrate_file Z.pred "out/mod.c" (Some (150, 160)%Z) generated_output = (Return (), d') ∧
    Disk.entries d' !! "out/mod.c" = Some (Disk.RegularFile ino) ∧
    Disk.inodes d' !! ino = Some i ∧
    Disk.i_content i = failure_marker ++ [x0a] ∧
    Disk.i_mtime i = 159%Z ∧
    (is_cython_generated_file "out/mod.c" false true d').1 = Return false.
Proof.
  destruct (castrate_file_recognised Z.pred "out/mod.c" (Some (150, 160)%Z) generated_output)
    as (d' & ino & i & Hrun & _ & Hentry & Hinode & Hcontent & Htimes & Hagain);
    [reflexivity | vm_compute; reflexivity |].
  exists d', ino, i.
  split; [exact Hrun|]. split; [exact Hentry|]. split; [exact Hinode|].
  split; [exact Hcontent|]. split; [exact (proj2 (Htimes _ _ eq_refl))|].
  exact (proj2 (Hagain true)).
Defined.

(** ** Copying files *)

Section copy_file_to_dir_if_newer_props.
Context {FS time : Type}.
Variable modification_time : string → FS → outcome time.
Variable time_gt : time → time → bool.
Variable os_makedirs : string → FS → outcome unit * FS.
Variable os_path_isdir : string → FS → bool.
Variable shutil_copy2 : string → string → FS → outcome unit * FS.

(** X16. [copy_file_to_dir_if_newer] does its work once: when a call has
    returned, the same call made again returns without changing the file
    system. This rests on what [shutil.copy2] promises, that after a copy
    the destination has the modification time of the source, and on no
    time being greater than itself. *)
Theorem copy_file_to_dir_if_newer_idempotent sourcefile destdir fs fs1 :
  let destfile := os_path_join destdir (os_path_basename sourcefile) in
  (∀ t, time_gt t t = false) →
  (∀ fs' fs'', shutil_copy2 sourcefile destfile fs' = (Return (), fs'') →
     ∃ t, modification_time sourcefile fs'' = Return t ∧
          modification_time destfile fs'' = Return t) →
  copy_file_to_dir_if_newer modification_time time_gt os_makedirs os_path_isdir
    shutil_copy2 sourcefile destdir fs = (Return (), fs1) →
  copy_file_to_dir_if_newer modification_time time_gt os_makedirs os_path_isdir
    shutil_copy2 sourcefile destdir fs1 = (Return (), fs1).
Proof.
  intros destfile Hirrefl Hcopy Hfirst.
  assert (∀ fs', shutil_copy2 sourcefile destfile fs' = (Return (), fs1) →
                 copy_file_to_dir_if_newer modification_time time_gt os_makedirs
                   os_path_isdir shutil_copy2 sourcefile destdir fs1 = (Return (), fs1))
    as Hcopied.
  { intros fs' Hrun. destruct (Hcopy _ _ Hrun) as (t & Hsrc & Hdst).
    unfold copy_file_to_dir_if_newer, file_newer_than. fold destfile.
    by rewrite Hdst, Hsrc, Hirrefl. }
  unfold copy_file_to_dir_if_newer in Hfirst |- *. fold destfile in Hfirst |- *.
  destruct (modification_time destfile fs) as [desttime|e] eqn:Hdest.
  - unfold file_newer_than in Hfirst |- *.
    destruct (modification_time sourcefile fs) as [ftime|e] eqn:Hsrc; [|done].
    destruct (time_gt ftime desttime) eqn:Hnewer.
    + fold (copy_file_to_dir_if_newer modification_time time_gt os_makedirs os_path_isdir
             shutil_copy2 sourcefile destdir fs1). by eapply Hcopied.
    + injection Hfirst as <-. by rewrite Hdest, Hsrc, Hnewer.
  - destruct e; try done.
    destruct (safe_makedirs os_makedirs os_path_isdir destdir fs) as [[[]|e] fs0]; [|done].
    fold (copy_file_to_dir_if_newer modification_time time_gt os_makedirs os_path_isdir
           shutil_copy2 sourcefile destdir fs1). by eapply Hcopied.
Qed.

End copy_file_to_dir_if_newer_props.

(** A file is copied to a directory that does not hold it yet, and then
    once more. *)
Lemma copy_file_to_dir_if_newer_idempotent_witness :
  let copy := copy_file_to_dir_if_newer flat_getmtime Z.gtb flat_makedirs flat_isdir
                flat_copy2 "src/mod.pxd" "build" in
  (copy one_source).2 !! "build/mod.pxd" = Some (100%Z, [x61]) ∧
  copy (copy one_source).2 = (Return (), (copy one_source).2).
Proof.
  intros copy. split; [reflexivity|].
  apply (copy_file_to_dir_if_newer_idempotent flat_getmtime Z.gtb flat_makedirs flat_isdir
           flat_copy2 "src/mod.pxd" "build" one_source).
  - intros t. rewrite Z.gtb_ltb. apply Z.ltb_irrefl.
  - intros fs' fs''. unfold flat_copy2, flat_getmtime.
    destruct (fs' !! "src/mod.pxd") as [[t b]|] eqn:Hsrc; [|done].
    intros [= <-]. exists t. rewrite lookup_insert_eq.
    destruct (decide ("src/mod.pxd" = os_path_join "build" (os_path_basename "src/mod.pxd")))
      as [Heq|Hne]; [discriminate Heq|].
    by rewrite lookup_insert_ne, Hsrc.
  - reflexivity.
Defined.

(** ** Version numbers *)

Lemma is_digit_not_separator c : is_digit c = true → is_version_separator c = false.
Proof.
  intros Hc. apply bool_decide_eq_false_2. intros Hin.
  repeat (apply elem_of_cons in Hin as [->|Hin]; [discriminate Hc|]).
  by apply elem_of_nil in Hin.
Qed.

Lemma re_split_loop_text piece d rest :
  forallb is_digit d = true →
  re_split_loop false piece (d ++ rest) = re_split_loop false (piece ++ d) rest.
Proof.
  revert piece. induction d as [|c d IH]; intros piece Hd; simpl.
  { by rewrite app_nil_r. }
  apply andb_true_iff in Hd as [Hc Hd].
  rewrite (is_digit_not_separator c Hc). simpl.
  rewrite IH by done. by rewrite <- app_assoc.
Qed.

Lemma re_split_loop_run piece run c rest :
  forallb is_version_separator run = true → is_version_separator c = false →
  re_split_loop true piece (run ++ c :: rest) =
    str (piece ++ run) :: re_split_loop false [c] rest.
Proof.
  revert piece. induction run as [|r run IH]; intros piece Hrun Hc; simpl.
  { rewrite Hc. simpl. by rewrite app_nil_r. }
  apply andb_true_iff in Hrun as [Hr Hrun].
  rewrite Hr. simpl. rewrite IH by done. by rewrite <- app_assoc.
Qed.

(** After a text, a run of separators followed by a number gives three
    pieces: the text, the run, and what the number starts. *)
Lemma re_split_loop_separator piece run d rest :
  run ≠ [] → forallb is_version_separator run = true →
  d ≠ [] → forallb is_digit d = true →
  re_split_loop false piece (run ++ d ++ rest) =
    str piece :: str run :: re_split_loop false d rest.
Proof.
  intros Hrun Hsep Hd Hdigits.
  destruct run as [|r run]; [done|]. destruct d as [|c d]; [done|].
  simpl in Hsep, Hdigits.
  apply andb_true_iff in Hsep as [Hr Hsep]. apply andb_true_iff in Hdigits as [Hc Hdigits].
  simpl. rewrite Hr. simpl.
  rewrite re_split_loop_run by (done || by apply is_digit_not_separator).
  by rewrite re_split_loop_text.
Qed.

Section build_hex_version_props.
Variable py_int : string → option Z.

Lemma is_number_no_tag d : is_number d → (d ∉ ["a"; "b"; "rc"]) ∧ d ≠ ".".
Proof.
  intros [_ Hd]. split.
  - intros Hin.
    repeat (apply elem_of_cons in Hin as [->|Hin]; [discriminate Hd|]).
    by apply elem_of_nil in Hin.
  - intros ->. discriminate Hd.
Qed.

Lemma build_hex_version_loop_number d rest digits release_status :
  is_number d → py_int d = Some (int d) →
  build_hex_version_loop py_int (d :: rest) digits release_status =
    build_hex_version_loop py_int rest (digits ++ [int d]) release_status.
Proof.
  intros Hd Hint. destruct (is_number_no_tag d Hd) as [Htag Hdot]. simpl.
  rewrite bool_decide_eq_false_2 by done.
  rewrite bool_decide_eq_true_2 by done. by rewrite Hint.
Qed.

Lemma build_hex_version_loop_tag tag rest digits release_status :
  tag ∈ ["a"; "b"; "rc"] →
  build_hex_version_loop py_int (tag :: rest) digits release_status =
    build_hex_version_loop py_int rest (take 3 (digits ++ [0; 0]%Z)) (status_of_tag tag).
Proof. intros Htag. simpl. by rewrite bool_decide_eq_true_2. Qed.

(** The first piece of a split is a text: it holds no separator. *)
Lemma re_split_loop_head s piece :
  ∃ t rest, re_split_loop false piece s = str (piece ++ t) :: rest ∧
    forallb (λ c, negb (is_version_separator c)) t = true.
Proof.
  revert piece. induction s as [|c s IH]; intros piece; simpl.
  { exists [], []. by rewrite app_nil_r. }
  destruct (is_version_separator c) eqn:Hc; simpl.
  - exists [], (re_split_loop true [c] s). by rewrite app_nil_r.
  - destruct (IH (piece ++ [c])) as (t & rest & -> & Ht).
    exists (c :: t), rest. rewrite <- app_assoc. simpl. by rewrite Hc.
Qed.

Lemma build_hex_version_loop_digits pieces digits release_status :
  match build_hex_version_loop py_int pieces digits release_status with
  | inl e => ∃ piece, e = ValueError piece ∧ piece ∈ pieces ∧ py_int piece = None
  | inr (digits', _) => digits ≠ [] → digits' ≠ []
  end ∧
  ((∀ piece, piece ∈ pieces → (piece ∉ ["a"; "b"; "rc"]) → piece ≠ "." →
             is_Some (py_int piece)) →
   ∃ r, build_hex_version_loop py_int pieces digits release_status = inr r).
Proof.
  revert digits release_status.
  induction pieces as [|piece pieces IH]; intros digits release_status; simpl.
  { split; [done | by eexists]. }
  assert (∀ digits' rs,
            match build_hex_version_loop py_int pieces digits' rs with
            | inl e => ∃ piece0, e = ValueError piece0 ∧ piece0 ∈ piece :: pieces ∧
                                 py_int piece0 = None
            | inr (digits'', _) => digits' ≠ [] → digits'' ≠ []
            end ∧
            ((∀ piece0, piece0 ∈ piece :: pieces → (piece0 ∉ ["a"; "b"; "rc"]) →
                        piece0 ≠ "." → is_Some (py_int piece0)) →
             ∃ r, build_hex_version_loop py_int pieces digits' rs = inr r)) as Hrest.
  { intros digits' rs. destruct (IH digits' rs) as [Hres Hok]. split.
    - destruct (build_hex_version_loop py_int pieces digits' rs) as [e|[d r]]; [|done].
      destruct Hres as (piece0 & -> & Hin & Hnone). exists piece0.
      split; [done|]. split; [by right | done].
    - intros Hall. apply Hok. intros piece0 Hin. apply Hall. by right. }
  case_bool_decide as Htag.
  - destruct (Hrest (take 3 (digits ++ [0; 0]%Z))
                (if bool_decide (piece = "a") then 160%Z
                 else if bool_decide (piece = "b") then 176%Z else 192%Z))
      as [Hres Hok].
    split; [|done].
    destruct (build_hex_version_loop _ _ _ _) as [e|[d r]]; [done|].
    intros _. apply Hres. by destruct digits as [|? [|? [|? ?]]].
  - case_bool_decide as Hdot; [|apply Hrest].
    destruct (py_int piece) as [n|] eqn:Hint.
    + destruct (Hrest (digits ++ [n]) release_status) as [Hres Hok].
      split; [|done].
      destruct (build_hex_version_loop _ _ _ _) as [e|[d r]]; [done|].
      intros _. apply Hres. by destruct digits.
    + split.
      * exists piece. split; [done|]. split; [by left | done].
      * intros Hall. destruct (Hall piece) as [n Hn]; [by left | done | done |]. congruence.
Qed.

(** X17. [build_hex_version] raises nothing but the [ValueError] of [int],
    on a piece of the version string that is neither a tag nor a dot: the
    list it indexes has four elements, whatever the string, so there is no
    [IndexError]. When [int] accepts every such piece the function returns
    its string. *)
Theorem build_hex_exceptions version_string :
  build_hex_version py_int version_string ≠ inl IndexError ∧
  (∀ literal, build_hex_version py_int version_string = inl (ValueError literal) →
     literal ∈ re_split version_string ∧ py_int literal = None) ∧
  ((∀ piece, piece ∈ re_split version_string → (piece ∉ ["a"; "b"; "rc"]) →
             piece ≠ "." → is_Some (py_int piece)) →
   ∃ v, build_hex_version py_int version_string = inr v).
Proof.
  unfold build_hex_version, hexversion, re_split.
  destruct (re_split_loop_head (chars version_string) []) as (t & rest & Hsplit & Ht).
  simpl in Hsplit. rewrite Hsplit.
  assert ((str t ∉ ["a"; "b"; "rc"]) ∧ str t ≠ ".") as [Htag Hdot].
  { split.
    - intros Hin.
      repeat (apply elem_of_cons in Hin as [Heq|Hin];
              [apply (f_equal chars) in Heq; rewrite chars_str in Heq; subst t;
               discriminate Ht|]).
      by apply elem_of_nil in Hin.
    - intros Heq. apply (f_equal chars) in Heq. rewrite chars_str in Heq. subst t.
      discriminate Ht. }
  cbn [build_hex_version_loop].
  rewrite (bool_decide_eq_false_2 _ Htag), (bool_decide_eq_true_2 _ Hdot).
  destruct (py_int (str t)) as [n|] eqn:Hint.
  - destruct (build_hex_version_loop_digits rest ([] ++ [n]) 240%Z) as [Hres Hok].
    destruct (build_hex_version_loop py_int rest ([] ++ [n]) 240%Z) as [e|[digits rs]].
    + destruct Hres as (piece & -> & Hin & Hnone).
      split; [done|]. split.
      * intros literal [= <-]. split; [by right | done].
      * intros Hall. destruct Hok as [r Hr]; [|done].
        intros piece0 Hin0. apply Hall. by right.
    + assert (digits ≠ []) as Hdigits by (by apply Hres).
      assert (∃ d, take 4 (digits ++ replicate 3 0%Z) !! 3 = Some d) as [d Hd].
      { destruct digits as [|d0 [|d1 [|d2 [|d3 digits]]]]; [done|by eexists..]. }
      rewrite Hd. split; [done|]. split; [done|]. intros _. by eexists.
  - split; [done|]. split.
    + intros literal [= <-]. split; [by left | done].
    + intros Hall. destruct (Hall (str t)) as [n Hn]; [by left | done | done |]. congruence.
Qed.

Lemma is_number_chars d : is_number d → chars d ≠ [] ∧ forallb is_digit (chars d) = true.
Proof. intros [Hd Hdigits]. split; [|done]. by destruct d. Qed.

(** [re.split] finds the pieces of a version string. *)
Lemma re_split_version_text first parts :
  is_number first →
  Forall (λ p, is_separator_run p.1 ∧ is_number p.2) parts →
  re_split (version_text first parts) = version_pieces first parts.
Proof.
  intros [_ Hfirst]%is_number_chars Hparts.
  unfold re_split, version_text, version_pieces.
  rewrite chars_app, re_split_loop_text by done. simpl.
  rewrite <- (str_chars first) at 2. generalize (chars first). clear first Hfirst.
  induction Hparts as [|[run d] parts [[Hrun1 Hrun2] Hd] Hparts IH]; intros piece; [done|].
  simpl in *. apply is_number_chars in Hd as [Hd1 Hd2].
  rewrite !chars_app.
  rewrite re_split_loop_separator by (done || by destruct run).
  by rewrite IH, !str_chars.
Qed.

Lemma build_hex_version_loop_dot rest digits release_status :
  build_hex_version_loop py_int ("." :: rest) digits release_status =
    build_hex_version_loop py_int rest digits release_status.
Proof. reflexivity. Qed.

Lemma append_empty (s : string) : s +:+ "" = s.
Proof. apply chars_inj. by rewrite chars_app, app_nil_r. Qed.

Lemma tag_is_separator_run tag : tag ∈ ["a"; "b"; "rc"] → is_separator_run tag.
Proof.
  intros Hin.
  repeat (apply elem_of_cons in Hin as [->|Hin]; [by split|]).
  by apply elem_of_nil in Hin.
Qed.

(** The value that the second loop builds of four numbers. *)
Lemma hexversion_fold (a b c d : Z) :
  foldl (λ hexversion digit, Z.shiftl hexversion 8 + digit)%Z 0%Z [a; b; c; d] =
    (a * 2 ^ 24 + b * 2 ^ 16 + c * 2 ^ 8 + d)%Z.
Proof. cbn [foldl]. rewrite !Z.shiftl_mul_pow2 by lia. lia. Qed.

(** X18. For a version of two or three numbers, [build_hex_version]
    returns [0x] and eight hexadecimal digits (more when a number exceeds
    255) that spell major, minor and micro version, one byte each, and the
    byte [F0] of a final release; with a tag [a], [b] or [rc] and a serial
    after the numbers, the last byte is [A0], [B0] or [C0] plus the serial.
    [int] is taken to read a string of decimal digits as the number it
    spells. *)
Theorem build_hex_version_value major minor micro tag serial :
  (∀ d, is_number d → py_int d = Some (int d)) →
  is_number major → is_number minor → is_number micro → is_number serial →
  tag ∈ ["a"; "b"; "rc"] →
  build_hex_version py_int (major +:+ "." +:+ minor) =
    inr ("0x" +:+ format_08X (int major * 2 ^ 24 + int minor * 2 ^ 16 + 0 * 2 ^ 8 + 240)) ∧
  build_hex_version py_int (major +:+ "." +:+ minor +:+ "." +:+ micro) =
    inr ("0x" +:+ format_08X (int major * 2 ^ 24 + int minor * 2 ^ 16 + int micro * 2 ^ 8 + 240)) ∧
  build_hex_version py_int (major +:+ "." +:+ minor +:+ tag +:+ serial) =
    inr ("0x" +:+ format_08X (int major * 2 ^ 24 + int minor * 2 ^ 16 + 0 * 2 ^ 8 +
                             (int serial + status_of_tag tag))) ∧
  build_hex_version py_int (major +:+ "." +:+ minor +:+ "." +:+ micro +:+ tag +:+ serial) =
    inr ("0x" +:+ format_08X (int major * 2 ^ 24 + int minor * 2 ^ 16 + int micro * 2 ^ 8 +
                             (int serial + status_of_tag tag))).
Proof.
  intros Hint Hmajor Hminor Hmicro Hserial Htag.
  pose proof (tag_is_separator_run tag Htag) as Hrun.
  assert (is_separator_run ".") as Hdot by done.
  split_and!.
  - rewrite <- (append_empty minor) at 1.
    change (major +:+ "." +:+ minor +:+ "") with (version_text major [(".", minor)]).
    unfold build_hex_version, hexversion.
    rewrite re_split_version_text
      by (done || (repeat (apply Forall_cons_2; [by split|]); apply Forall_nil_2)).
    unfold version_pieces. simpl concat.
    rewrite !build_hex_version_loop_number, build_hex_version_loop_dot,
      !build_hex_version_loop_number by auto.
    cbn -[Z.shiftl Z.add Z.mul Z.pow format_08X int foldl].
    rewrite hexversion_fold. repeat f_equal; try lia.
  - rewrite <- (append_empty micro) at 1.
    change (major +:+ "." +:+ minor +:+ "." +:+ micro +:+ "")
      with (version_text major [(".", minor); (".", micro)]).
    unfold build_hex_version, hexversion.
    rewrite re_split_version_text
      by (done || (repeat (apply Forall_cons_2; [by split|]); apply Forall_nil_2)).
    unfold version_pieces. simpl concat.
    rewrite !build_hex_version_loop_number, build_hex_version_loop_dot,
      !build_hex_version_loop_number, build_hex_version_loop_dot,
      !build_hex_version_loop_number by auto.
    cbn -[Z.shiftl Z.add Z.mul Z.pow format_08X int foldl].
    rewrite hexversion_fold. repeat f_equal; try lia.
  - rewrite <- (append_empty serial) at 1.
    change (major +:+ "." +:+ minor +:+ tag +:+ serial +:+ "")
      with (version_text major [(".", minor); (tag, serial)]).
    unfold build_hex_version, hexversion.
    rewrite re_split_version_text
      by (done || (repeat (apply Forall_cons_2; [by split|]); apply Forall_nil_2)).
    unfold version_pieces. simpl concat.
    rewrite !build_hex_version_loop_number, build_hex_version_loop_dot,
      !build_hex_version_loop_number, build_hex_version_loop_tag,
      !build_hex_version_loop_number by auto.
    cbn -[Z.shiftl Z.add Z.mul Z.pow format_08X int foldl].
    rewrite hexversion_fold. repeat f_equal; try lia.
  - rewrite <- (append_empty serial) at 1.
    change (major +:+ "." +:+ minor +:+ "." +:+ micro +:+ tag +:+ serial +:+ "")
      with (version_text major [(".", minor); (".", micro); (tag, serial)]).
    unfold build_hex_version, hexversion.
    rewrite re_split_version_text
      by (done || (repeat (apply Forall_cons_2; [by split|]); apply Forall_nil_2)).
    unfold version_pieces. simpl concat.
    rewrite !build_hex_version_loop_number, build_hex_version_loop_dot,
      !build_hex_version_loop_number, build_hex_version_loop_dot,
      !build_hex_version_loop_number, build_hex_version_loop_tag,
      !build_hex_version_loop_number by auto.
    cbn -[Z.shiftl Z.add Z.mul Z.pow format_08X int foldl].
    rewrite hexversion_fold. repeat f_equal; try lia.
Qed.

End build_hex_version_props.

(** The versions 3.0.11 and 3.1rc2. *)
Lemma build_hex_version_value_witness :
  build_hex_version int_of_digits "3.0.11" = inr "0x03000BF0" ∧
  build_hex_version int_of_digits "3.1rc2" = inr "0x030100C2".
Proof.
  assert (∀ d, is_number d → int_of_digits d = Some (int d)) as Hint.
  { intros d [Hd Hdigits]. unfold int_of_digits.
    by rewrite bool_decide_eq_true_2, Hdigits. }
  destruct (build_hex_version_value int_of_digits "3" "0" "11" "a" "1")
    as (_ & Hrelease & _ & _);
    [done | by split.. | set_solver |].
  destruct (build_hex_version_value int_of_digits "3" "1" "0" "rc" "2")
    as (_ & _ & Hcandidate & _);
    [done | by split.. | set_solver |].
  split; [exact Hrelease | exact Hcandidate].
Defined.

(** ** The encoding of a source file *)

Section detect_opened_file_encoding_props.
#[local] Existing Instance byte_eq_decision.

(** Bytes added behind do not change the lines that are complete. *)
Lemma bytes_split_loop_app n a b piece :
  (n < length (bytes_split_loop piece a))%nat →
  take n (bytes_split_loop piece (a ++ b)) = take n (bytes_split_loop piece a).
Proof.
  revert n piece. induction a as [|c a IH]; intros n piece Hn; simpl in *.
  { by replace n with 0%nat by lia. }
  case_bool_decide; [|by apply IH].
  destruct n as [|n]; [done|]. simpl in *. f_equal. apply IH. lia.
Qed.

(** The loop reads a head of the file that is the whole file or holds two
    complete lines. *)
Lemma read_start_spec rest start :
  (read_start rest start).1 ++ (read_start rest start).2 = start ++ rest ∧
  ((read_start rest start).2 = [] ∨
   3 ≤ length (bytes_split (read_start rest start).1))%nat.
Proof.
  funelim (read_start rest start).
  - simpl. rewrite <- app_assoc, take_drop. split; [done|]. left.
    destruct rest; [done | discriminate].
  - simpl. rewrite <- app_assoc, take_drop. split; [done|]. right.
    by apply Nat.leb_le.
  - destruct H as [Happ Hstop]. split; [|done].
    by rewrite Happ, <- app_assoc, take_drop.
Qed.

Lemma detect_in_lines_take lines default :
  detect_in_lines (take 2 lines) default = detect_in_lines lines default.
Proof. by destruct lines as [|line0 [|line1 lines]]. Qed.

(** The lines searched are the first two lines of the whole file. *)
Lemma detect_opened_file_encoding_lines f default :
  (detect_opened_file_encoding f default).1 =
    detect_in_lines (take 2 (bytes_split f)) default.
Proof.
  unfold detect_opened_file_encoding.
  destruct (read_start_spec f []) as [Happ Hstop].
  destruct (read_start f []) as [start rest]. simpl in *.
  rewrite <- Happ, <- (detect_in_lines_take (bytes_split start)). f_equal.
  destruct Hstop as [->|Hlines]; [by rewrite app_nil_r|].
  unfold bytes_split. symmetry. apply bytes_split_loop_app.
  unfold bytes_split in Hlines. lia.
Qed.

(** X19. [detect_opened_file_encoding] answers from the first two lines of
    the file, whatever the size of the file and wherever the reads of 500
    bytes end: its result is what the two searches give on the first and on
    the second line of the whole file. What it has read is a head of the
    file: the whole file, or a head that holds two complete lines. *)
Theorem detect_opened_file_encoding_two_lines f default :
  (detect_opened_file_encoding f default).1 =
    detect_in_lines (take 2 (bytes_split f)) default ∧
  ∃ start, f = start ++ (detect_opened_file_encoding f default).2 ∧
    ((detect_opened_file_encoding f default).2 = [] ∨
     3 ≤ length (bytes_split start))%nat.
Proof.
  split; [apply detect_opened_file_encoding_lines|].
  unfold detect_opened_file_encoding.
  destruct (read_start_spec f []) as [Happ Hstop].
  destruct (read_start f []) as [start rest]. simpl in *.
  by exists start.
Qed.

(** No match where [coding] does not follow. *)
Lemma match_group_None k l :
  (∀ k', (k' ≤ k)%nat → ¬ coding `prefix_of` drop k' l) → match_group k l = None.
Proof.
  induction k as [|k IH]; intros Hno; simpl.
  - by rewrite bool_decide_eq_false_2 by (by apply Hno).
  - rewrite bool_decide_eq_false_2 by (by apply Hno). apply IH.
    intros k' Hk'. apply Hno. lia.
Qed.

Lemma takewhile_all {A : Type} (P : A → bool) (l : list A) :
  forallb P l = true → takewhile P l = l.
Proof.
  induction l as [|x l IH]; simpl; [done|].
  intros [-> Hl]%andb_true_iff. by rewrite IH.
Qed.

Lemma takewhile_app_all {A : Type} (P : A → bool) (l1 l2 : list A) :
  forallb P l1 = true → takewhile P (l1 ++ l2) = l1 ++ takewhile P l2.
Proof.
  induction l1 as [|x l1 IH]; simpl; [done|].
  intros [-> Hl]%andb_true_iff. by rewrite IH.
Qed.

Lemma is_name_byte_not_space c : is_name_byte c = true → is_space_byte c = false.
Proof.
  intros Hc. apply bool_decide_eq_false_2. intros Hin.
  unfold is_name_byte, is_word_byte in Hc.
  repeat (apply elem_of_cons in Hin as [Heq|Hin]; [rewrite Heq in Hc; discriminate Hc|]).
  by apply elem_of_nil in Hin.
Qed.

Lemma separator_not_word sep : Byte.to_N sep ∈ [58; 61]%N → is_word_byte sep = false.
Proof.
  intros Hin. unfold is_word_byte.
  repeat (apply elem_of_cons in Hin as [->|Hin]; [done|]).
  by apply elem_of_nil in Hin.
Qed.

(** The rest of the pattern matches what follows [coding] in a magic
    comment. *)
Lemma match_after_group_name sep ws name post :
  Byte.to_N sep ∈ [58; 61]%N →
  forallb is_space_byte ws = true →
  name ≠ [] → forallb is_name_byte name = true →
  (∀ c post', post = c :: post' → is_name_byte c = false) →
  match_after_group (sep :: ws ++ name ++ post) = Some name.
Proof.
  intros Hsep Hws Hname Hbytes Hpost. simpl.
  rewrite bool_decide_eq_true_2 by done.
  rewrite dropwhile_app_all by done.
  destruct name as [|c name]; [done|]. simpl in Hbytes |- *.
  apply andb_true_iff in Hbytes as [Hc Hbytes].
  rewrite (is_name_byte_not_space c Hc). simpl. rewrite Hc.
  destruct post as [|p post].
  - by rewrite app_nil_r, takewhile_all.
  - by rewrite takewhile_app_stop by (done || by eapply Hpost).
Qed.

(** At the start of the word that ends in [coding], [\w*] takes the whole
    word and then gives back the six bytes of [coding]. *)
Lemma match_group_unfold k s :
  match_group k s =
    match
      (if bool_decide (coding `prefix_of` drop k s)
       then match_after_group (drop (k + length coding) s) else None)
    with
    | Some name => Some (take (k + length coding) s, name)
    | None =>
        match k with
        | 0 => None
        | S k' => match_group k' s
        end
    end.
Proof. by destruct k. Qed.

Lemma match_group_found word tail name :
  match_after_group tail = Some name →
  (∀ c tail', tail = c :: tail' → c ≠ "c"%byte) →
  ∀ j, (j ≤ 6)%nat →
    match_group (length word + j) (word ++ coding ++ tail) = Some (word ++ coding, name).
Proof.
  intros Htail Hfirst j Hj.
  induction j as [|j IH]; rewrite match_group_unfold.
  - rewrite Nat.add_0_r.
    rewrite drop_app_length, bool_decide_eq_true_2 by (by eexists).
    rewrite app_assoc, <- (length_app word coding), drop_app_length, take_app_length.
    by rewrite Htail.
  - rewrite drop_app_add.
    rewrite bool_decide_eq_false_2.
    + rewrite Nat.add_succ_r. apply IH. lia.
    + intros Hprefix.
      destruct j as [|[|[|[|[|[|j]]]]]]; simpl in Hprefix;
        try (by destruct Hprefix as [? [=]]); [|lia].
      destruct tail as [|c tail']; [by destruct Hprefix as [? [=]]|].
      destruct Hprefix as [? [= -> _]]. by eapply Hfirst.
Qed.

Lemma _match_file_encoding_unfold line :
  _match_file_encoding line =
    match match_group (length (takewhile is_word_byte line)) line with
    | Some groups => Some groups
    | None =>
        match line with
        | [] => None
        | _ :: line' => _match_file_encoding line'
        end
    end.
Proof. by destruct line. Qed.

(** A word run that starts in [d] ends in [d] when the last byte of [d] is
    no word byte. *)
Lemma takewhile_word_inside d x s :
  is_word_byte x = false →
  (length (takewhile is_word_byte ((d ++ [x]) ++ s)) < length (d ++ [x]))%nat.
Proof.
  intros Hx. induction d as [|c d IH]; simpl.
  - rewrite Hx. simpl. lia.
  - destruct (is_word_byte c); simpl; lia.
Qed.

(** The search passes over bytes before which [coding] does not occur and
    which end with a byte that is no word byte. *)
Lemma _match_file_encoding_skip d s :
  (d = [] ∨ ∃ d' x, d = d' ++ [x] ∧ is_word_byte x = false) →
  (∀ k, (k < length d)%nat → ¬ coding `prefix_of` drop k (d ++ s)) →
  _match_file_encoding (d ++ s) = _match_file_encoding s.
Proof.
  induction d as [|c d IH]; intros Hend Hno; [done|].
  destruct Hend as [|(d' & x & Hd & Hx)]; [done|].
  rewrite _match_file_encoding_unfold.
  rewrite match_group_None.
  - simpl. apply IH.
    + destruct d' as [|c' d']; [left | right].
      * simpl in Hd. by injection Hd as _ ->.
      * simpl in Hd. injection Hd as _ ->. by exists d', x.
    + intros k Hk. apply (Hno (S k)). simpl. lia.
  - intros k' Hk'. apply Hno.
    pose proof (takewhile_word_inside d' x s Hx) as Hin. rewrite <- Hd in Hin. lia.
Qed.

(** X20. The pattern of [_match_file_encoding] finds the encoding after
    the first [coding] of a line: when [coding] occurs first at the end of
    [pre] and is followed by [:] or [=], any white space, and a name of
    letters, digits, [_], [-] and [.] that ends where such bytes end, the
    second group is that name; the first group is [coding] with the word
    bytes that stand right before it. *)
Theorem _match_file_encoding_first_coding pre sep ws name post :
  let line := pre ++ coding ++ sep :: ws ++ name ++ post in
  (∀ k, (k < length pre)%nat → ¬ coding `prefix_of` drop k line) →
  Byte.to_N sep ∈ [58; 61]%N →
  forallb is_space_byte ws = true →
  name ≠ [] → forallb is_name_byte name = true →
  (∀ c post', post = c :: post' → is_name_byte c = false) →
  _match_file_encoding line =
    Some (rev (takewhile is_word_byte (rev pre)) ++ coding, name).
Proof.
  intros line Hfirst Hsep Hws Hname Hbytes Hpost.
  set (word := rev (takewhile is_word_byte (rev pre))).
  set (d := rev (dropwhile is_word_byte (rev pre))).
  assert (pre = d ++ word) as Hpre.
  { unfold d, word. by rewrite <- rev_app_distr, takewhile_dropwhile, rev_involutive. }
  assert (forallb is_word_byte word = true) as Hword.
  { unfold word. rewrite forallb_rev. apply takewhile_forallb. }
  assert (d = [] ∨ ∃ d' x, d = d' ++ [x] ∧ is_word_byte x = false) as Hd.
  { unfold d. destruct (dropwhile is_word_byte (rev pre)) as [|x r] eqn:Hdrop; [by left|].
    right. exists (rev r), x. split; [done|].
    clear -Hdrop. induction (rev pre) as [|y l IH]; simpl in Hdrop; [done|].
    destruct (is_word_byte y) eqn:Hy; [by apply IH | by injection Hdrop as -> _]. }
  pose proof (match_after_group_name sep ws name post Hsep Hws Hname Hbytes Hpost) as Htail.
  unfold line. rewrite Hpre, <- app_assoc.
  rewrite _match_file_encoding_skip; [|done|].
  - rewrite _match_file_encoding_unfold.
    rewrite (app_assoc word coding), takewhile_app_stop.
    + rewrite length_app.
      rewrite <- (app_assoc word coding).
      rewrite (match_group_found word (sep :: ws ++ name ++ post) name Htail); [done| |done].
      intros c tail' [= <- _] ->. vm_compute in Hsep.
      repeat (apply elem_of_cons in Hsep as [Hsep|Hsep]; [discriminate Hsep|]).
      by apply elem_of_nil in Hsep.
    + rewrite forallb_app, Hword. done.
    + by apply separator_not_word.
  - intros k Hk. rewrite app_assoc, <- Hpre. apply Hfirst.
    rewrite Hpre, length_app. lia.
Qed.

(** X21. Without [coding] in its first two lines a file has the default
    encoding: when [coding] occurs in neither of them, whatever else the
    file holds, [detect_opened_file_encoding] returns [default]. *)
Theorem detect_opened_file_encoding_default f default :
  (∀ line k, line ∈ take 2 (bytes_split f) → ¬ coding `prefix_of` drop k line) →
  (detect_opened_file_encoding f default).1 = default.
Proof.
  intros Hno.
  assert (∀ line, (∀ k, ¬ coding `prefix_of` drop k line) →
                  _match_file_encoding line = None) as Hline.
  { clear. intros line.
    induction line as [|c line IH]; intros Hno; rewrite _match_file_encoding_unfold.
    - rewrite match_group_None; [done|]. intros k _. by apply Hno.
    - rewrite match_group_None by (intros k _; by apply Hno).
      apply IH. intros k. by apply (Hno (S k)). }
  assert (∀ line, line ∈ take 2 (bytes_split f) → _match_file_encoding line = None)
    as Hnone.
  { intros line Hin. apply Hline. intros k. by apply Hno. }
  rewrite detect_opened_file_encoding_lines.
  unfold detect_in_lines.
  destruct (bytes_split f) as [|line0 [|line1 lines]]; simpl in *.
  - done.
  - rewrite (Hnone line0); [done | by left].
  - rewrite (Hnone line0), (Hnone line1); [done | right; by left | by left].
Qed.

End detect_opened_file_encoding_props.

(** The magic comment of PEP 263. *)
Lemma _match_file_encoding_first_coding_witness :
  _match_file_encoding (latin_1_encode "# -*- coding: latin-1 -*-") =
    Some (coding, latin_1_encode "latin-1").
Proof.
  apply (_match_file_encoding_first_coding
           (latin_1_encode "# -*- ") ":"%byte (latin_1_encode " ")
           (latin_1_encode "latin-1") (latin_1_encode " -*-")).
  - intros k Hk.
    do 6 (destruct k as [|k]; [by intros [? [=]]|]). simpl in Hk. lia.
  - set_solver.
  - reflexivity.
  - discriminate.
  - reflexivity.
  - by intros c post' [= <- _].
Defined.

(** A file whose third line holds a magic comment. *)
Lemma detect_opened_file_encoding_default_witness :
  (detect_opened_file_encoding
     (latin_1_encode "import os" ++ [x0a] ++ latin_1_encode "x = 1" ++ [x0a] ++
      latin_1_encode "# coding: latin-1" ++ [x0a]) "UTF-8").1 = "UTF-8".
Proof.
  apply detect_opened_file_encoding_default.
  intros line k Hin. vm_compute in Hin.
  repeat (apply elem_of_cons in Hin as [->|Hin]);
    [| |by apply elem_of_nil in Hin];
    do 9 (destruct k as [|k]; [by intros [? [=]]|]); simpl; try rewrite drop_nil;
    by intros [? [=]].
Defined.

(** ** Module names and file names *)

Lemma startswith_chars s p :
  startswith s p = true ↔ chars p `prefix_of` chars s.
Proof.
  unfold startswith. revert s. induction p as [|c p IH]; intros s.
  { split; [intros _; by eexists | by destruct s]. }
  destruct s as [|d s]; simpl.
  { split; [done | by intros [? [=]]]. }
  destruct (ascii_dec c d) as [->|Hne].
  - rewrite IH. split; intros [k Hk]; exists k; simpl in *; congruence.
  - split; [done|]. intros [k [= Hd _]]. congruence.
Qed.

(** X22. [raise_error_if_module_name_forbidden] raises, a [ValueError],
    exactly for the module [cython] and the modules of a package [cython]:
    when the name up to its first dot is [cython]. A name that only starts
    with these letters, such as [cythonize], passes. *)
Theorem raise_error_if_module_name_forbidden_top_level full_module_name :
  (∃ message, raise_error_if_module_name_forbidden full_module_name =
                inl (ValueError message)) ↔
  takewhile (λ c, negb (bool_decide (c = "."%char))) (chars full_module_name) =
    chars "cython".
Proof.
  unfold raise_error_if_module_name_forbidden.
  destruct (bool_decide (full_module_name = "cython") ||
            startswith full_module_name "cython.") eqn:Htest.
  - split; [intros _ | by eexists].
    apply orb_true_iff in Htest as [->%bool_decide_eq_true|[k Hk]%startswith_chars]; [done|].
    rewrite Hk. done.
  - split; [by intros [? [=]]|]. intros Hhead. exfalso.
    apply orb_false_iff in Htest as [Hname%bool_decide_eq_false Hprefix].
    pose proof (takewhile_dropwhile (λ c, negb (bool_decide (c = "."%char)))
                  (chars full_module_name)) as Hsplit.
    rewrite Hhead in Hsplit.
    destruct (dropwhile _ (chars full_module_name)) as [|c rest] eqn:Hdrop.
    + apply Hname, chars_inj. by rewrite <- Hsplit, app_nil_r.
    + assert (c = "."%char) as ->.
      { clear -Hdrop. induction (chars full_module_name) as [|y l IH]; [done|].
        simpl in Hdrop. case_bool_decide as Hy; simpl in Hdrop.
        - by injection Hdrop as -> _.
        - by apply IH. }
      assert (startswith full_module_name "cython." = true); [|congruence].
      apply startswith_chars. exists rest. by rewrite <- Hsplit.
Qed.

Section decode_filename_props.
Context {encoding_name : Type}.
Variable bytes_decode : encoding_name → bytes → outcome (list N).
Variable getfilesystemencoding : option encoding_name.
Variable getdefaultencoding : encoding_name.

Abbreviation decode := (decode_filename bytes_decode getfilesystemencoding getdefaultencoding).

(** X23. [decode_filename] never raises [UnicodeDecodeError] and leaves
    alone what it cannot or need not decode: a [str] is returned as it is,
    bytes that the encoding of the file system (the default encoding when
    there is none) does not decode are returned as they are, and what the
    function has returned it returns unchanged when it is given it again. *)
Theorem decode_filename_fixes_result filename :
  decode filename ≠ Raise UnicodeDecodeError ∧
  (∀ t, decode (StrName t) = Return (StrName t)) ∧
  (∀ b, decode filename = Return (BytesName b) →
        filename = BytesName b ∧
        bytes_decode (default getdefaultencoding getfilesystemencoding) b =
          Raise UnicodeDecodeError) ∧
  (∀ result, decode filename = Return result → decode result = Return result).
Proof.
  assert (match getfilesystemencoding with
          | Some encoding => encoding
          | None => getdefaultencoding
          end = default getdefaultencoding getfilesystemencoding) as Henc
    by (by destruct getfilesystemencoding).
  destruct filename as [b|t]; simpl; rewrite ?Henc.
  - destruct (bytes_decode _ b) as [t|e] eqn:Hdecode.
    + split_and!; [done | done | done |]. by intros result [= <-].
    + case_bool_decide as He.
      * subst e. split_and!; [done | done | |].
        -- by intros b' [= <-].
        -- intros result [= <-]. simpl. rewrite Henc, Hdecode.
           by rewrite bool_decide_eq_true_2.
      * split_and!; [congruence | done | done | done].
  - split_and!; [done | done | done |]. by intros result [= <-].
Qed.

End decode_filename_props.

(** ** [replace_suffix] *)

Lemma rfind_from_app c a b i last :
  rfind_from c (a ++ b) i last =
    rfind_from c b (i + Z.of_nat (length a))%Z (rfind_from c a i last).
Proof.
  revert i last. induction a as [|x a IH]; intros i last; simpl.
  - by rewrite Z.add_0_r.
  - rewrite IH. f_equal. lia.
Qed.

Lemma rfind_from_absent c l i last : c ∉ l → rfind_from c l i last = last.
Proof.
  revert i last. induction l as [|x l IH]; intros i last Hc; simpl; [done|].
  apply not_elem_of_cons in Hc as [Hx Hl].
  rewrite bool_decide_eq_false_2 by done. by apply IH.
Qed.

Lemma rfind_from_bound c l i last :
  (last < i)%Z → (rfind_from c l i last < i + Z.of_nat (length l))%Z.
Proof.
  revert i last. induction l as [|x l IH]; intros i last Hlast; simpl; [lia|].
  case_bool_decide.
  - specialize (IH (i + 1)%Z i). lia.
  - specialize (IH (i + 1)%Z last). lia.
Qed.

(** The last occurrence of a character that does not occur after it. *)
Lemma rfind_last c a b :
  c ∉ chars b → rfind c (str (a ++ c :: chars b)) = Z.of_nat (length a).
Proof.
  intros Hb. unfold rfind. rewrite chars_str, rfind_from_app. simpl.
  rewrite bool_decide_eq_true_2 by done. by rewrite rfind_from_absent.
Qed.

Lemma rfind_from_all c l i last :
  l ≠ [] → Forall (λ x, x = c) l →
  rfind_from c l i last = (i + Z.of_nat (length l) - 1)%Z.
Proof.
  revert i last. induction l as [|x l IH]; intros i last Hl Hall; [done|].
  apply Forall_cons in Hall as [-> Hall]. simpl.
  rewrite bool_decide_eq_true_2 by done.
  destruct l as [|y l]; [simpl; lia|].
  rewrite IH by done. simpl length. lia.
Qed.

(** The last separator of a path that consists of a directory, which is
    empty or ends with the separator, and a file name. *)
Lemma rfind_separator (D file : list ascii) :
  (D = [] ∨ ∃ d, D = d ++ ["/"%char]) → "/"%char ∉ file →
  rfind_from "/"%char (D ++ file) 0 (-1) = (Z.of_nat (length D) - 1)%Z.
Proof.
  intros [->|[d ->]] Hfile.
  - simpl. by rewrite rfind_from_absent.
  - rewrite <- app_assoc, rfind_from_app. simpl.
    rewrite rfind_from_absent by done. rewrite length_app. simpl. lia.
Qed.

Lemma os_path_splitext_extension (D S E : list ascii) :
  (D = [] ∨ ∃ d, D = d ++ ["/"%char]) →
  "/"%char ∉ S → "/"%char ∉ E → "."%char ∉ E →
  (∃ c, c ∈ S ∧ c ≠ "."%char) →
  os_path_splitext (str (D ++ S ++ "."%char :: E)) = (str (D ++ S), str ("."%char :: E)).
Proof.
  intros HD HS HE Hdot (c & Hc & Hne).
  unfold os_path_splitext, rfind. rewrite chars_str.
  rewrite (rfind_separator D (S ++ "."%char :: E)) by
    (done || (rewrite not_elem_of_app, not_elem_of_cons; by split_and!)).
  assert (rfind_from "."%char (D ++ S ++ "."%char :: E) 0 (-1) =
          Z.of_nat (length (D ++ S))) as ->.
  { rewrite (app_assoc D S), rfind_from_app. simpl.
    rewrite rfind_from_absent by done. lia. }
  rewrite length_app.
  replace (Z.of_nat (length D) - 1 <? Z.of_nat (length D + length S))%Z with true
    by (symmetry; apply Z.ltb_lt; lia).
  replace (Z.to_nat (Z.of_nat (length D) - 1 + 1)) with (length D) by lia.
  replace (Z.to_nat (Z.of_nat (length D + length S) - (Z.of_nat (length D) - 1 + 1)))
    with (length S) by lia.
  rewrite drop_app_length, take_app_length.
  replace (existsb _ S) with true.
  - simpl. rewrite Nat2Z.id, <- length_app, (app_assoc D S).
    by rewrite take_app_length, drop_app_length.
  - symmetry. apply existsb_exists. exists c. split; [by apply list_elem_of_In|].
    by rewrite bool_decide_eq_false_2.
Qed.

Lemma os_path_splitext_none (D S E : list ascii) :
  (D = [] ∨ ∃ d, D = d ++ ["/"%char]) →
  "/"%char ∉ S → "/"%char ∉ E → "."%char ∉ E →
  Forall (λ c, c = "."%char) S →
  os_path_splitext (str (D ++ S ++ E)) = (str (D ++ S ++ E), "").
Proof.
  intros HD HS HE Hdot Hdots.
  unfold os_path_splitext, rfind. rewrite chars_str.
  rewrite (rfind_separator D (S ++ E)) by (done || (rewrite not_elem_of_app; by split)).
  match goal with
  | |- (if ?b then _ else _) = _ => replace b with false; [done|]
  end.
  symmetry. apply andb_false_iff.
  rewrite (app_assoc D S), rfind_from_app, (rfind_from_absent _ E) by done.
  rewrite rfind_from_app.
  destruct S as [|x S'].
  - left. apply Z.ltb_ge. simpl.
    pose proof (rfind_from_bound "."%char D 0 (-1)). lia.
  - right. rewrite rfind_from_all by done.
    replace (Z.to_nat (Z.of_nat (length D) - 1 + 1)) with (length D) by lia.
    rewrite <- app_assoc, drop_app_length.
    replace (Z.to_nat _) with (length S') by (simpl length; lia).
    apply not_true_iff_false. intros (y & Hy & Hnot)%existsb_exists.
    apply list_elem_of_In in Hy.
    assert (y ∈ x :: S') as Hin.
    { rewrite take_app_le in Hy by (simpl; lia).
      by apply (subseteq_take (length S') (x :: S')). }
    rewrite Forall_forall in Hdots. rewrite (Hdots y Hin) in Hnot.
    by rewrite bool_decide_eq_true_2 in Hnot.
Qed.

(** X24. [replace_suffix] replaces the extension of the file name and
    nothing else: for a path that ends in a file name made of a stem, a dot
    and an extension, the stem holding a character other than a dot and
    the extension no dot, the result is the path up to the stem, with the
    new suffix. A file name without such an extension, dots in front of it
    or not, is kept whole and the suffix is added, whatever dots the
    directories have in their names. *)
Theorem replace_suffix_extension (directory stem ext newsuf : string) :
  (directory = "" ∨ ∃ d, directory = d +:+ "/") →
  "/"%char ∉ chars stem → "/"%char ∉ chars ext → "."%char ∉ chars ext →
  ((∃ c, c ∈ chars stem ∧ c ≠ "."%char) →
   replace_suffix (directory +:+ stem +:+ "." +:+ ext) newsuf =
     directory +:+ stem +:+ newsuf) ∧
  (Forall (λ c, c = "."%char) (chars stem) →
   replace_suffix (directory +:+ stem +:+ ext) newsuf =
     directory +:+ stem +:+ ext +:+ newsuf).
Proof.
  intros Hdir Hstem Hext Hdot.
  assert (chars directory = [] ∨ ∃ d, chars directory = d ++ ["/"%char]) as HD.
  { destruct Hdir as [->|[d ->]]; [by left | right].
    exists (chars d). by rewrite chars_app. }
  split.
  - intros Hc. unfold replace_suffix.
    replace (directory +:+ stem +:+ "." +:+ ext)
      with (str (chars directory ++ chars stem ++ "."%char :: chars ext))
      by (apply chars_inj; by rewrite chars_str, !chars_app).
    rewrite os_path_splitext_extension by done. simpl.
    apply chars_inj. by rewrite !chars_app, chars_str, <- !app_assoc.
  - intros Hdots. unfold replace_suffix.
    replace (directory +:+ stem +:+ ext)
      with (str (chars directory ++ chars stem ++ chars ext))
      by (apply chars_inj; by rewrite chars_str, !chars_app).
    rewrite os_path_splitext_none by done. simpl.
    apply chars_inj. by rewrite !chars_app, chars_str, <- !app_assoc.
Qed.

(** A character that is none of the characters of a given string. *)
Ltac not_among :=
  let H := fresh in
  intros H;
  repeat (apply elem_of_cons in H as [H|H]; [discriminate H|]);
  by apply elem_of_nil in H.

Lemma replace_suffix_extension_witness :
  replace_suffix "pkg.d/mod.pyx" ".c" = "pkg.d/mod.c" ∧
  replace_suffix "pkg.d/.hidden" ".c" = "pkg.d/.hidden.c".
Proof.
  split.
  - apply (replace_suffix_extension "pkg.d/" "mod" "pyx" ".c");
      [right; by exists "pkg.d" | not_among.. |].
    exists "m"%char. split; [by left | discriminate].
  - apply (replace_suffix_extension "pkg.d/" "." "hidden" ".c");
      [right; by exists "pkg.d" | not_among.. |].
    by apply Forall_cons_2; [|apply Forall_nil_2].
Defined.

(** ** Package directories: more files *)

(** X25. Files that appear never make a namespace package of a regular
    one: when every path that exists for one file system exists for a
    second one, a list of package names that [check_package_dir] finds to be
    a namespace package in the second is one in the first as well; the
    directory returned is the same in both. *)
Theorem check_package_dir_more_files (w w' : file_world) dir_path package_names :
  (∀ path, path_exists w path = true → path_exists w' path = true) →
  (check_package_dir w dir_path package_names).1.1 =
    (check_package_dir w' dir_path package_names).1.1 ∧
  ((check_package_dir w' dir_path package_names).1.2 = true →
   (check_package_dir w dir_path package_names).1.2 = true).
Proof.
  intros Hmore. unfold check_package_dir.
  rewrite !check_package_dir_loop_spec. simpl. split; [done|].
  rewrite !forallb_forall. intros Hnone d Hd. specialize (Hnone d Hd).
  apply negb_true_iff, not_true_iff_false. intros Hmarked.
  apply negb_true_iff, not_true_iff_false in Hnone. apply Hnone.
  apply contains_init_truthy in Hmarked as (filename & Hin & Hexists).
  apply contains_init_truthy. exists filename. split; [done | by apply Hmore].
Qed.

(** The empty file system, and the one in which [/a/b] is a package. *)
Lemma check_package_dir_more_files_witness :
  (check_package_dir (snapshot_world []) "/a" ["b"; "c"]).1.1 =
    (check_package_dir one_package "/a" ["b"; "c"]).1.1 ∧
  ((check_package_dir one_package "/a" ["c"]).1.2 = true →
   (check_package_dir (snapshot_world []) "/a" ["c"]).1.2 = true).
Proof.
  assert (∀ path, path_exists (snapshot_world []) path = true →
                  path_exists one_package path = true) as Hmore.
  { intros path Hpath. vm_compute in Hpath. discriminate. }
  split.
  - apply (check_package_dir_more_files (snapshot_world []) one_package "/a" ["b"; "c"] Hmore).
  - apply (check_package_dir_more_files (snapshot_world []) one_package "/a" ["c"] Hmore).
Defined.

(** ** The function level cache: functions of their arguments *)

Section cached_function_pure.
Context {Args Res World : Type} `{Countable Args}.
Implicit Types (st : memo_state Args Res World).

(** X26. Memoizing a function that depends on its arguments only does not
    change what it returns. The cache that [cached_function] registers
    holds only values of the function, and keeps doing so through calls of
    the wrapper, calls of the wrappers of other functions, whatever they
    do, and [clear_function_caches]; and as long as it does, a call of the
    wrapper returns the value of the function and leaves the world as it
    is. *)
Theorem cached_function_transparent (h : Args → Res) :
  (∀ st, coherent h (cached_function st).1 (cached_function st).2) ∧
  (∀ cache st args,
     coherent h cache st →
     (wrapper cache (λ a w, (Return (h a), w)) args st).1 = Return (h args) ∧
     world (wrapper cache (λ a w, (Return (h a), w)) args st).2 = world st ∧
     coherent h cache (wrapper cache (λ a w, (Return (h a), w)) args st).2) ∧
  (∀ cache st j g y,
     coherent h cache st → j ≠ cache → coherent h cache (wrapper j g y st).2) ∧
  (∀ cache st, coherent h cache st → coherent h cache (clear_function_caches st)).
Proof.
  split_and!.
  - intros st args res. unfold cached_function, cached_value. simpl.
    rewrite lookup_app_r by done. rewrite Nat.sub_diag. simpl. by rewrite lookup_empty.
  - intros cache st args Hcoherent.
    destruct (wrapper_of_pure h cache args st Hcoherent) as [Hres Hkeep].
    split_and!; [done | | done].
    unfold wrapper. by destruct (default ∅ (_function_caches st !! cache) !! args).
  - intros cache st j g y Hcoherent Hj args res Hentry. apply (Hcoherent args res).
    rewrite <- Hentry. symmetry.
    unfold wrapper, cached_value.
    destruct (default ∅ (_function_caches st !! j) !! y); [done|].
    destruct (g y (world st)) as [[r|e] w']; simpl; [|done].
    by rewrite list_lookup_insert_ne.
  - intros cache st Hcoherent args res Hentry.
    by rewrite cached_value_clear in Hentry.
Qed.

End cached_function_pure.

(** ** Generated files: what [is_cython_generated_file] answers *)

Section is_cython_generated_file_props.
Context {time : Type}.
Implicit Types (d : Disk.t time).
#[local] Existing Instance byte_eq_decision.

(** X27. [is_cython_generated_file] always answers and touches nothing:
    whatever fails when the file is opened, read or closed, it returns a
    truth value and leaves the names and the files as they are. For a path
    that names no regular file the answer is [if_not_found]. A file that it
    accepts when failures are not allowed it accepts when they are. *)
Theorem is_cython_generated_file_answers path allow_failed if_not_found d :
  (∃ answer,
     (is_cython_generated_file path allow_failed if_not_found d).1 = Return answer) ∧
  Disk.entries (is_cython_generated_file path allow_failed if_not_found d).2 =
    Disk.entries d ∧
  Disk.inodes (is_cython_generated_file path allow_failed if_not_found d).2 =
    Disk.inodes d ∧
  ((∀ ino, Disk.entries d !! path ≠ Some (Disk.RegularFile ino)) →
   (is_cython_generated_file path allow_failed if_not_found d).1 = Return if_not_found) ∧
  ((is_cython_generated_file path false if_not_found d).1 = Return true →
   (is_cython_generated_file path true if_not_found d).1 = Return true).
Proof.
  destruct (is_cython_generated_file_disk path allow_failed if_not_found d)
    as (Hentries & Hinodes & Hanswer & Hmissing).
  split_and!; [done..|].
  destruct d as [es ins nw fl].
  unfold is_cython_generated_file, Disk.path_exists, Disk.open_rb, Disk.read, Disk.close,
    Disk.take_fault. simpl.
  destruct (es !! path) as [[ino|]|]; simpl; [|done..].
  destruct (default false (head fl)); simpl; [done|].
  destruct (default false (head (tail fl))); simpl;
    destruct (default false (head (tail (tail fl)))); simpl; try done.
  - intros [= Htest]. f_equal.
    apply orb_true_iff in Htest as [Htest| ->]; [|by rewrite orb_true_r].
    rewrite orb_false_r in Htest. by rewrite Htest.
  - intros [= Htest]. f_equal.
    apply orb_true_iff in Htest as [Htest| ->]; [|by rewrite orb_true_r].
    rewrite orb_false_r in Htest. by rewrite Htest.
Qed.

End is_cython_generated_file_props.

(** ** Captured streams: what a capture leaves behind *)

Section capture_session_props.
Context {encoding_name : Type}.
Variable bytes_decode : encoding_name → bytes → outcome (list N).
Implicit Types c : capture_cells (encoding_name:=encoding_name).

Lemma captured_fd_next_in_session fd d0 s0 :
  faults s0 = [] → fds s0 !! fd = Some d0 →
  ∃ c s1, captured_fd_next (GenCreated fd None) s0 = (Return (), GenSuspended c, s1) ∧
    stream c = fd ∧ in_session s0 c [] s1.
Proof.
  destruct s0 as [t ofs fs fl]. simpl. intros -> Hfd.
  unfold os_dup, TemporaryFile, os_dup2. simpl. rewrite Hfd. simpl.
  set (orig := lowest_free t).
  set (tfd := lowest_free (<[orig := d0]> t)).
  set (dt := fresh (dom ofs)). set (ft := fresh (dom fs)).
  assert (t !! orig = None) as Horig by apply lowest_free_free.
  assert (<[orig := d0]> t !! tfd = None) as Htfd by apply lowest_free_free.
  assert (ofs !! dt = None) as Hdt by (apply not_elem_of_dom, is_fresh).
  assert (fs !! ft = None) as Hft by (apply not_elem_of_dom, is_fresh).
  assert (orig ≠ tfd) by (intros E; rewrite <- E, lookup_insert_eq in Htfd; done).
  rewrite lookup_insert_eq.
  eexists _, _. split; [reflexivity|]. split; [done|].
  unfold in_session. simpl. split_and!; try done.
  exists d0, dt, ft, 0. split_and!; try done.
  by rewrite lookup_insert_ne in Htfd.
Qed.

Lemma os_write_in_session s0 c content s data :
  in_session s0 c content s →
  ∃ s', os_write (stream c) data s = (Return (length data), s') ∧
    in_session s0 c (content ++ data) s'.
Proof.
  intros (He & Hc & Hfl & d0 & dt & ft & pos &
          Hfd & Horig & Htemp & Hne & Hdt & Hft & Hfds & Hofs & Hfs).
  unfold os_write. rewrite Hfds, lookup_insert_eq, Hofs, lookup_insert_eq. simpl.
  rewrite Hfs, lookup_insert_eq. simpl.
  eexists. split; [reflexivity|].
  unfold in_session. simpl. split_and!; try done.
  exists d0, dt, ft, (length content + length data). split_and!; try done.
  - by rewrite insert_insert_eq.
  - by rewrite insert_insert_eq, write_at_append.
Qed.

Lemma get_output_cells_in_session s0 c content s :
  in_session s0 c content s →
  ∃ c' s', get_output_cells bytes_decode c s = (Return (Bytes content), c', s') ∧
    stream c' = stream c ∧ in_session s0 c' content s'.
Proof.
  intros (He & Hc & Hfl & d0 & dt & ft & pos &
          Hfd & Horig & Htemp & Hne & Hdt & Hft & Hfds & Hofs & Hfs).
  assert (stream c ≠ temp_fileno c) as Hst by congruence.
  assert (fds s !! temp_fileno c = Some dt) as Hlook.
  { by rewrite Hfds, lookup_insert_ne, lookup_insert_eq. }
  unfold get_output_cells, read_output, file_seek, file_read.
  rewrite Hc, Hlook, Hofs, lookup_insert_eq. simpl.
  rewrite Hlook, lookup_insert_eq. simpl.
  rewrite Hfs, lookup_insert_eq, He. simpl.
  eexists _, _. split; [reflexivity|]. split; [done|].
  unfold in_session. simpl. split_and!; try done.
  eexists d0, dt, ft, _. split_and!; try done.
  by rewrite !insert_insert_eq.
Qed.

Lemma run_body_in_session s0 body ends :
  ∀ c content s log,
    writes_and_retrieves (stream c) body →
    in_session s0 c content s →
    ∃ c' s', run_body bytes_decode body ends log (GenSuspended c) s =
               (log ++ retrieved body content, ends, GenSuspended c', s') ∧
      stream c' = stream c ∧ in_session s0 c' (content ++ written body) s'.
Proof.
  induction body as [|a body IH]; intros c content s log Hbody Hin; simpl.
  { exists c, s. by rewrite !app_nil_r. }
  apply Forall_cons in Hbody as [Ha Hbody].
  destruct Ha as [->|[data ->]].
  - destruct (get_output_cells_in_session _ _ _ _ Hin) as (c1 & s1 & -> & Hs1 & Hin1).
    destruct (IH c1 content s1 (log ++ [Bytes content])) as (c' & s' & -> & Hs' & Hin');
      [by rewrite Hs1 | done |].
    exists c', s'. rewrite <- app_assoc. split_and!; [done | congruence | done].
  - destruct (os_write_in_session _ _ _ _ data Hin) as (s1 & -> & Hin1).
    destruct (IH c (content ++ data) s1 log) as (c' & s' & -> & Hs' & Hin');
      [done | done |].
    exists c', s'. by rewrite app_assoc.
Qed.

(** Leaving the scope gives back the descriptor table of the start. *)
Lemma captured_fd_next_leaves s0 c content s :
  in_session s0 c content s →
  ∃ c' s', captured_fd_next (GenSuspended c) s =
             (Raise StopIteration, GenFinished (Some c'), s') ∧
    _output c' = content ∧ temp_closed c' = true ∧ encoding c' = None ∧
    faults s' = [] ∧ fds s' = fds s0 ∧
    open_files s0 ⊆ open_files s' ∧ files s0 ⊆ files s'.
Proof.
  intros (He & Hc & Hfl & d0 & dt & ft & pos &
          Hfd & Horig & Htemp & Hne & Hdt & Hft & Hfds & Hofs & Hfs).
  assert (stream c ≠ temp_fileno c) as Hst by congruence.
  assert (stream c ≠ orig_stream c) as Hso by congruence.
  simpl. unfold os_dup2, read_output, file_seek, file_read. simpl.
  rewrite Hfl. simpl.
  rewrite Hfds, lookup_insert_ne, lookup_insert_ne, lookup_insert_eq by done. simpl.
  rewrite Hc. simpl.
  rewrite lookup_insert_ne, lookup_insert_ne, lookup_insert_eq by done. simpl.
  rewrite Hofs, lookup_insert_eq. simpl.
  rewrite lookup_insert_ne, lookup_insert_ne, lookup_insert_eq by done. simpl.
  rewrite lookup_insert_eq. simpl.
  unfold leave_with, temp_file_close, os_close. simpl.
  rewrite lookup_insert_ne, lookup_insert_ne, lookup_insert_eq by done. simpl.
  unfold finally_close, os_close. simpl.
  rewrite lookup_delete_ne, lookup_insert_ne, lookup_insert_ne, lookup_insert_ne,
    lookup_insert_eq by done. simpl.
  eexists _, _. split; [reflexivity|]. simpl.
  rewrite Hfs, lookup_insert_eq. simpl. split_and!; try done.
  - apply map_eq. intros k.
    destruct (decide (k = orig_stream c)) as [->|Hk1]; [by rewrite lookup_delete_eq|].
    rewrite lookup_delete_ne by done.
    destruct (decide (k = temp_fileno c)) as [->|Hk2]; [by rewrite lookup_delete_eq|].
    rewrite lookup_delete_ne by done.
    destruct (decide (k = stream c)) as [->|Hk3]; [by rewrite lookup_insert_eq|].
    by rewrite !lookup_insert_ne.
  - rewrite !insert_insert_eq. by apply insert_subseteq.
  - by apply insert_subseteq.
Qed.

(** A whole capture of [fd], the region writing to [fd] and looking at the
    output, without failures of the system. *)
Lemma with_captured_fd_session fd s body ends :
  faults s = [] → is_Some (fds s !! fd) → writes_and_retrieves fd body →
  ∃ c s',
    with_captured_fd bytes_decode fd None body ends s =
      (match ends with
       | Some e => Raise e
       | None => Return (retrieved body [])
       end, GenFinished (Some c), s') ∧
    _output c = written body ∧ temp_closed c = true ∧ encoding c = None ∧
    faults s' = [] ∧ fds s' = fds s ∧
    open_files s ⊆ open_files s' ∧ files s ⊆ files s'.
Proof.
  intros Hfl [d0 Hfd] Hbody.
  destruct (captured_fd_next_in_session fd d0 s Hfl Hfd) as (c1 & s1 & Henter & Hs1 & Hin1).
  destruct (run_body_in_session s body ends c1 [] s1 []) as (c2 & s2 & Hrun & Hs2 & Hin2);
    [by rewrite Hs1 | done |].
  destruct (captured_fd_next_leaves s c2 _ s2 Hin2)
    as (c3 & s3 & Hexit & Hout & Hclosed & Henc & Hfl3 & Hfds & Hofs & Hfs).
  exists c3, s3. split; [|done].
  unfold with_captured_fd, with_statement, __enter__, __exit__, captured_fd.
  rewrite Henter, Hrun, Hexit. simpl. by destruct ends.
Qed.

(** X28. A capture leaves no trace in the process: when no call of the
    system fails and the region only writes to the captured descriptor and
    looks at the output, then, however the region ends, after the [with]
    statement the descriptor table is exactly the one before it, no
    descriptor is left open and none is lost, and every open file
    description and every file that existed is as it was. The output is
    cached. *)
Theorem captured_fd_leaves_no_trace fd s body ends :
  faults s = [] → is_Some (fds s !! fd) → writes_and_retrieves fd body →
  let res := with_captured_fd bytes_decode fd None body ends s in
  res.1.1 = match ends with
            | Some e => Raise e
            | None => Return (retrieved body [])
            end ∧
  fds res.2 = fds s ∧
  open_files s ⊆ open_files res.2 ∧ files s ⊆ files res.2 ∧
  get_output bytes_decode res.1.2 res.2 = (Return (Bytes (written body)), res.1.2, res.2).
Proof.
  intros Hfl Hfd Hbody res.
  destruct (with_captured_fd_session fd s body ends Hfl Hfd Hbody)
    as (c & s' & Hrun & Hout & Hclosed & Henc & _ & Hfds & Hofs & Hfs).
  unfold res. rewrite Hrun. simpl. split_and!; [done..|].
  unfold get_output_cells, read_output. by rewrite Hclosed, Henc, Hout.
Qed.

(** X29. Captures of one descriptor nest. Inside the region of a capture
    of [fd], a second capture of [fd] whose region writes to [fd] and looks
    at its output returns to its region exactly the bytes written there;
    when it is left, the outer capture is as if nothing had happened: its
    temporary file holds what was written before the inner capture, and
    that is what its [get_output] returns. *)
Theorem captured_fd_nests fd d0 o0 content0 c content s body ends :
  capturing fd d0 o0 content0 c content s →
  writes_and_retrieves fd body →
  let inner := with_captured_fd bytes_decode fd None body ends s in
  inner.1.1 = match ends with
              | Some e => Raise e
              | None => Return (retrieved body [])
              end ∧
  capturing fd d0 o0 content0 c content inner.2 ∧
  (get_output bytes_decode (GenSuspended c) inner.2).1.1 = Return (Bytes content).
Proof.
  intros Hcap Hbody inner.
  pose proof Hcap as (Hs & He & Hc & H1 & H2 & H3 & Hfl & Ho & Hd0 & Hf0 &
          dt & ft & pos & Hdt & Hft & Hfd & Htfd & Hofd & Hfile).
  destruct (with_captured_fd_session fd s body ends Hfl (ltac:(by eexists)) Hbody)
    as (c' & s' & Hrun & _ & _ & _ & Hfl' & Hfds & Hofs & Hfs).
  assert (capturing fd d0 o0 content0 c content s') as Hcap'.
  { unfold capturing. rewrite Hfds. split_and!; try done.
    - by eapply lookup_weaken.
    - by eapply lookup_weaken.
    - exists dt, ft, pos. split_and!; try done; by eapply lookup_weaken. }
  unfold inner. rewrite Hrun. simpl. split_and!; [done | done |].
  destruct (get_output_cells_capturing bytes_decode _ _ _ _ _ _ _ Hcap')
    as (c2 & s2 & -> & _). done.
Qed.

End capture_session_props.

(** Standard error is captured; the region writes a byte, looks, and
    raises. *)
Lemma captured_fd_leaves_no_trace_witness :
  fds (with_captured_fd codec_decode 2 None [Write 2 [x61]; Retrieve]
         (Some (Exception 7)) three_streams).2 = fds three_streams.
Proof.
  destruct (captured_fd_leaves_no_trace codec_decode 2 three_streams
              [Write 2 [x61]; Retrieve] (Some (Exception 7)))
    as (_ & Hfds & _); [reflexivity | by eexists | | exact Hfds].
  repeat (apply Forall_cons_2; [first [left; reflexivity | right; eexists; reflexivity]|]).
  apply Forall_nil_2.
Defined.

(** Inside the capture of standard error, after one byte, a second capture
    of standard error gets one other byte. *)
Lemma captured_fd_nests_witness :
  (with_captured_fd codec_decode 2 None [Write 2 [x62]; Retrieve] None outer_capture).1.1 =
    Return [Bytes [x62]] ∧
  (get_output codec_decode (GenSuspended outer_cells)
     (with_captured_fd codec_decode 2 None [Write 2 [x62]; Retrieve] None outer_capture).2).1.1 =
    Return (Bytes [x61]).
Proof.
  destruct (captured_fd_nests codec_decode 2 2 (OpenFile 2 0 true) [x41] outer_cells [x61]
              outer_capture [Write 2 [x62]; Retrieve] None)
    as (Hinner & _ & Houter).
  - unfold capturing. split_and!; try done.
    exists 3, 3, 1. split_and!; done.
  - repeat (apply Forall_cons_2; [first [left; reflexivity | right; eexists; reflexivity]|]).
    apply Forall_nil_2.
  - split; [exact Hinner | exact Houter].
Defined.
